(** * Ground Plane Fitting and Scan-Line Run clustering

    A shallow embedding of [pfc_packages/gpf_slr.py] and the properties of
    its label-equivalence bookkeeping, run extraction and seed selection.

    Modelling conventions.
    - A point cloud is an N x 6 numpy array; here a [list Point], one record
      per row.  The coordinate columns are rationals ([Q]): all arithmetic is
      exact, so rounding and infinities of float64 are outside the model.
      NaN arises from rational inputs only as the mean of no value and as
      the covariance of fewer than two points; there it is [None].
      The label and scanline columns hold integer-valued floats in the
      source and are integers ([Z]) here; Python's [1.0 == 1] and
      [hash(1.0) == hash(1)] make float and int keys of a dict coincide.
    - [np.linalg.norm(v) < t] is decided without square roots as
      [0 < t /\ |v|^2 < t^2].
    - A Python exception is a [Raise] result; a [while] loop gets a fuel
      argument and [OutOfFuel] marks the loop not having finished.
    - The dictionary [label_equivalences] is a [gmap Z Z]; the Python [set]
      of neighbour labels is a [gset Z]. *)

From Stdlib Require Import ZArith QArith List Lia Sorting.Permutation Sorting.Sorted.
From stdpp Require Import base option list gmap sets.

Open Scope Z_scope.

(** ** Results of fallible, possibly looping code *)

Inductive Exception :=
  | ValueError
  | KeyError
  | IndexError
  | UnboundLocalError
  | LinAlgError.

Inductive Result (A : Type) :=
  | Ok (a : A)
  | Raise (e : Exception)
  | OutOfFuel.

Arguments Ok {A} a.
Arguments Raise {A} e.
Arguments OutOfFuel {A}.

#[global] Instance Result_ret : MRet Result := λ A a, Ok a.
#[global] Instance Result_bind : MBind Result := λ A B f r,
  match r with
  | Ok a => f a
  | Raise e => Raise e
  | OutOfFuel => OutOfFuel
  end.

Definition of_option {A} (e : Exception) (o : option A) : Result A :=
  match o with
  | Some a => Ok a
  | None => Raise e
  end.

Fixpoint foldM {A B} (f : A → B → Result A) (a : A) (l : list B) : Result A :=
  match l with
  | [] => Ok a
  | x :: l' => a' ← f a x; foldM f a' l'
  end.

(** ** Data model *)

Record Point := mkPoint {
  px : Q;
  py : Q;
  pz : Q;
  true_label : Z;
  predicted_label : Z;
  scanline_id : Z
}.

Abbreviation Cloud := (list Point) (only parsing).

(** [row[4] = l] *)
Definition set_label (l : Z) (p : Point) : Point :=
  {| px := px p; py := py p; pz := pz p; true_label := true_label p;
     predicted_label := l; scanline_id := scanline_id p |}.

(** [run[:, 4] = l] *)
Definition set_labels (l : Z) (run : list Point) : list Point :=
  map (set_label l) run.

(** The columns other than [predicted_label] agree. *)
Definition same_frame (p q : Point) : Prop :=
  px p = px q ∧ py p = py q ∧ pz p = pz q ∧
  true_label p = true_label q ∧ scanline_id p = scanline_id q.

(** ** Exact geometry *)

Definition Qltb (a b : Q) : bool := negb (Qle_bool b a).

Definition Vec3 : Type := Q * Q * Q.

Definition xyz (p : Point) : Vec3 := (px p, py p, pz p).

Definition vsub (a b : Vec3) : Vec3 :=
  let '(a1, a2, a3) := a in
  let '(b1, b2, b3) := b in
  ((a1 - b1)%Q, (a2 - b2)%Q, (a3 - b3)%Q).

Definition dot (a b : Vec3) : Q :=
  let '(a1, a2, a3) := a in
  let '(b1, b2, b3) := b in
  (a1 * b1 + a2 * b2 + a3 * b3)%Q.

Definition sqnorm (v : Vec3) : Q := dot v v.

(** [sqrt(s) < t] for [0 <= s] *)
Definition sqrt_lt (s t : Q) : bool := Qltb 0 t && Qltb s (t * t).

(** [np.linalg.norm(p[:3] - q[:3]) < t] *)
Definition norm_lt (p q : Point) (t : Q) : bool :=
  sqrt_lt (sqnorm (vsub (xyz p) (xyz q))) t.

(** ** Array access *)

(** [a[i]] for [0 <= i] *)
Definition index {A} (a : list A) (i : nat) : Result A :=
  of_option IndexError (a !! i).

(** [a[-1]] *)
Definition index_last {A} (a : list A) : Result A :=
  of_option IndexError (last a).

(** [a[idxs]] with a list of row numbers: a fresh array *)
Fixpoint gather {A} (a : list A) (idxs : list nat) : Result (list A) :=
  match idxs with
  | [] => Ok []
  | i :: idxs' => x ← index a i; xs ← gather a idxs'; Ok (x :: xs)
  end.

(** [a[mask]] with a boolean mask *)
Fixpoint mask_select {A} (mask : list bool) (a : list A) : list A :=
  match mask, a with
  | b :: mask', x :: a' =>
      if b then x :: mask_select mask' a' else mask_select mask' a'
  | _, _ => []
  end.

(** [np.nonzero(mask)[0]], the positions counted from [i] *)
Fixpoint nonzero_from (i : nat) (mask : list bool) : list nat :=
  match mask with
  | [] => []
  | b :: mask' =>
      if b then i :: nonzero_from (S i) mask' else nonzero_from (S i) mask'
  end.

Definition nonzero (mask : list bool) : list nat := nonzero_from 0 mask.

(** [mask.sum()] *)
Definition mask_sum (mask : list bool) : nat :=
  length (filter (λ b, b = true) mask).

(** [cloud[i, 4] = l] for single rows [i], in turn *)
Fixpoint assign_rows (cloud : Cloud) (idxs : list nat) (labels : list Z) : Cloud :=
  match idxs, labels with
  | i :: idxs', l :: labels' =>
      assign_rows (alter (set_label l) i cloud) idxs' labels'
  | _, _ => cloud
  end.

(** [cloud[idxs, 4] = labels]: the shapes must agree, except that a
    one-element right-hand side is broadcast. *)
Definition assign_column (cloud : Cloud) (idxs : list nat) (labels : list Z)
  : Result Cloud :=
  if decide (length labels = length idxs) then Ok (assign_rows cloud idxs labels)
  else match labels with
       | [l] => Ok (assign_rows cloud idxs (replicate (length idxs) l))
       | _ => Raise ValueError
       end.

(** ** ScanlineGrouper: [group_by_scanline] *)

Fixpoint insert_unique (x : Z) (l : list Z) : list Z :=
  match l with
  | [] => [x]
  | y :: l' =>
      if x <? y then x :: l
      else if x =? y then l
      else y :: insert_unique x l'
  end.

(** [np.unique]: the sorted distinct values *)
Definition np_unique (l : list Z) : list Z := foldr insert_unique [] l.

Definition group_by_scanline (point_cloud : list Point) : list (list Point) :=
  let scan_ids := map scanline_id point_cloud in
  let unique_ids := np_unique scan_ids in
  map (λ s_id, filter (λ p, scanline_id p = s_id) point_cloud) unique_ids.

(** ** RunExtractor: [find_runs] *)

(** One iteration of [for i in range(1, num_points)]; the state is
    [(runs, current_run_indices)]. *)
Definition find_runs_step (scanline_points : list Point) (distance_threshold : Q)
    (st : list (list Point) * list nat) (i : nat)
  : Result (list (list Point) * list nat) :=
  let '(runs, current_run_indices) := st in
  p ← index scanline_points i;
  q ← index scanline_points (i - 1);
  if norm_lt p q distance_threshold
  then Ok (runs, current_run_indices ++ [i])
  else r ← gather scanline_points current_run_indices;
       Ok (runs ++ [r], [i]).

(** The forward pass, up to and including "append the last run". *)
Definition forward_runs (scanline_points : list Point) (distance_threshold : Q)
  : Result (list (list Point)) :=
  let num_points := length scanline_points in
  st ← foldM (find_runs_step scanline_points distance_threshold)
         ([], [0%nat]) (seq 1 (num_points - 1));
  r ← gather scanline_points (snd st);
  Ok (fst st ++ [r]).

(** [runs[0] = np.vstack((runs[-1], runs[0])); runs.pop()] *)
Definition merge_last_into_first (runs : list (list Point))
  : Result (list (list Point)) :=
  l ← index_last runs;
  f ← index runs 0;
  Ok (removelast (<[0%nat := l ++ f]> runs)).

Definition find_runs (scanline_points : list Point) (distance_threshold : Q)
  : Result (list (list Point)) :=
  runs ← forward_runs scanline_points distance_threshold;
  p0 ← index scanline_points 0;
  pl ← index_last scanline_points;
  if norm_lt p0 pl distance_threshold && bool_decide (1 < length runs)%nat
  then merge_last_into_first runs
  else Ok runs.

(** ** LabelEquivalence: the helpers nested in [update_labels] *)

(** [resolve_label]: [while label != m[label]: label = m[label]] *)
Fixpoint resolve_label (fuel : nat) (label_equivalences : gmap Z Z) (label : Z)
  : Result Z :=
  match fuel with
  | O => OutOfFuel
  | S fuel' =>
      match label_equivalences !! label with
      | None => Raise KeyError
      | Some parent =>
          if label =? parent then Ok label
          else resolve_label fuel' label_equivalences parent
      end
  end.

(** [while c == 9 or c in m: c += 1] *)
Fixpoint skip_used (fuel : nat) (label_equivalences : gmap Z Z) (c : Z)
  : Result Z :=
  match fuel with
  | O => OutOfFuel
  | S fuel' =>
      if (c =? 9) || bool_decide (is_Some (label_equivalences !! c))
      then skip_used fuel' label_equivalences (c + 1)
      else Ok c
  end.

(** [assign_new_label]: the relabelled run, the new mapping and the counter
    it returns. *)
Definition assign_new_label (fuel : nat) (run : list Point)
    (label_equivalences : gmap Z Z) (global_label_counter : Z)
  : Result (list Point * gmap Z Z * Z) :=
  c ← skip_used fuel label_equivalences global_label_counter;
  Ok (set_labels c run, <[c := c]> label_equivalences, c + 1).

(** [min(s)] and [max(s)] of a Python iterable: [ValueError] when empty *)
Definition py_min (l : list Z) : Result Z :=
  match l with
  | [] => Raise ValueError
  | x :: l' => Ok (foldl Z.min x l')
  end.

Definition py_max (l : list Z) : Result Z :=
  match l with
  | [] => Raise ValueError
  | x :: l' => Ok (foldl Z.max x l')
  end.

(** [for lbl in labels: m[lbl] = min_label] *)
Definition point_all_to (min_label : Z) (labels : list Z) (m : gmap Z Z)
  : gmap Z Z :=
  foldl (λ m lbl, <[lbl := min_label]> m) m labels.

(** [inherit_and_unify_labels] *)
Definition inherit_and_unify_labels (run : list Point)
    (neighbor_labels : gset Z) (label_equivalences : gmap Z Z)
  : Result (list Point * gmap Z Z) :=
  min_label ← py_min (elements neighbor_labels);
  Ok (set_labels min_label run,
      point_all_to min_label (elements neighbor_labels) label_equivalences).

(** ** The spatial index: [KDTree(points).query(q, k=1)]

    Exact nearest neighbour: the squared distance to the nearest row and its
    position; of several rows at the same distance, the first (sklearn
    leaves that choice open).  The tree is only queried with runs, which
    have at least one row. *)
Fixpoint nearest_from (i : nat) (best : Q * nat) (q : Point) (pts : list Point)
  : Q * nat :=
  match pts with
  | [] => best
  | p :: pts' =>
      let d := sqnorm (vsub (xyz q) (xyz p)) in
      nearest_from (S i) (if Qltb d (fst best) then (d, i) else best) q pts'
  end.

Definition kd_query (points : list Point) (q : Point) : Result (Q * nat) :=
  match points with
  | [] => Raise ValueError
  | p :: pts => Ok (nearest_from 1 (sqnorm (vsub (xyz q) (xyz p)), 0%nat) q pts)
  end.

Fixpoint mapM {A B} (f : A → Result B) (l : list A) : Result (list B) :=
  match l with
  | [] => Ok []
  | x :: l' => y ← f x; ys ← mapM f l'; Ok (y :: ys)
  end.

(** ** LabelPropagator: [update_labels] *)

(** The inner loop [for idx in close_indices]. *)
Definition collect_neighbor_labels (fuel : nat) (label_equivalences : gmap Z Z)
    (points_above : list Point) (close_indices : list nat) : Result (gset Z) :=
  foldM (λ (neighbor_labels : gset Z) idx,
           p ← index points_above idx;
           resolved_label ← resolve_label fuel label_equivalences (predicted_label p);
           Ok ({[resolved_label]} ∪ neighbor_labels))
        ∅ close_indices.

(** One iteration of [for run in runs_current]; the state is the runs
    relabelled so far, the mapping and [global_label_counter]. *)
Definition process_run (fuel : nat) (points_above : list Point) (merge_threshold : Q)
    (st : list (list Point) * gmap Z Z * Z) (run : list Point)
  : Result (list (list Point) * gmap Z Z * Z) :=
  let '(done, label_equivalences, global_label_counter) := st in
  nn ← mapM (kd_query points_above) run;
  let close_indices :=
    map snd (filter (λ dn, sqrt_lt (fst dn) merge_threshold = true) nn) in
  neighbor_labels ←
    collect_neighbor_labels fuel label_equivalences points_above close_indices;
  if decide (neighbor_labels = ∅)
  then
    '(run', m', c') ←
      assign_new_label fuel run label_equivalences global_label_counter;
    Ok (done ++ [run'], m', c')
  else
    '(run', m') ← inherit_and_unify_labels run neighbor_labels label_equivalences;
    Ok (done ++ [run'], m', global_label_counter).

Definition update_labels (fuel : nat) (runs_current runs_above : list (list Point))
    (label_equivalences : gmap Z Z) (merge_threshold : Q)
  : Result (list (list Point) * gmap Z Z) :=
  mx ← py_max (map snd (map_to_list label_equivalences));
  let global_label_counter := mx + 1 in
  match runs_above with
  | [] => Raise ValueError
  | _ =>
      let points_above := concat runs_above in
      st ← foldM (process_run fuel points_above merge_threshold)
             ([], label_equivalences, global_label_counter) runs_current;
      Ok (st.1.1, st.1.2)
  end.

(** ** ClusterFinalizer: [extract_clusters] *)

Definition extract_clusters (scanlines : list (list Point))
    (label_equivalences : gmap Z Z) : Result (list Point) :=
  match scanlines with
  | [] => Raise ValueError
  | _ =>
      mapM (λ p, l ← of_option KeyError (label_equivalences !! predicted_label p);
                 Ok (set_label l p))
           (concat scanlines)
  end.

(** ** [scan_line_run_clustering] *)

(** The first-scanline loop [for runs in runs_above]; the state is the runs
    relabelled so far, the mapping and [label_counter]. *)
Definition first_scanline_step (st : list (list Point) * gmap Z Z * Z)
    (run : list Point) : list (list Point) * gmap Z Z * Z :=
  let '(done, label_equivalences, label_counter) := st in
  let label_counter := label_counter + 1 in
  let label_counter := if label_counter =? 9 then label_counter + 1 else label_counter in
  (done ++ [set_labels label_counter run],
   <[label_counter := label_counter]> label_equivalences,
   label_counter).

Definition label_first_scanline (runs_above : list (list Point))
  : list (list Point) * gmap Z Z * Z :=
  foldl first_scanline_step ([], ∅, 0) runs_above.

(** One iteration of [for i in range(1, len(scanlines))]; the state is
    [(scanlines, runs_above, label_equivalences)]. *)
Definition propagate_step (fuel : nat) (distance_threshold merge_threshold : Q)
    (st : list (list Point) * list (list Point) * gmap Z Z) (i : nat)
  : Result (list (list Point) * list (list Point) * gmap Z Z) :=
  let '(scanlines, runs_above, label_equivalences) := st in
  s ← index scanlines i;
  runs_current ← find_runs s distance_threshold;
  '(runs_current, label_equivalences) ←
    update_labels fuel runs_current runs_above label_equivalences merge_threshold;
  Ok (<[i := concat runs_current]> scanlines, runs_current, label_equivalences).

(** Everything between the copy of the non-ground rows and the write-back:
    the scanlines and the mapping handed to [extract_clusters]. *)
Definition propagate_labels (fuel : nat) (non_ground_points : list Point)
    (distance_threshold merge_threshold : Q)
  : Result (list (list Point) * gmap Z Z) :=
  let scanlines := group_by_scanline non_ground_points in
  s0 ← index scanlines 0;
  runs_above ← find_runs s0 distance_threshold;
  let '(runs_above, label_equivalences, _) := label_first_scanline runs_above in
  let scanlines := <[0%nat := concat runs_above]> scanlines in
  st ← foldM (propagate_step fuel distance_threshold merge_threshold)
         (scanlines, runs_above, label_equivalences)
         (seq 1 (length scanlines - 1));
  Ok (st.1.1, st.2).

(** The array behind [point_cloud] when the call ends, and how it ends. *)
Definition scan_line_run_clustering (fuel : nat) (point_cloud : Cloud)
    (distance_threshold merge_threshold : Q) : Cloud * Result unit :=
  let non_ground_mask := map (λ p, predicted_label p =? 0) point_cloud in
  if (mask_sum non_ground_mask =? 0)%nat then (point_cloud, Raise ValueError)
  else
    let non_ground_indices := nonzero non_ground_mask in
    let non_ground_points := mask_select non_ground_mask point_cloud in
    if (length non_ground_points * 6 =? 0)%nat then (point_cloud, Raise ValueError)
    else
      match
        '(scanlines, label_equivalences) ←
          propagate_labels fuel non_ground_points distance_threshold merge_threshold;
        clustered_points ← extract_clusters scanlines label_equivalences;
        assign_column point_cloud non_ground_indices
          (map predicted_label clustered_points)
      with
      | Ok cloud' => (cloud', Ok ())
      | Raise e => (point_cloud, Raise e)
      | OutOfFuel => (point_cloud, OutOfFuel)
      end.

(** ** SeedSelector: [extract_initial_seed_indices] *)

(** [a[:n]] for a Python integer [n] *)
Definition py_prefix {A} (n : Z) (a : list A) : list A :=
  if 0 <=? n then take (Z.to_nat n) a
  else take (length a - Z.to_nat (- n)) a.

Definition qsum (l : list Q) : Q := foldr Qplus 0%Q l.

(** [np.mean]: [None] stands for the NaN numpy gives for an empty array. *)
Definition np_mean (l : list Q) : option Q :=
  match l with
  | [] => None
  | _ => Some (qsum l / inject_Z (Z.of_nat (length l)))%Q
  end.

Fixpoint insert_by_height (x : Q * nat) (l : list (Q * nat)) : list (Q * nat) :=
  match l with
  | [] => [x]
  | y :: l' =>
      if Qle_bool (fst x) (fst y) then x :: l
      else y :: insert_by_height x l'
  end.

(** [np.argsort]: the row numbers by ascending value (rows of equal value in
    their original order; numpy leaves that order open). *)
Definition argsort (zs : list Q) : list nat :=
  map snd (foldr insert_by_height [] (imap (λ i z, (z, i)) zs)).

Definition height (v : Vec3) : Q := v.2.

Definition extract_initial_seed_indices (point_cloud : list Vec3)
    (num_points : Z) (height_threshold : Q) : Result (list nat) :=
  let sorted_indices := argsort (map height point_cloud) in
  sorted_points ← gather point_cloud sorted_indices;
  let lpr_height := np_mean (map height (py_prefix num_points sorted_points)) in
  let mask :=
    map (λ v, match lpr_height with
              | Some lpr => Qltb (height v) (lpr + height_threshold)
              | None => false
              end) sorted_points in
  Ok (mask_select mask sorted_indices).

(** ** PlaneEstimator and GroundRefiner *)

Definition Mat3 : Type := Vec3 * Vec3 * Vec3.
Definition Plane : Type := Vec3 * Q.

(** [np.mean(points, axis=0)]; NaN ([None]) for no point. *)
Definition centroid_of (points : list Vec3) : option Vec3 :=
  cx ← np_mean (map (λ v, v.1.1) points);
  cy ← np_mean (map (λ v, v.1.2) points);
  cz ← np_mean (map height points);
  Some (cx, cy, cz).

(** One entry of [np.cov]: the mean of each variable is removed and the sum
    of products is divided by [N - 1].  For no observation the means are
    NaN, and for one the sum, 0, is multiplied by [1 / 0]: NaN both times. *)
Definition cov_entry (a b : list Q) : option Q :=
  ma ← np_mean a;
  mb ← np_mean b;
  if decide (length a ≤ 1)%nat then None
  else Some (qsum (zip_with (λ x y, (x - ma) * (y - mb)) a b)
             / inject_Z (Z.of_nat (length a) - 1))%Q.

(** [np.cov(centered_points.T)]; NaN ([None]) for fewer than two points. *)
Definition np_cov (centered_points : list Vec3) : option Mat3 :=
  let xs := map (λ v, v.1.1) centered_points in
  let ys := map (λ v, v.1.2) centered_points in
  let zs := map height centered_points in
  xx ← cov_entry xs xs; xy ← cov_entry xs ys; xz ← cov_entry xs zs;
  yx ← cov_entry ys xs; yy ← cov_entry ys ys; yz ← cov_entry ys zs;
  zx ← cov_entry zs xs; zy ← cov_entry zs ys; zz ← cov_entry zs zs;
  Some ((xx, xy, xz), (yx, yy, yz), (zx, zy, zz)).

(** [np.abs(np.dot(p, normal) + d) / np.linalg.norm(normal) < t]; a zero
    normal makes the quotient infinite or NaN, which is below nothing. *)
Definition plane_dist_lt (plane : Plane) (p : Vec3) (t : Q) : bool :=
  let '(normal, d) := plane in
  let v := (dot p normal + d)%Q in
  Qltb 0 (sqnorm normal) && Qltb 0 t && Qltb (v * v) (t * t * sqnorm normal).

(** [cloud[idxs, 4] = v] *)
Definition assign_scalar (cloud : Cloud) (idxs : list nat) (v : Z) : Cloud :=
  foldl (λ c i, alter (set_label v) i c) cloud idxs.

Section GroundPlaneFitting.

(** [np.linalg.svd(c)[2][-1]] for a matrix [c] of numbers: the last row of
    V^T, numpy's own code.  On a NaN matrix [np.linalg.svd] raises
    [LinAlgError]; that case is in [estimate_ground_plane]. *)
Variable svd_last_row : Mat3 → Vec3.

(** With no point the centroid is NaN and the centred array is empty; with
    fewer than two points the covariance is NaN and the SVD raises. *)
Definition estimate_ground_plane (points : list Vec3) : Result Plane :=
  let centroid := centroid_of points in
  let centered_points :=
    match centroid with
    | Some c => map (λ p, vsub p c) points
    | None => []
    end in
  match np_cov centered_points, centroid with
  | Some covariance_matrix, Some c =>
      let normal := svd_last_row covariance_matrix in
      let d := (- dot normal c)%Q in
      Ok (normal, d)
  | _, _ => Raise LinAlgError
  end.

(** One iteration of [for _ in range(num_iterations)]; the state is
    [seed_indices] and the plane variables, unbound before the first
    iteration. *)
Definition refine_step (xyz : list Vec3) (distance_threshold : Q)
    (st : list nat * option Plane) (_ : nat) : Result (list nat * option Plane) :=
  seeds ← gather xyz st.1;
  plane ← estimate_ground_plane seeds;
  let is_ground := map (λ p, plane_dist_lt plane p distance_threshold) xyz in
  Ok (nonzero is_ground, Some plane).

(** The array behind [point_cloud] when the call ends, and the plane it
    returns. *)
Definition refine_ground_plane (point_cloud : Cloud) (num_points : Z)
    (height_threshold distance_threshold : Q) (num_iterations : Z)
  : Cloud * Result Plane :=
  let xyz := map xyz point_cloud in
  match
    seed_indices ← extract_initial_seed_indices xyz num_points height_threshold;
    foldM (refine_step xyz distance_threshold) (seed_indices, None)
          (seq 0 (Z.to_nat num_iterations))
  with
  | Ok (seed_indices, plane) =>
      let cloud' := assign_scalar point_cloud seed_indices 9 in
      (cloud', of_option UnboundLocalError plane)
  | Raise e => (point_cloud, Raise e)
  | OutOfFuel => (point_cloud, OutOfFuel)
  end.

(** The seed set one iteration later: fit a plane to the seeds, keep the
    rows within the threshold (the seeds themselves where no plane can be
    fitted). *)
Definition reseed (xyz : list Vec3) (distance_threshold : Q)
    (seeds : list nat) : list nat :=
  match seeds_pts ← gather xyz seeds; estimate_ground_plane seeds_pts with
  | Ok plane =>
      nonzero (map (λ p, plane_dist_lt plane p distance_threshold) xyz)
  | _ => seeds
  end.

(** The seed set after [j] iterations. *)
Definition seeds_after (xyz : list Vec3) (distance_threshold : Q)
    (seeds : list nat) (j : nat) : list nat :=
  Nat.iter j (reseed xyz distance_threshold) seeds.

End GroundPlaneFitting.


(** * Invariants and specification predicates *)

(** What the forward loop of [find_runs] maintains before iteration [j]: the
    closed runs followed by the open one are the first [j] rows. *)
Definition forward_inv (pts : list Point) (j : nat)
    (st : list (list Point) * list nat) : Prop :=
  ∃ g, gather pts st.2 = Ok g ∧ concat st.1 ++ g = take j pts ∧
       g ≠ [] ∧ Forall (λ r, r ≠ []) st.1.


(** The circular test of [find_runs]: first and last rows within the
    threshold and more than one run. *)
Definition circular_merge_applies (pts : list Point) (t : Q)
    (fwd : list (list Point)) : Prop :=
  ∃ p0 pl, head pts = Some p0 ∧ last pts = Some pl ∧
           norm_lt p0 pl t = true ∧ (1 < length fwd)%nat.

(** The scanline of the run-splitting example: (0,0,0), (0,0,0.1), (5,5,5). *)
Definition example_scanline : list Point :=
  [mkPoint 0 0 0 0 0 0; mkPoint 0 0 (1 # 10) 0 0 0; mkPoint 5 5 5 0 0 0].

(** ** The label-equivalence mapping *)

(** Following the mapping from [a] ends at the root [r]. *)
Inductive chain (m : gmap Z Z) : Z → Z → Prop :=
  | chain_root r : m !! r = Some r → chain m r r
  | chain_step a b r : m !! a = Some b → a ≠ b → chain m b r → chain m a r.

(** Two labels are in the same class when they resolve to the same root. *)
Definition same_class (m : gmap Z Z) (a b : Z) : Prop :=
  ∃ r, chain m a r ∧ chain m b r.

(** The keys are the labels 1..k without 9. *)
Definition keys_upto (m : gmap Z Z) (k : Z) : Prop :=
  ∀ j, is_Some (m !! j) ↔ (1 ≤ j ≤ k ∧ j ≠ 9).

(** Every key points to a key that is not larger. *)
Definition parents_below (m : gmap Z Z) : Prop :=
  ∀ j v, m !! j = Some v → 1 ≤ v ≤ j ∧ is_Some (m !! v).

Definition label_inv (m : gmap Z Z) (k : Z) : Prop :=
  0 ≤ k ∧ keys_upto m k ∧ parents_below m.

(** [l] is the smallest positive integer that is neither 9 nor a key. *)
Definition smallest_unused (m : gmap Z Z) (l : Z) : Prop :=
  0 < l ∧ l ≠ 9 ∧ m !! l = None ∧
  ∀ j, 0 < j < l → j ≠ 9 → is_Some (m !! j).

(** The label after the keys 1..k: [k + 1], stepping over 9. *)
Definition next_label (k : Z) : Z := if k + 1 =? 9 then k + 2 else k + 1.

(** The states of [label_equivalences] during clustering calls, with the
    value of [global_label_counter] where there is one: after any number of
    iterations of the first-scanline loop ([None]), at entry of
    [update_labels], and after any number of iterations of its loop over the
    runs. *)
Inductive slr_reach : gmap Z Z → option Z → Prop :=
  | reach_first runs : slr_reach (label_first_scanline runs).1.2 None
  | reach_entry m oc mx :
      slr_reach m oc → py_max (map snd (map_to_list m)) = Ok mx →
      slr_reach m (Some (mx + 1))
  | reach_run m c fuel points_above mt done run done' m' c' :
      slr_reach m (Some c) →
      process_run fuel points_above mt (done, m, c) run = Ok (done', m', c') →
      slr_reach m' (Some c').

Definition reachable (m : gmap Z Z) : Prop := ∃ oc, slr_reach m oc.

(** What holds of a mapping and counter inside [update_labels]. *)
Definition counter_inv (m : gmap Z Z) (c : Z) : Prop :=
  ∃ k, label_inv m k ∧ 1 ≤ c ≤ k + 1.

(** A small reachable mapping: two runs labelled in the first scanline. *)
Definition example_mapping : gmap Z Z :=
  (label_first_scanline [[mkPoint 0 0 0 0 0 0]; [mkPoint 5 5 5 0 0 0]]).1.2.

(** Every row carries a label that is a key of the mapping. *)
Definition labelled (m : gmap Z Z) (pts : list Point) : Prop :=
  ∀ p, p ∈ pts → is_Some (m !! predicted_label p).

(** The number of labels among 1..k that are not 9. *)
Definition label_cost (k : Z) : Z := if 9 <=? k then k - 1 else k.

(** A run after [run[:, 4] = l] for a key [l] of the mapping. *)
Definition relabelled (m : gmap Z Z) (run run' : list Point) : Prop :=
  ∃ l, run' = set_labels l run ∧ is_Some (m !! l).

(** What the loop over the scanlines maintains before iteration [i]: the
    first [i] scanlines are relabelled with keys of the mapping, the others
    are the groups [gs] as they were, the rows above are labelled, and the
    mapping has no more labels than rows seen. *)
Definition propagate_inv (gs : list (list Point)) (i : nat)
    (st : list (list Point) * list (list Point) * gmap Z Z) : Prop :=
  ∃ pre k,
    st.1.1 = pre ++ drop i gs ∧ length pre = i ∧
    labelled st.2 (concat pre) ∧
    length (concat pre) = length (concat (take i gs)) ∧
    concat st.1.2 ≠ [] ∧ labelled st.2 (concat st.1.2) ∧
    label_inv st.2 k ∧ 1 ≤ k ∧
    label_cost k ≤ Z.of_nat (length (concat (take i gs))) ∧
    reachable st.2.

Definition is_Raise {A} (r : Result A) : Prop := ∃ e, r = Raise e.

(** The cloud of the three-scanline example: three separate rows in scanline
    0, a row and a two-row run in scanline 1, a four-row run in scanline 2. *)
Definition example_row (x y sid : Z) : Point :=
  mkPoint (inject_Z x) (inject_Z y) 0 0 0 sid.

Definition example_cloud : Cloud :=
  [example_row 0 0 0; example_row 10 0 0; example_row 20 0 0;
   example_row 0 1 1; example_row 14 1 1; example_row 16 1 1;
   example_row 4 2 2; example_row 6 2 2; example_row 8 2 2; example_row 10 2 2].

(** A small scene: four rows on the ground (z = 0) in scanline 0 and two rows
    of an object (z = 5) in scanline 1. *)
Definition example_scene : Cloud :=
  [mkPoint 0 0 0 0 0 0; mkPoint 1 0 0 0 0 0; mkPoint 0 1 0 0 0 0;
   mkPoint 1 1 0 0 0 0; mkPoint 0 0 5 0 0 1; mkPoint 1 0 5 0 0 1].

(** A cloud whose rows are not in scanline order: a row of scanline 1 at
    x = 0, then two rows of scanline 0 at x = 0 and x = 100. *)
Definition unordered_cloud : Cloud :=
  [example_row 0 1 1; example_row 0 0 0; example_row 100 0 0].

(** Order of [(height, row)] pairs by height. *)
Definition height_le (a b : Q * nat) : Prop := (a.1 <= b.1)%Q.

(** The rows of [pc] by ascending height, each with its height. *)
Definition rows_by_height (pc : list Vec3) : list (Q * nat) :=
  foldr insert_by_height [] (imap (λ i z, (z, i)) (map height pc)).

(** Three points at heights 3, 1 and 2. *)
Definition example_points : list Vec3 :=
  [(0%Q, 0%Q, 3%Q); (1%Q, 0%Q, 1%Q); (0%Q, 1%Q, 2%Q)].

(** A stand-in for numpy's SVD in examples: the vertical direction. *)
Definition vertical_normal (c : Mat3) : Vec3 := (0%Q, 0%Q, 1%Q).

(** [point_cloud[seed_indices, 4] = 9] for the rows within [t] of [plane]. *)
Definition mark_ground (plane : Plane) (t : Q) (cloud : Cloud) : Cloud :=
  map (λ p, if plane_dist_lt plane (xyz p) t then set_label 9 p else p) cloud.

(** Consecutive rows of a run are within the threshold of each other. *)
Definition linked (t : Q) (run : list Point) : Prop :=
  ∀ i p q, run !! i = Some p → run !! S i = Some q → norm_lt q p t = true.

(** Where one run ends and the next begins the rows are not within the
    threshold. *)
Definition separated (t : Q) (runs : list (list Point)) : Prop :=
  ∀ i r1 r2 a b,
    runs !! i = Some r1 → runs !! S i = Some r2 →
    last r1 = Some a → head r2 = Some b → norm_lt b a t = false.

(** What the forward loop of [find_runs] maintains about distances before
    iteration [j]: the open run ends at row [j - 1], the runs are linked and
    separated. *)
Definition forward_inv_linked (pts : list Point) (t : Q) (j : nat)
    (st : list (list Point) * list nat) : Prop :=
  ∃ g, gather pts st.2 = Ok g ∧ g ≠ [] ∧ last g = pts !! (j - 1)%nat ∧
       Forall (linked t) (st.1 ++ [g]) ∧ separated t (st.1 ++ [g]).

(** The rows after [cloud[np.nonzero(mask)[0], 4] = labels] for the mask
    [g] of the rows: the masked rows take the labels in turn. *)
Fixpoint write_masked (g : Point → bool) (cloud : list Point) (labels : list Z)
  : list Point :=
  match cloud with
  | [] => []
  | p :: cloud' =>
      if g p then
        match labels with
        | l :: labels' => set_label l p :: write_masked g cloud' labels'
        | [] => p :: cloud'
        end
      else p :: write_masked g cloud' labels
  end.

(** The label of the run at position [i] of the first scanline: [i + 1],
    with 9 left out. *)
Definition nth_label (i : nat) : Z :=
  if (i <? 8)%nat then Z.of_nat i + 1 else Z.of_nat i + 2.

(** The columns of a row that clustering does not write. *)
Definition frame_of (p : Point) : Q * Q * Q * Z * Z :=
  (px p, py p, pz p, true_label p, scanline_id p).

(** The rows of [s] are the rows of [g] up to order and label. *)
Definition same_rows (g s : list Point) : Prop :=
  map frame_of s ≡ₚ map frame_of g.

(** * Properties *)

(** ** The result monad *)

Lemma bind_Ok_inv {A B} (f : A → Result B) (r : Result A) (b : B) :
  (r ≫= f) = Ok b → ∃ a, r = Ok a ∧ f a = Ok b.
Proof. destruct r as [a| |]; simpl; intros H; [eauto | discriminate..]. Qed.

Lemma foldM_app {A B} (f : A → B → Result A) (a : A) (l1 l2 : list B) :
  foldM f a (l1 ++ l2) = (foldM f a l1 ≫= λ a', foldM f a' l2).
Proof.
  revert a. induction l1 as [|x l1 IH]; intros a; simpl; [done|].
  destruct (f a x) as [a'| |]; simpl; [apply IH | done..].
Qed.

Lemma gather_app {A} (a : list A) (l1 l2 : list nat) (g1 g2 : list A) :
  gather a l1 = Ok g1 → gather a l2 = Ok g2 → gather a (l1 ++ l2) = Ok (g1 ++ g2).
Proof.
  revert g1. induction l1 as [|i l1 IH]; intros g1; simpl.
  - intros [= <-]. done.
  - intros (x & Hx & H)%bind_Ok_inv.
    apply bind_Ok_inv in H as (xs & Hxs & [= <-]).
    intros H2. rewrite Hx. simpl. rewrite (IH _ Hxs H2). done.
Qed.

Lemma gather_singleton {A} (a : list A) (i : nat) (x : A) :
  a !! i = Some x → gather a [i] = Ok [x].
Proof. intros H. simpl. unfold index. rewrite H. done. Qed.

(** ** RunExtractor *)

Lemma find_runs_step_inv pts t j st :
  (1 ≤ j < length pts)%nat → forward_inv pts j st →
  ∃ st', find_runs_step pts t st j = Ok st' ∧ forward_inv pts (S j) st'.
Proof.
  intros [Hj1 Hj2] (g & Hg & Hcat & Hne & Hall).
  destruct st as [runs cur]. simpl in *.
  destruct (lookup_lt_is_Some_2 pts j Hj2) as [p Hp].
  destruct (lookup_lt_is_Some_2 pts (j - 1)) as [q Hq]; [lia|].
  unfold find_runs_step, index. rewrite Hp, Hq. simpl.
  destruct (norm_lt p q t).
  - eexists. split; [done|]. exists (g ++ [p]). simpl. split_and!.
    + apply gather_app; [done|]. by apply gather_singleton.
    + rewrite (take_S_r _ _ _ Hp), <- Hcat. by rewrite app_assoc.
    + by destruct g.
    + done.
  - rewrite Hg. simpl. eexists. split; [done|]. exists [p]. simpl. split_and!.
    + unfold index. by rewrite Hp.
    + rewrite concat_app. simpl. rewrite app_nil_r, Hcat.
      by rewrite (take_S_r _ _ _ Hp).
    + done.
    + apply Forall_app. split; [done|]. by constructor.
Qed.

Lemma find_runs_loop_inv pts t len : ∀ j st,
  (1 ≤ j)%nat → (j + len ≤ length pts)%nat → forward_inv pts j st →
  ∃ st', foldM (find_runs_step pts t) st (seq j len) = Ok st' ∧
         forward_inv pts (j + len) st'.
Proof.
  induction len as [|len IH]; intros j st Hj Hlen Hinv; simpl.
  - exists st. split; [done|]. by rewrite Nat.add_0_r.
  - destruct (find_runs_step_inv pts t j st) as (st1 & Hst1 & Hinv1); [lia|done|].
    rewrite Hst1. simpl.
    destruct (IH (S j) st1) as (st' & Hst' & Hinv'); [lia|lia|done|].
    exists st'. split; [done|]. by replace (j + S len)%nat with (S j + len)%nat by lia.
Qed.

(** The forward pass cuts the scanline into non-empty consecutive pieces. *)
Lemma forward_runs_spec pts t :
  pts ≠ [] →
  ∃ runs, forward_runs pts t = Ok runs ∧ concat runs = pts ∧
          runs ≠ [] ∧ Forall (λ r, r ≠ []) runs.
Proof.
  intros Hne. destruct pts as [|p0 pts]; [done|].
  destruct (find_runs_loop_inv (p0 :: pts) t (length (p0 :: pts) - 1) 1
              ([], [0%nat])) as (st & Hst & g & Hg & Hcat & Hgne & Hall).
  - lia.
  - simpl. lia.
  - exists [p0]. simpl. done.
  - unfold forward_runs. rewrite Hst. simpl. rewrite Hg. simpl.
    eexists. split; [done|]. split_and!.
    + rewrite concat_app. simpl. rewrite app_nil_r, Hcat.
      apply take_ge. simpl. lia.
    + by destruct (st.1).
    + apply Forall_app. split; [done|]. by constructor.
Qed.

Lemma merge_last_into_first_snoc (f l : list Point) (mid : list (list Point)) :
  merge_last_into_first (f :: mid ++ [l]) = Ok ((l ++ f) :: mid).
Proof.
  unfold merge_last_into_first, index_last, index.
  rewrite (last_snoc l (f :: mid) : last (f :: mid ++ [l]) = Some l).
  cbn [mbind Result_bind of_option lookup list_lookup].
  change (<[0%nat := l ++ f]> (f :: mid ++ [l])) with (((l ++ f) :: mid) ++ [l]).
  by rewrite removelast_last.
Qed.

Lemma runs_first_last (runs : list (list Point)) :
  (1 < length runs)%nat → ∃ f mid l, runs = f :: mid ++ [l].
Proof.
  destruct runs as [|f rest]; simpl; [lia|]. intros H.
  destruct (exists_last (l := rest)) as (mid & l & ->).
  - destruct rest; simpl in *; [lia|done].
  - eauto.
Qed.

Lemma find_runs_unfold pts t fwd p0 pl :
  forward_runs pts t = Ok fwd → head pts = Some p0 → last pts = Some pl →
  find_runs pts t =
    if norm_lt p0 pl t && bool_decide (1 < length fwd)%nat
    then merge_last_into_first fwd else Ok fwd.
Proof.
  intros Hfwd Hhd Hlast. unfold find_runs. rewrite Hfwd. simpl.
  unfold index, index_last. rewrite <- head_lookup, Hhd, Hlast. done.
Qed.

Lemma nonempty_head_last (pts : list Point) :
  pts ≠ [] → ∃ p0 pl, head pts = Some p0 ∧ last pts = Some pl.
Proof.
  intros Hne. destruct pts as [|p0 pts]; [done|]. exists p0.
  destruct (last (p0 :: pts)) as [pl|] eqn:E; [eauto|].
  by apply last_None in E.
Qed.

(** C8. After the forward pass of [find_runs] on a non-empty scanline, the
    last run is put in front of the first one (last run's rows first) and the
    number of runs drops by one exactly when the first and last rows are
    within [distance_threshold] and the pass gave more than one run; in every
    other case the runs of the forward pass are returned as they are. *)
Theorem find_runs_circular_merge (pts : list Point) (t : Q) :
  pts ≠ [] →
  ∃ fwd, forward_runs pts t = Ok fwd ∧
    (circular_merge_applies pts t fwd →
       ∃ f mid l, fwd = f :: mid ++ [l] ∧
                  find_runs pts t = Ok ((l ++ f) :: mid)) ∧
    (¬ circular_merge_applies pts t fwd → find_runs pts t = Ok fwd) ∧
    (circular_merge_applies pts t fwd ↔
       ∃ runs, find_runs pts t = Ok runs ∧ S (length runs) = length fwd).
Proof.
  intros Hne.
  destruct (forward_runs_spec pts t Hne) as (fwd & Hfwd & _ & Hfne & _).
  destruct (nonempty_head_last pts Hne) as (p0 & pl & Hhd & Hlast).
  pose proof (find_runs_unfold pts t fwd p0 pl Hfwd Hhd Hlast) as Hfr.
  assert (Hyes : circular_merge_applies pts t fwd →
            ∃ f mid l, fwd = f :: mid ++ [l] ∧
                       find_runs pts t = Ok ((l ++ f) :: mid)).
  { intros (p0' & pl' & Hhd' & Hlast' & Hclose & Hlen).
    assert (p0' = p0) as -> by congruence.
    assert (pl' = pl) as -> by congruence.
    destruct (runs_first_last fwd Hlen) as (f & mid & l & ->).
    exists f, mid, l. split; [done|].
    rewrite Hfr, Hclose, bool_decide_eq_true_2 by done. simpl.
    apply merge_last_into_first_snoc. }
  assert (Hno : ¬ circular_merge_applies pts t fwd → find_runs pts t = Ok fwd).
  { intros Hn. rewrite Hfr.
    destruct (norm_lt p0 pl t) eqn:Hclose; simpl; [|done].
    case_bool_decide as Hlen; [|done].
    exfalso. apply Hn. by exists p0, pl. }
  exists fwd. split_and!; [done..|]. split.
  - intros Hc. destruct (Hyes Hc) as (f & mid & l & -> & Hres).
    eexists. split; [done|]. simpl. rewrite length_app. simpl. lia.
  - intros (runs & Hres & Hlen).
    destruct (norm_lt p0 pl t) eqn:Hclose.
    + destruct (decide (1 < length fwd)%nat) as [Hl|Hl]; [by exists p0, pl|].
      rewrite Hfr, bool_decide_eq_false_2, andb_false_r in Hres by done.
      injection Hres as <-. lia.
    + rewrite Hfr in Hres. simpl in Hres. injection Hres as <-. lia.
Qed.

Lemma find_runs_circular_merge_witness :
  ∃ fwd, forward_runs example_scanline (1 # 2) = Ok fwd ∧
    (circular_merge_applies example_scanline (1 # 2) fwd →
       ∃ f mid l, fwd = f :: mid ++ [l] ∧
                  find_runs example_scanline (1 # 2) = Ok ((l ++ f) :: mid)) ∧
    (¬ circular_merge_applies example_scanline (1 # 2) fwd →
       find_runs example_scanline (1 # 2) = Ok fwd) ∧
    (circular_merge_applies example_scanline (1 # 2) fwd ↔
       ∃ runs, find_runs example_scanline (1 # 2) = Ok runs ∧
               S (length runs) = length fwd).
Proof. apply (find_runs_circular_merge example_scanline (1 # 2)). discriminate. Defined.

(** The runs of a non-empty scanline: non-empty, and together a
    rearrangement of its rows. *)
Lemma find_runs_perm (pts : list Point) (t : Q) :
  pts ≠ [] →
  ∃ runs, find_runs pts t = Ok runs ∧
    runs ≠ [] ∧ Forall (λ r, r ≠ []) runs ∧ concat runs ≡ₚ pts.
Proof.
  intros Hne.
  destruct (forward_runs_spec pts t Hne) as (fwd & Hfwd & Hcat & Hfne & Hall).
  destruct (nonempty_head_last pts Hne) as (p0 & pl & Hhd & Hlast).
  rewrite (find_runs_unfold pts t fwd p0 pl Hfwd Hhd Hlast).
  destruct (norm_lt p0 pl t && bool_decide (1 < length fwd)%nat) eqn:Hc.
  - apply andb_true_iff in Hc as [_ Hlen%bool_decide_eq_true_1].
    destruct (runs_first_last fwd Hlen) as (f & mid & l & ->).
    rewrite merge_last_into_first_snoc. eexists. split; [done|].
    apply Forall_cons in Hall as [Hf Hall].
    apply Forall_app in Hall as [Hmid Hl].
    split_and!.
    + done.
    + constructor; [|done]. by destruct l.
    + rewrite <- Hcat. simpl. rewrite concat_app. simpl.
      rewrite app_nil_r, <- (assoc_L (++)).
      rewrite (Permutation_app_comm l). rewrite <- !(assoc_L (++)). done.
  - exists fwd. by rewrite Hcat.
Qed.

(** C10. On a non-empty scanline [find_runs] returns a non-empty list of
    non-empty runs whose rows, taken together, are the rows of the scanline,
    each once (a permutation), so the run lengths add up to the number of
    rows; with the circular merge and without it. *)
Theorem find_runs_partition (pts : list Point) (t : Q) :
  pts ≠ [] →
  ∃ runs, find_runs pts t = Ok runs ∧
    runs ≠ [] ∧ Forall (λ r, r ≠ []) runs ∧
    concat runs ≡ₚ pts ∧
    sum_list (map length runs) = length pts.
Proof.
  intros Hne.
  destruct (find_runs_perm pts t Hne) as (runs & Hres & H1 & H2 & Hperm).
  exists runs. split_and!; [done..|].
  rewrite <- (Permutation_length Hperm), length_concat. done.
Qed.

Lemma find_runs_partition_witness :
  ∃ runs, find_runs example_scanline (1 # 2) = Ok runs ∧
    runs ≠ [] ∧ Forall (λ r, r ≠ []) runs ∧
    concat runs ≡ₚ example_scanline ∧
    sum_list (map length runs) = length example_scanline.
Proof. apply (find_runs_partition example_scanline (1 # 2)). discriminate. Defined.

(** The run-splitting example: two runs, the first two rows and the third. *)
Example find_runs_example :
  find_runs example_scanline (1 # 2) =
    Ok [[mkPoint 0 0 0 0 0 0; mkPoint 0 0 (1 # 10) 0 0 0]; [mkPoint 5 5 5 0 0 0]].
Proof. reflexivity. Qed.

(** ** LabelEquivalence *)

Lemma resolve_label_chain fuel m a r :
  resolve_label fuel m a = Ok r → chain m a r.
Proof.
  revert a. induction fuel as [|fuel IH]; intros a; simpl; [done|].
  destruct (m !! a) as [b|] eqn:Hab; [|done].
  destruct (Z.eqb_spec a b) as [<-|Hne].
  - intros [= <-]. by constructor.
  - intros H. eapply chain_step; eauto.
Qed.

Lemma chain_is_root m a r : chain m a r → m !! r = Some r.
Proof. induction 1; done. Qed.

Lemma chain_functional m a r1 r2 : chain m a r1 → chain m a r2 → r1 = r2.
Proof.
  intros H1. revert r2. induction H1 as [r Hr|a b r Hab Hne _ IH]; intros r2 H2.
  - destruct H2 as [|a b r2 Hab Hne _]; [done|congruence].
  - destruct H2 as [r2 Hr2|a b' r2 Hab' _ H2]; [congruence|].
    apply IH. congruence.
Qed.

Lemma chain_resolve_label m a r :
  parents_below m → chain m a r →
  r ≤ a ∧ ∀ fuel, (Z.to_nat (a - r) < fuel)%nat → resolve_label fuel m a = Ok r.
Proof.
  intros Hpb. induction 1 as [r Hr|a b r Hab Hne Hch [Hle IH]].
  - split; [lia|]. intros [|fuel] Hf; [lia|]. simpl. rewrite Hr.
    by rewrite Z.eqb_refl.
  - destruct (Hpb _ _ Hab) as [Hb _]. split; [lia|].
    intros [|fuel] Hf; [lia|]. simpl. rewrite Hab.
    destruct (Z.eqb_spec a b); [done|]. apply IH. lia.
Qed.

Lemma parents_below_chain m a :
  parents_below m → is_Some (m !! a) → ∃ r, chain m a r.
Proof.
  intros Hpb [v Hv].
  assert (H : ∀ n a, (Z.to_nat a ≤ n)%nat → is_Some (m !! a) → ∃ r, chain m a r).
  { clear a v Hv. induction n as [|n IH]; intros a Hn [v Hv].
    - destruct (Hpb _ _ Hv) as [? _]. lia.
    - destruct (Hpb _ _ Hv) as [? Hk].
      destruct (decide (a = v)) as [<-|Hne].
      + exists a. by constructor.
      + destruct (IH v) as [r Hr]; [lia|done|].
        exists r. by eapply chain_step. }
  eapply H; eauto.
Qed.

(** The root of a class is its smallest label. *)
Lemma chain_root_least m a r : parents_below m → chain m a r → r ≤ a.
Proof. intros Hpb Hch. by destruct (chain_resolve_label m a r Hpb Hch). Qed.

Lemma next_label_bounds k : k + 1 ≤ next_label k ≤ k + 2 ∧ next_label k ≠ 9.
Proof. unfold next_label. destruct (Z.eqb_spec (k + 1) 9); lia. Qed.

Lemma keys_upto_below_next m k c :
  keys_upto m k → 1 ≤ c < next_label k → c = 9 ∨ is_Some (m !! c).
Proof.
  intros Hk Hc. destruct (decide (c = 9)) as [|Hne]; [by left|right].
  apply Hk. unfold next_label in Hc. destruct (Z.eqb_spec (k + 1) 9); lia.
Qed.

Lemma keys_upto_next_free m k : keys_upto m k → m !! next_label k = None.
Proof.
  intros Hk. apply eq_None_not_Some. intros [Hr _]%Hk.
  pose proof (next_label_bounds k). lia.
Qed.

Lemma skip_used_spec m k fuel : ∀ c,
  keys_upto m k → 1 ≤ c ≤ next_label k →
  (Z.to_nat (next_label k - c) < fuel)%nat →
  skip_used fuel m c = Ok (next_label k).
Proof.
  induction fuel as [|fuel IH]; intros c Hk Hc Hf; [lia|]. simpl.
  destruct (decide (c = next_label k)) as [->|Hne].
  - destruct (next_label_bounds k) as [_ H9].
    destruct (Z.eqb_spec (next_label k) 9); [done|]. simpl.
    rewrite bool_decide_eq_false_2; [done|].
    rewrite (keys_upto_next_free m k Hk). by intros [? ?].
  - assert (Hlt : 1 ≤ c < next_label k) by lia.
    assert ((c =? 9) || bool_decide (is_Some (m !! c)) = true) as ->.
    { destruct (keys_upto_below_next m k c Hk Hlt) as [->|Hs]; [done|].
      rewrite bool_decide_eq_true_2 by done. apply orb_true_r. }
    apply IH; [done|lia|lia].
Qed.

Lemma skip_used_Ok_inv m k fuel : ∀ c l,
  keys_upto m k → 1 ≤ c ≤ next_label k →
  skip_used fuel m c = Ok l → l = next_label k.
Proof.
  induction fuel as [|fuel IH]; intros c l Hk Hc; simpl; [done|].
  destruct (decide (c = next_label k)) as [->|Hne].
  - destruct (next_label_bounds k) as [_ H9].
    destruct (Z.eqb_spec (next_label k) 9); [done|]. simpl.
    rewrite bool_decide_eq_false_2; [congruence|].
    rewrite (keys_upto_next_free m k Hk). by intros [? ?].
  - assert (Hlt : 1 ≤ c < next_label k) by lia.
    assert ((c =? 9) || bool_decide (is_Some (m !! c)) = true) as ->.
    { destruct (keys_upto_below_next m k c Hk Hlt) as [->|Hs]; [done|].
      rewrite bool_decide_eq_true_2 by done. apply orb_true_r. }
    apply IH; [done|lia].
Qed.

Lemma next_label_smallest_unused m k :
  0 ≤ k → keys_upto m k → smallest_unused m (next_label k).
Proof.
  intros H0 Hk. pose proof (next_label_bounds k) as [Hb H9].
  split_and!; [lia|done|by apply keys_upto_next_free|].
  intros j Hj Hj9.
  destruct (keys_upto_below_next m k j Hk) as [|Hs]; [lia|done|done].
Qed.

Lemma smallest_unused_unique m l1 l2 :
  smallest_unused m l1 → smallest_unused m l2 → l1 = l2.
Proof.
  intros (H1 & H19 & Hn1 & Hs1) (H2 & H29 & Hn2 & Hs2).
  destruct (Z.lt_trichotomy l1 l2) as [Hlt|[->|Hgt]]; [|done|].
  - destruct (Hs2 l1) as [? ?]; [lia|done|congruence].
  - destruct (Hs1 l2) as [? ?]; [lia|done|congruence].
Qed.

Lemma label_inv_insert_next m k :
  label_inv m k → label_inv (<[next_label k := next_label k]> m) (next_label k).
Proof.
  intros (H0 & Hk & Hpb). pose proof (next_label_bounds k) as [Hb H9].
  split_and!; [lia| |].
  - intros j. rewrite lookup_insert_is_Some. specialize (Hk j).
    unfold next_label in *. destruct (Z.eqb_spec (k + 1) 9); split.
    all: try (intros [<-|[Hne Hs%Hk]]; lia).
    all: intros Hj; destruct (decide (k + 2 = j)), (decide (k + 1 = j));
      try (left; lia); right; (split; [lia|apply Hk; lia]).
  - intros j v. rewrite lookup_insert_Some. intros [[<- <-]|[Hne Hjv]].
    + split; [lia|]. rewrite lookup_insert_eq. eauto.
    + destruct (Hpb _ _ Hjv) as [Hv Hs]. split; [done|].
      rewrite lookup_insert_is_Some.
      destruct (decide (next_label k = v)); [by left|by right].
Qed.

Lemma foldl_min_spec (l : list Z) : ∀ x,
  (foldl Z.min x l = x ∨ foldl Z.min x l ∈ l) ∧
  foldl Z.min x l ≤ x ∧ ∀ y, y ∈ l → foldl Z.min x l ≤ y.
Proof.
  induction l as [|a l IH]; intros x; simpl.
  - split_and!; [by left|lia|]. intros y Hy. by apply elem_of_nil in Hy.
  - destruct (IH (Z.min x a)) as (Hin & Hle & Hall). split_and!.
    + destruct Hin as [->|Hin].
      * destruct (Z.min_spec x a) as [[_ ->]|[_ ->]]; [by left|right; left].
      * right. by right.
    + lia.
    + intros y [->|Hy]%elem_of_cons; [lia|]. by apply Hall.
Qed.

Lemma py_min_spec (l : list Z) (mn : Z) :
  py_min l = Ok mn → mn ∈ l ∧ ∀ y, y ∈ l → mn ≤ y.
Proof.
  destruct l as [|x l]; simpl; [done|]. intros [= <-].
  destruct (foldl_min_spec l x) as (Hin & Hle & Hall). split.
  - destruct Hin as [->|Hin]; [left|by right].
  - intros y [->|Hy]%elem_of_cons; [done|]. by apply Hall.
Qed.

Lemma py_min_is_Ok (l : list Z) : l ≠ [] → ∃ mn, py_min l = Ok mn.
Proof. destruct l; [done|]. simpl. eauto. Qed.

Lemma foldl_max_elem (l : list Z) : ∀ x,
  foldl Z.max x l = x ∨ foldl Z.max x l ∈ l.
Proof.
  induction l as [|a l IH]; intros x; simpl; [by left|].
  destruct (IH (Z.max x a)) as [->|Hin].
  - destruct (Z.max_spec x a) as [[_ ->]|[_ ->]]; [right; left|by left].
  - right. by right.
Qed.

Lemma py_max_elem (l : list Z) (mx : Z) : py_max l = Ok mx → mx ∈ l.
Proof.
  destruct l as [|x l]; simpl; [done|]. intros [= <-].
  destruct (foldl_max_elem l x) as [->|Hin]; [left|by right].
Qed.

(** [max(m.values())] is the value of some key. *)
Lemma py_max_values (m : gmap Z Z) (mx : Z) :
  py_max (map snd (map_to_list m)) = Ok mx → ∃ j, m !! j = Some mx.
Proof.
  intros H%py_max_elem. apply list_elem_of_fmap in H as ([j v] & -> & Hjv).
  apply elem_of_map_to_list in Hjv. eauto.
Qed.

Lemma py_max_values_is_Ok (m : gmap Z Z) :
  m ≠ ∅ → ∃ mx, py_max (map snd (map_to_list m)) = Ok mx.
Proof.
  intros Hne. destruct (map_to_list m) as [|[j v] l] eqn:E.
  - by apply map_to_list_empty_iff in E.
  - simpl. eauto.
Qed.

Lemma point_all_to_lookup (mn : Z) (labels : list Z) : ∀ (m : gmap Z Z) j,
  point_all_to mn labels m !! j =
    if decide (j ∈ labels) then Some mn else m !! j.
Proof.
  unfold point_all_to.
  induction labels as [|a labels IH]; intros m j.
  - done.
  - cbn [foldl]. rewrite IH. destruct (decide (j ∈ labels)) as [Hin|Hnin].
    + rewrite decide_True; [done|]. by right.
    + destruct (decide (a = j)) as [->|Hne].
      * rewrite lookup_insert_eq, decide_True; [done|]. left.
      * rewrite lookup_insert_ne by done. rewrite decide_False; [done|].
        intros [->|?]%elem_of_cons; done.
Qed.

(** A union keeps the invariant: the labels are roots and now point to the
    smallest of them. *)
Lemma label_inv_point_all_to m k mn (labels : list Z) :
  label_inv m k →
  (∀ s, s ∈ labels → m !! s = Some s) →
  mn ∈ labels → (∀ s, s ∈ labels → mn ≤ s) →
  label_inv (point_all_to mn labels m) k.
Proof.
  intros (H0 & Hk & Hpb) Hroots Hmn Hmin.
  assert (Hsome : ∀ j, is_Some (point_all_to mn labels m !! j) ↔ is_Some (m !! j)).
  { intros j. rewrite point_all_to_lookup. case_decide as Hj; [|done].
    rewrite (Hroots j Hj). split; eauto. }
  split_and!; [done| |].
  - intros j. rewrite Hsome. apply Hk.
  - intros j v. rewrite Hsome, point_all_to_lookup. case_decide as Hj.
    + intros [= <-]. destruct (Hpb _ _ (Hroots mn Hmn)) as [? ?].
      split; [|eauto]. specialize (Hmin j Hj). lia.
    + apply Hpb.
Qed.

Lemma collect_neighbor_labels_roots fuel m points_above close_indices :
  ∀ (acc : gset Z) (labels : gset Z),
  (∀ s, s ∈ acc → m !! s = Some s) →
  foldM (λ (neighbor_labels : gset Z) idx,
           p ← index points_above idx;
           resolved_label ← resolve_label fuel m (predicted_label p);
           Ok ({[resolved_label]} ∪ neighbor_labels))
        acc close_indices = Ok labels →
  ∀ s, s ∈ labels → m !! s = Some s.
Proof.
  induction close_indices as [|i idxs IH]; intros acc labels Hacc; simpl.
  - intros [= <-]. done.
  - intros (acc' & Hstep & Hrest)%bind_Ok_inv.
    apply bind_Ok_inv in Hstep as (p & _ & Hstep).
    apply bind_Ok_inv in Hstep as (r & Hr & [= <-]).
    eapply IH; [|done]. intros s [->%elem_of_singleton|Hs]%elem_of_union.
    + eapply chain_is_root, resolve_label_chain, Hr.
    + by apply Hacc.
Qed.

(** The two ways an iteration of the loop of [update_labels] can go. *)
Lemma process_run_inv fuel points_above mt done m c run done' m' c' :
  process_run fuel points_above mt (done, m, c) run = Ok (done', m', c') →
  (∃ l, skip_used fuel m c = Ok l ∧ done' = done ++ [set_labels l run] ∧
        m' = <[l := l]> m ∧ c' = l + 1) ∨
  (∃ (labels : gset Z) mn,
        (∀ s, s ∈ labels → m !! s = Some s) ∧
        mn ∈ labels ∧ (∀ s, s ∈ labels → mn ≤ s) ∧
        done' = done ++ [set_labels mn run] ∧
        m' = point_all_to mn (elements labels) m ∧ c' = c).
Proof.
  unfold process_run.
  intros (nn & _ & H)%bind_Ok_inv.
  apply bind_Ok_inv in H as (labels & Hlabels & H).
  assert (Hroots : ∀ s, s ∈ labels → m !! s = Some s).
  { eapply (collect_neighbor_labels_roots fuel m points_above _ ∅); [|exact Hlabels].
    intros s Hs. by apply not_elem_of_empty in Hs. }
  clear Hlabels.
  destruct (decide (labels = ∅)) as [->|Hne].
  - left. apply bind_Ok_inv in H as ([[run' m1] c1] & Hnew & [= <- <- <-]).
    unfold assign_new_label in Hnew.
    apply bind_Ok_inv in Hnew as (l & Hl & [= <- <- <-]). eauto.
  - right. apply bind_Ok_inv in H as ([run' m1] & Hun & [= <- <- <-]).
    unfold inherit_and_unify_labels in Hun.
    apply bind_Ok_inv in Hun as (mn & Hmn & [= <- <-]).
    apply py_min_spec in Hmn as [Hin Hmin].
    exists labels, mn. split_and!; [done| | |done..].
    + by apply elem_of_elements.
    + intros s Hs. by apply Hmin, elem_of_elements.
Qed.

Lemma process_run_counter_inv fuel points_above mt done m c run done' m' c' :
  counter_inv m c →
  process_run fuel points_above mt (done, m, c) run = Ok (done', m', c') →
  counter_inv m' c'.
Proof.
  intros (k & Hinv & Hc) [(l & Hl & _ & -> & ->)|(labels & mn & Hroots & Hin & Hmin & _ & -> & ->)]%process_run_inv.
  - pose proof (next_label_bounds k) as [Hb _].
    destruct Hinv as (H0 & Hk & Hpb).
    apply (skip_used_Ok_inv m k) in Hl as ->; [|done|lia].
    exists (next_label k). split; [|lia].
    by apply label_inv_insert_next.
  - exists k. split; [|done].
    apply label_inv_point_all_to; [done| | |].
    + intros s Hs. by apply Hroots, elem_of_elements.
    + by apply elem_of_elements.
    + intros s Hs. by apply Hmin, elem_of_elements.
Qed.

Lemma first_scanline_step_eq done m lc run :
  first_scanline_step (done, m, lc) run =
    (done ++ [set_labels (next_label lc) run],
     <[next_label lc := next_label lc]> m, next_label lc).
Proof.
  unfold first_scanline_step, next_label.
  replace (lc + 1 + 1) with (lc + 2) by lia. done.
Qed.

Lemma label_first_scanline_snoc runs run :
  label_first_scanline (runs ++ [run]) =
    first_scanline_step (label_first_scanline runs) run.
Proof. unfold label_first_scanline. by rewrite foldl_app. Qed.

Lemma label_first_scanline_inv runs :
  label_inv (label_first_scanline runs).1.2 (label_first_scanline runs).2.
Proof.
  induction runs as [|run runs IH] using rev_ind.
  - simpl. split_and!; [lia| |].
    + intros j. rewrite lookup_empty. split; [by intros [? ?]|lia].
    + intros j v. by rewrite lookup_empty.
  - rewrite label_first_scanline_snoc.
    destruct (label_first_scanline runs) as [[done m] lc].
    rewrite first_scanline_step_eq. simpl in *.
    by apply label_inv_insert_next.
Qed.

Lemma slr_reach_inv m oc :
  slr_reach m oc →
  (∃ k, label_inv m k) ∧ (∀ c, oc = Some c → counter_inv m c).
Proof.
  induction 1 as [runs|m oc mx _ [[k Hinv] _] Hmx
                 |m c fuel pa mt done run done' m' c' _ [_ IH] Hrun].
  - split; [|done]. eexists. apply label_first_scanline_inv.
  - split; [eauto|]. intros c [= <-]. exists k. split; [done|].
    destruct (py_max_values m mx Hmx) as [j Hj].
    destruct Hinv as (H0 & Hk & Hpb).
    destruct (Hpb _ _ Hj) as [Hv _].
    assert (is_Some (m !! j)) as [? _]%Hk by eauto. lia.
  - assert (counter_inv m' c') as Hc.
    { eapply process_run_counter_inv; [|done]. by apply IH. }
    split; [|by intros ? [= <-]]. destruct Hc as (k & Hk & _). eauto.
Qed.

Lemma reachable_inv m : reachable m → ∃ k, label_inv m k.
Proof. intros [oc H]. by apply slr_reach_inv in H as [? _]. Qed.

Lemma chain_insert_fresh m l a r :
  m !! l = None → chain m a r → chain (<[l := l]> m) a r.
Proof.
  intros Hl. induction 1 as [r Hr|a b r Hab Hne _ IH].
  - apply chain_root. rewrite lookup_insert_ne; [done|congruence].
  - eapply chain_step; [|done..]. rewrite lookup_insert_ne; [done|congruence].
Qed.

Lemma chain_point_all_to m mn (labels : list Z) a r :
  (∀ s, s ∈ labels → m !! s = Some s) → mn ∈ labels →
  chain m a r →
  chain (point_all_to mn labels m) a (if decide (r ∈ labels) then mn else r).
Proof.
  intros Hroots Hmn. induction 1 as [r Hr|a b r Hab Hne _ IH].
  - case_decide as Hin.
    + destruct (decide (r = mn)) as [->|Hne].
      * apply chain_root. rewrite point_all_to_lookup. by rewrite decide_True.
      * eapply chain_step; [|done|].
        -- rewrite point_all_to_lookup. by rewrite decide_True.
        -- apply chain_root. rewrite point_all_to_lookup. by rewrite decide_True.
    + apply chain_root. rewrite point_all_to_lookup. by rewrite decide_False.
  - eapply chain_step; [|done..]. rewrite point_all_to_lookup.
    rewrite decide_False; [done|]. intros Hin. apply Hroots in Hin. congruence.
Qed.

Lemma same_class_insert_fresh m l a b :
  m !! l = None → same_class m a b → same_class (<[l := l]> m) a b.
Proof.
  intros Hl (r & Ha & Hb). exists r. split; by apply chain_insert_fresh.
Qed.

Lemma same_class_point_all_to m mn (labels : list Z) a b :
  (∀ s, s ∈ labels → m !! s = Some s) → mn ∈ labels →
  same_class m a b → same_class (point_all_to mn labels m) a b.
Proof.
  intros Hroots Hmn (r & Ha & Hb). eexists.
  split; by apply chain_point_all_to.
Qed.

(** An iteration of the loop of [update_labels] never separates two labels. *)
Lemma process_run_same_class fuel points_above mt done m c run done' m' c' a b :
  counter_inv m c →
  process_run fuel points_above mt (done, m, c) run = Ok (done', m', c') →
  same_class m a b → same_class m' a b.
Proof.
  intros (k & (H0 & Hk & Hpb) & Hc)
    [(l & Hl & _ & -> & _)|(labels & mn & Hroots & Hin & _ & _ & -> & _)]%process_run_inv.
  - pose proof (next_label_bounds k) as [Hb _].
    apply (skip_used_Ok_inv m k) in Hl as ->; [|done|lia].
    apply same_class_insert_fresh. by apply keys_upto_next_free.
  - apply same_class_point_all_to.
    + intros s Hs. by apply Hroots, elem_of_elements.
    + by apply elem_of_elements.
Qed.

Lemma dom_point_all_to mn (labels : list Z) (m : gmap Z Z) :
  dom m ⊆ dom (point_all_to mn labels m).
Proof.
  intros j [v Hv]%elem_of_dom. apply elem_of_dom.
  rewrite point_all_to_lookup. case_decide; eauto.
Qed.

Lemma process_run_dom fuel points_above mt done m c run done' m' c' :
  process_run fuel points_above mt (done, m, c) run = Ok (done', m', c') →
  dom m ⊆ dom m'.
Proof.
  intros [(l & _ & _ & -> & _)|(labels & mn & _ & _ & _ & _ & -> & _)]%process_run_inv.
  - rewrite dom_insert_L. apply union_subseteq_r.
  - apply dom_point_all_to.
Qed.

(** The loop of [update_labels], from a reachable state. *)
Lemma update_loop_reach fuel points_above mt runs : ∀ done m c done' m' c',
  slr_reach m (Some c) →
  foldM (process_run fuel points_above mt) (done, m, c) runs = Ok (done', m', c') →
  slr_reach m' (Some c') ∧ dom m ⊆ dom m'.
Proof.
  induction runs as [|run runs IH]; intros done m c done' m' c' Hreach; simpl.
  - intros [= <- <- <-]. done.
  - intros ([[done1 m1] c1] & Hstep & Hrest)%bind_Ok_inv.
    destruct (IH _ _ _ _ _ _ (reach_run _ _ _ _ _ _ _ _ _ _ Hreach Hstep) Hrest)
      as [Hr Hd].
    split; [done|]. etrans; [|done]. by eapply process_run_dom.
Qed.

Lemma update_labels_inv fuel runs_current runs_above m mt runs' m' :
  update_labels fuel runs_current runs_above m mt = Ok (runs', m') →
  ∃ mx c', py_max (map snd (map_to_list m)) = Ok mx ∧ runs_above ≠ [] ∧
    foldM (process_run fuel (concat runs_above) mt) ([], m, mx + 1) runs_current
      = Ok (runs', m', c').
Proof.
  unfold update_labels. intros (mx & Hmx & H)%bind_Ok_inv.
  destruct runs_above as [|r ra]; [done|].
  apply bind_Ok_inv in H as ([[d m1] c1] & Hloop & [= <- <-]).
  exists mx, c1. done.
Qed.

Lemma update_labels_reach fuel runs_current runs_above m mt runs' m' :
  reachable m →
  update_labels fuel runs_current runs_above m mt = Ok (runs', m') →
  reachable m' ∧ dom m ⊆ dom m'.
Proof.
  intros [oc Hreach] (mx & c' & Hmx & _ & Hloop)%update_labels_inv.
  destruct (update_loop_reach _ _ _ _ _ _ _ _ _ _ (reach_entry _ _ _ Hreach Hmx) Hloop)
    as [Hr Hd].
  split; [by exists (Some c')|done].
Qed.

Lemma example_mapping_reach : slr_reach example_mapping (Some 3).
Proof.
  apply (reach_entry example_mapping None 2).
  - apply reach_first.
  - vm_compute. reflexivity.
Qed.

Lemma resolve_label_root fuel m a r :
  resolve_label fuel m a = Ok r → resolve_label fuel m r = Ok r.
Proof.
  intros H. pose proof (chain_is_root _ _ _ (resolve_label_chain _ _ _ _ H)) as Hr.
  destruct fuel as [|fuel]; [done|]. simpl. by rewrite Hr, Z.eqb_refl.
Qed.

Lemma inherit_and_unify_labels_classes run (labels : gset Z) m run' m' :
  (∀ s, s ∈ labels → m !! s = Some s) →
  inherit_and_unify_labels run labels m = Ok (run', m') →
  (∀ s1 s2, s1 ∈ labels → s2 ∈ labels → same_class m' s1 s2) ∧
  (∀ a b, same_class m a b → same_class m' a b).
Proof.
  intros Hroots (mn & [Hin Hmin]%py_min_spec & [= <- <-])%bind_Ok_inv.
  assert (Hroots' : ∀ s, s ∈ elements labels → m !! s = Some s).
  { intros s Hs. by apply Hroots, elem_of_elements. }
  split.
  - assert (H : ∀ s, s ∈ labels →
              chain (point_all_to mn (elements labels) m) s mn).
    { intros s Hs.
      pose proof (chain_point_all_to m mn (elements labels) s s Hroots' Hin
                    (chain_root _ _ (Hroots s Hs))) as Hch.
      rewrite decide_True in Hch; [done|by apply elem_of_elements]. }
    intros s1 s2 H1 H2. exists mn. split; by apply H.
  - intros a b. by apply same_class_point_all_to.
Qed.

(** C4. In every state of the mapping reached during clustering, following
    the mapping from a key ends (within as many steps as the key's value) at
    a root, a label mapped to itself, and that root is the smallest label of
    its class; resolving a resolved label gives it back; and unions only
    merge classes: an iteration of [update_labels] keeps every two labels of
    one class in one class, and [inherit_and_unify_labels] on root labels
    puts them all in one class. *)
Theorem resolve_reaches_least_root (m : gmap Z Z) (oc : option Z) :
  slr_reach m oc →
  (∀ a, is_Some (m !! a) →
     ∃ r, chain m a r ∧ m !! r = Some r ∧
          (∀ fuel, (Z.to_nat a ≤ fuel)%nat → resolve_label fuel m a = Ok r) ∧
          (∀ b, chain m b r → r ≤ b)) ∧
  (∀ fuel a r, resolve_label fuel m a = Ok r → resolve_label fuel m r = Ok r) ∧
  (∀ c fuel points_above mt done run done' m' c' a b,
     oc = Some c →
     process_run fuel points_above mt (done, m, c) run = Ok (done', m', c') →
     same_class m a b → same_class m' a b) ∧
  (∀ run (labels : gset Z) run' m',
     (∀ s, s ∈ labels → m !! s = Some s) →
     inherit_and_unify_labels run labels m = Ok (run', m') →
     (∀ s1 s2, s1 ∈ labels → s2 ∈ labels → same_class m' s1 s2) ∧
     (∀ a b, same_class m a b → same_class m' a b)).
Proof.
  intros Hreach. destruct (slr_reach_inv m oc Hreach) as [[k Hinv] Hcnt].
  destruct Hinv as (H0 & Hk & Hpb). split_and!.
  - intros a Ha. destruct (parents_below_chain m a Hpb Ha) as [r Hch].
    destruct (chain_resolve_label m a r Hpb Hch) as [Hle Hres].
    pose proof (chain_is_root _ _ _ Hch) as Hr.
    destruct (Hpb _ _ Hr) as [Hr1 _].
    exists r. split_and!; [done..| |].
    + intros fuel Hf. apply Hres. lia.
    + intros b Hb. by eapply chain_root_least.
  - intros fuel a r. apply resolve_label_root.
  - intros c fuel pa mt done run done' m' c' a b -> Hrun.
    eapply process_run_same_class; [|done]. by apply Hcnt.
  - intros run labels run' m'. apply inherit_and_unify_labels_classes.
Qed.

Lemma resolve_reaches_least_root_witness :
  ∃ r, chain example_mapping 2 r ∧ example_mapping !! r = Some r ∧
       (∀ fuel, (Z.to_nat 2 ≤ fuel)%nat → resolve_label fuel example_mapping 2 = Ok r) ∧
       (∀ b, chain example_mapping b r → r ≤ b).
Proof.
  refine (proj1 (resolve_reaches_least_root example_mapping (Some 3) _) 2 _).
  - apply example_mapping_reach.
  - exists 2. vm_compute. reflexivity.
Defined.

(** C5. In every state of the mapping reached during clustering, 9 is
    neither a key nor a value; and no operation removes a key: the keys
    before a first-scanline allocation, before an iteration of the loop of
    [update_labels] (a new label or a union) and before a whole
    [update_labels] call are still keys after it. *)
Theorem mapping_excludes_9_and_grows (m : gmap Z Z) :
  reachable m →
  m !! 9 = None ∧ (∀ j, m !! j ≠ Some 9) ∧
  (∀ done lc run, dom m ⊆ dom (first_scanline_step (done, m, lc) run).1.2) ∧
  (∀ fuel points_above mt done c run done' m' c',
     process_run fuel points_above mt (done, m, c) run = Ok (done', m', c') →
     dom m ⊆ dom m') ∧
  (∀ fuel runs_current runs_above mt runs' m',
     update_labels fuel runs_current runs_above m mt = Ok (runs', m') →
     dom m ⊆ dom m' ∧ reachable m').
Proof.
  intros Hreach. destruct (reachable_inv m Hreach) as (k & H0 & Hk & Hpb).
  assert (H9 : m !! 9 = None).
  { apply eq_None_not_Some. intros [_ ?]%Hk. done. }
  split_and!.
  - done.
  - intros j Hj. destruct (Hpb _ _ Hj) as [_ [v Hv]]. congruence.
  - intros done lc run. rewrite first_scanline_step_eq. simpl.
    rewrite dom_insert_L. apply union_subseteq_r.
  - intros fuel pa mt done c run done' m' c'. apply process_run_dom.
  - intros fuel rc ra mt runs' m' Hup.
    destruct (update_labels_reach _ _ _ _ _ _ _ Hreach Hup). done.
Qed.

Lemma mapping_excludes_9_and_grows_witness :
  example_mapping !! 9 = None ∧ (∀ j, example_mapping !! j ≠ Some 9).
Proof.
  destruct (mapping_excludes_9_and_grows example_mapping) as (H1 & H2 & _).
  - exists (Some 3). apply example_mapping_reach.
  - split; [exact H1|exact H2].
Defined.

(** C6. Every allocation of a label takes the smallest positive integer that
    is neither 9 nor a key, and maps it to itself: in the first-scanline
    loop, after any number of its iterations, and in [assign_new_label], for
    every mapping and counter that [update_labels] can hold, its counter
    starting from [max(values) + 1] at each call. *)
Theorem new_label_is_smallest_unused :
  (∀ runs run,
     ∃ l, smallest_unused (label_first_scanline runs).1.2 l ∧
          first_scanline_step (label_first_scanline runs) run =
            ((label_first_scanline runs).1.1 ++ [set_labels l run],
             <[l := l]> (label_first_scanline runs).1.2, l)) ∧
  (∀ m c, slr_reach m (Some c) →
     ∃ l, smallest_unused m l ∧
          (∀ fuel run, (Z.to_nat l ≤ fuel)%nat →
             assign_new_label fuel run m c =
               Ok (set_labels l run, <[l := l]> m, l + 1)) ∧
          (∀ fuel run res, assign_new_label fuel run m c = Ok res →
             res = (set_labels l run, <[l := l]> m, l + 1))).
Proof.
  split.
  - intros runs run. pose proof (label_first_scanline_inv runs) as (H0 & Hk & _).
    destruct (label_first_scanline runs) as [[done m] lc]. simpl in *.
    exists (next_label lc). split; [by apply next_label_smallest_unused|].
    apply first_scanline_step_eq.
  - intros m c Hreach.
    destruct (slr_reach_inv m _ Hreach) as [_ Hcnt].
    destruct (Hcnt c eq_refl) as (k & (H0 & Hk & _) & Hc).
    pose proof (next_label_bounds k) as [Hb _].
    exists (next_label k). split_and!.
    + by apply next_label_smallest_unused.
    + intros fuel run Hf. unfold assign_new_label.
      rewrite (skip_used_spec m k fuel c); [done|done|lia|lia].
    + intros fuel run res (l & Hl & [= <-])%bind_Ok_inv.
      apply (skip_used_Ok_inv m k) in Hl as ->; [done|done|lia].
Qed.

Lemma new_label_is_smallest_unused_witness :
  ∃ l, smallest_unused example_mapping l ∧
       (∀ fuel run, (Z.to_nat l ≤ fuel)%nat →
          assign_new_label fuel run example_mapping 3 =
            Ok (set_labels l run, <[l := l]> example_mapping, l + 1)) ∧
       (∀ fuel run res, assign_new_label fuel run example_mapping 3 = Ok res →
          res = (set_labels l run, <[l := l]> example_mapping, l + 1)).
Proof.
  apply (proj2 new_label_is_smallest_unused example_mapping 3).
  apply example_mapping_reach.
Defined.

(** ** ScanlineGrouper *)

Lemma insert_unique_elem x y l : y ∈ insert_unique x l ↔ y = x ∨ y ∈ l.
Proof.
  induction l as [|a l IH]; simpl.
  - rewrite list_elem_of_singleton. split; [by left|].
    intros [->|H]; [done|]. by apply elem_of_nil in H.
  - destruct (Z.ltb_spec x a).
    + by rewrite elem_of_cons.
    + destruct (Z.eqb_spec x a) as [->|Hne].
      * rewrite elem_of_cons. tauto.
      * rewrite !elem_of_cons, IH. tauto.
Qed.

Lemma insert_unique_sorted x l :
  StronglySorted Z.lt l → StronglySorted Z.lt (insert_unique x l).
Proof.
  induction 1 as [|a l Hs IH Hall]; simpl.
  - repeat constructor.
  - destruct (Z.ltb_spec x a).
    + constructor; [by constructor|]. constructor; [done|].
      eapply Forall_impl; [done|]. simpl. lia.
    + destruct (Z.eqb_spec x a) as [->|Hne]; [by constructor|].
      constructor; [done|]. apply Forall_forall.
      intros y [->|Hy]%insert_unique_elem; [lia|].
      by eapply Forall_forall in Hall.
Qed.

Lemma np_unique_sorted l : StronglySorted Z.lt (np_unique l).
Proof.
  induction l as [|x l IH]; simpl; [constructor|]. by apply insert_unique_sorted.
Qed.

Lemma np_unique_elem y l : y ∈ np_unique l ↔ y ∈ l.
Proof.
  induction l as [|x l IH]; simpl; [done|].
  rewrite insert_unique_elem, elem_of_cons, IH. done.
Qed.

Lemma sorted_lt_NoDup (l : list Z) : StronglySorted Z.lt l → NoDup l.
Proof.
  induction 1 as [|a l Hs IH Hall]; constructor; [|done].
  intros Hin. eapply Forall_forall in Hall; [|done]. lia.
Qed.

Lemma filter_split_length (pc : list Point) (s : Z) (ids : list Z) :
  s ∉ ids →
  length (filter (λ p, scanline_id p ∈ s :: ids) pc) =
    (length (filter (λ p, scanline_id p = s) pc) +
     length (filter (λ p, scanline_id p ∈ ids) pc))%nat.
Proof.
  intros Hs. induction pc as [|p pc IH]; [done|].
  rewrite !filter_cons.
  destruct (decide (scanline_id p = s)) as [He|Hne].
  - rewrite decide_True by (rewrite He; left).
    rewrite (decide_False (P := scanline_id p ∈ ids)) by (by rewrite He).
    simpl. by rewrite IH.
  - destruct (decide (scanline_id p ∈ ids)) as [Hin|Hnin].
    + rewrite decide_True by (by right). simpl. rewrite IH. lia.
    + rewrite decide_False; [done|]. intros [?|?]%elem_of_cons; done.
Qed.

Lemma groups_length (pc : list Point) (ids : list Z) :
  NoDup ids →
  length (concat (map (λ s_id, filter (λ p, scanline_id p = s_id) pc) ids)) =
    length (filter (λ p, scanline_id p ∈ ids) pc).
Proof.
  induction 1 as [|s ids Hs _ IH]; simpl.
  - induction pc as [|p pc IHpc]; [done|]. rewrite filter_cons.
    rewrite decide_False; [done|]. apply not_elem_of_nil.
  - rewrite length_app, IH. by rewrite filter_split_length.
Qed.

Lemma filter_all_length {A} (P : A → Prop) `{∀ x, Decision (P x)} (l : list A) :
  (∀ x, x ∈ l → P x) → filter P l = l.
Proof.
  induction l as [|x l IH]; intros Hall; [done|].
  rewrite filter_cons, decide_True by (apply Hall; left).
  f_equal. apply IH. intros y Hy. apply Hall. by right.
Qed.

(** The groups are non-empty and keep every row. *)
Lemma group_by_scanline_spec (pc : list Point) :
  Forall (λ g, g ≠ []) (group_by_scanline pc) ∧
  length (concat (group_by_scanline pc)) = length pc ∧
  (pc ≠ [] → group_by_scanline pc ≠ []).
Proof.
  unfold group_by_scanline. split_and!.
  - apply Forall_forall. intros g (s & -> & Hs)%list_elem_of_fmap.
    apply np_unique_elem, list_elem_of_fmap in Hs as (p & -> & Hp).
    intros Hnil. assert (p ∈ filter (λ q, scanline_id q = scanline_id p) pc) as Hin.
    { by apply list_elem_of_filter. }
    rewrite Hnil in Hin. by apply elem_of_nil in Hin.
  - rewrite groups_length by apply sorted_lt_NoDup, np_unique_sorted.
    f_equal. apply filter_all_length. intros p Hp.
    apply np_unique_elem, list_elem_of_fmap. eauto.
  - intros Hne Hnil. apply fmap_nil_inv in Hnil.
    destruct pc as [|p pc]; [done|].
    assert (scanline_id p ∈ np_unique (map scanline_id (p :: pc))) as Hin.
    { apply np_unique_elem. simpl. left. }
    rewrite Hnil in Hin. by apply elem_of_nil in Hin.
Qed.

(** ** The spatial index *)

Lemma nearest_from_bound q pts : ∀ i best,
  (best.2 < i)%nat → ((nearest_from i best q pts).2 < i + length pts)%nat.
Proof.
  induction pts as [|p pts IH]; intros i best Hb; simpl; [lia|].
  specialize (IH (S i)
    (if Qltb (sqnorm (vsub (xyz q) (xyz p))) best.1
     then (sqnorm (vsub (xyz q) (xyz p)), i) else best)).
  replace (i + S (length pts))%nat with (S i + length pts)%nat by lia.
  apply IH. destruct (Qltb _ _); simpl; lia.
Qed.

Lemma kd_query_spec points q :
  points ≠ [] → ∃ dn, kd_query points q = Ok dn ∧ (dn.2 < length points)%nat.
Proof.
  destruct points as [|p pts]; [done|]. intros _. simpl.
  eexists. split; [done|].
  pose proof (nearest_from_bound q pts 1
                (sqnorm (vsub (xyz q) (xyz p)), 0%nat)) as H.
  simpl in H. apply H. lia.
Qed.

Lemma mapM_kd_query points run :
  points ≠ [] →
  ∃ nn, mapM (kd_query points) run = Ok nn ∧
        Forall (λ dn, (dn.2 < length points)%nat) nn.
Proof.
  intros Hne. induction run as [|q run (nn & Hnn & Hall)]; simpl.
  - exists []. done.
  - destruct (kd_query_spec points q Hne) as (dn & -> & Hdn). simpl.
    rewrite Hnn. simpl. exists (dn :: nn). split; [done|]. by constructor.
Qed.

(** ** LabelPropagator *)

Lemma labelled_mono m m' pts : dom m ⊆ dom m' → labelled m pts → labelled m' pts.
Proof.
  intros Hd Hl p Hp. apply elem_of_dom, Hd, elem_of_dom. by apply Hl.
Qed.

Lemma label_inv_key_le m k a : label_inv m k → is_Some (m !! a) → 1 ≤ a ≤ k.
Proof. intros (_ & Hk & _) Ha. by apply Hk in Ha as [? _]. Qed.

Lemma collect_neighbor_labels_ok fuel m k points_above close_indices :
  label_inv m k → (Z.to_nat k ≤ fuel)%nat →
  labelled m points_above →
  Forall (λ i, (i < length points_above)%nat) close_indices →
  ∃ labels, collect_neighbor_labels fuel m points_above close_indices = Ok labels.
Proof.
  intros Hinv Hfuel Hlab Hidx. unfold collect_neighbor_labels.
  generalize (∅ : gset Z) as acc.
  induction Hidx as [|i idxs Hi _ IH]; intros acc; simpl; [eauto|].
  destruct (lookup_lt_is_Some_2 points_above i Hi) as [p Hp].
  unfold index. rewrite Hp. simpl.
  assert (is_Some (m !! predicted_label p)) as Hkey.
  { apply Hlab. by eapply list_elem_of_lookup_2. }
  destruct Hinv as (H0 & Hk & Hpb).
  destruct (parents_below_chain m _ Hpb Hkey) as [r Hch].
  destruct (chain_resolve_label m _ r Hpb Hch) as [Hle Hres].
  pose proof (chain_is_root _ _ _ Hch) as Hr. destruct (Hpb _ _ Hr) as [Hr1 _].
  apply Hk in Hkey as [Hkey _].
  rewrite Hres by lia. simpl. apply IH.
Qed.

Lemma label_cost_bounds k : 0 ≤ k → label_cost k ≤ k ≤ label_cost k + 1.
Proof. unfold label_cost. destruct (Z.leb_spec 9 k); lia. Qed.

Lemma label_cost_next k : 0 ≤ k → label_cost (next_label k) ≤ label_cost k + 1.
Proof.
  unfold label_cost, next_label.
  destruct (Z.eqb_spec (k + 1) 9), (Z.leb_spec 9 k), (Z.leb_spec 9 (k + 2)),
    (Z.leb_spec 9 (k + 1)); lia.
Qed.

(** An iteration of the loop of [update_labels] succeeds from a state that
    satisfies the invariant, given fuel for the labels in use. *)
Lemma process_run_ok fuel points_above mt done m c run k :
  label_inv m k → 1 ≤ c ≤ k + 1 → (Z.to_nat (k + 2) ≤ fuel)%nat →
  points_above ≠ [] → labelled m points_above →
  ∃ m' c' k' l,
    process_run fuel points_above mt (done, m, c) run
      = Ok (done ++ [set_labels l run], m', c') ∧
    is_Some (m' !! l) ∧ dom m ⊆ dom m' ∧
    label_inv m' k' ∧ 1 ≤ c' ≤ k' + 1 ∧
    label_cost k' ≤ label_cost k + 1.
Proof.
  intros Hinv Hc Hfuel Hne Hlab.
  destruct (mapM_kd_query points_above run Hne) as (nn & Hnn & Hall).
  set (close_indices := map snd (filter (λ dn, sqrt_lt dn.1 mt = true) nn)).
  assert (Hidx : Forall (λ i, (i < length points_above)%nat) close_indices).
  { apply Forall_fmap. apply Forall_forall. intros dn [_ Hdn]%list_elem_of_filter.
    by eapply Forall_forall in Hall. }
  destruct (collect_neighbor_labels_ok fuel m k points_above close_indices)
    as [labels Hlabels]; [done|lia|done..|].
  assert (∃ res, process_run fuel points_above mt (done, m, c) run = Ok res)
    as [[[done' m'] c'] Hres].
  { unfold process_run. rewrite Hnn. simpl. fold close_indices.
    rewrite Hlabels. simpl. destruct (decide (labels = ∅)) as [->|Hlne].
    - unfold assign_new_label.
      destruct Hinv as (H0 & Hk & _). pose proof (next_label_bounds k).
      rewrite (skip_used_spec m k fuel c); [|done|lia|lia]. simpl. eauto.
    - unfold inherit_and_unify_labels.
      destruct (py_min_is_Ok (elements labels)) as [mn ->].
      + by intros ?%elements_empty_inv%leibniz_equiv.
      + simpl. eauto. }
  pose proof (process_run_counter_inv _ _ _ _ _ _ _ _ _ _
                (ex_intro _ k (conj Hinv Hc)) Hres) as Hcnt.
  pose proof (process_run_dom _ _ _ _ _ _ _ _ _ _ Hres) as Hdom.
  destruct Hinv as (H0 & Hk & Hpb).
  pose proof Hres as
    [(l & Hl & -> & -> & ->)|(labs & mn & Hroots & Hin & Hmin & -> & -> & ->)]%process_run_inv.
  - pose proof (next_label_bounds k) as [Hb _].
    apply (skip_used_Ok_inv m k) in Hl as ->; [|done|lia].
    exists (<[next_label k := next_label k]> m), (next_label k + 1),
      (next_label k), (next_label k).
    split_and!; try done; try lia.
    + rewrite lookup_insert_eq. eauto.
    + by apply label_inv_insert_next.
    + by apply label_cost_next.
  - exists (point_all_to mn (elements labs) m), c, k, mn.
    split_and!; try done; try lia.
    + apply elem_of_dom, Hdom, elem_of_dom. rewrite (Hroots mn Hin). eauto.
    + apply label_inv_point_all_to; [done| | |].
      * intros s Hs. by apply Hroots, elem_of_elements.
      * by apply elem_of_elements.
      * intros s Hs. by apply Hmin, elem_of_elements.
Qed.

Lemma relabelled_mono m m' run run' :
  dom m ⊆ dom m' → relabelled m run run' → relabelled m' run run'.
Proof.
  intros Hd (l & -> & Hl). exists l. split; [done|].
  by apply elem_of_dom, Hd, elem_of_dom.
Qed.

Lemma update_loop_ok fuel points_above mt runs : ∀ done m c k n,
  label_inv m k → 1 ≤ c ≤ k + 1 → label_cost k ≤ n →
  (Z.to_nat (n + Z.of_nat (length runs) + 2) ≤ fuel)%nat →
  points_above ≠ [] → labelled m points_above →
  ∃ done' m' c' k',
    foldM (process_run fuel points_above mt) (done, m, c) runs
      = Ok (done ++ done', m', c') ∧
    label_inv m' k' ∧ 1 ≤ c' ≤ k' + 1 ∧
    label_cost k' ≤ n + Z.of_nat (length runs) ∧
    dom m ⊆ dom m' ∧ Forall2 (relabelled m') runs done'.
Proof.
  induction runs as [|run runs IH]; intros done m c k n Hinv Hc Hn Hfuel Hne Hlab.
  - exists [], m, c, k. simpl. rewrite app_nil_r.
    split_and!; try done; try lia.
  - simpl in Hfuel. pose proof Hinv as (H0 & _).
    pose proof (label_cost_bounds k H0).
    destruct (process_run_ok fuel points_above mt done m c run k)
      as (m1 & c1 & k1 & l & Hstep & Hl & Hd1 & Hinv1 & Hc1 & Hcost1);
      [done|done|lia|done|done|].
    destruct (IH (done ++ [set_labels l run]) m1 c1 k1 (n + 1))
      as (done' & m' & c' & k' & Hrest & Hinv' & Hc' & Hcost' & Hd' & Hall);
      [done|done|lia|lia|done|by eapply labelled_mono|].
    exists (set_labels l run :: done'), m', c', k'.
    cbn [foldM]. rewrite Hstep. cbn [mbind Result_bind]. rewrite Hrest.
    split_and!; try done; try lia.
    + by rewrite <- (assoc_L (++)).
    + rewrite length_cons. lia.
    + by etrans.
    + constructor; [|done]. exists l. split; [done|].
      by apply elem_of_dom, Hd', elem_of_dom.
Qed.

Lemma label_inv_nonempty m k : label_inv m k → 1 ≤ k → is_Some (m !! 1).
Proof. intros (_ & Hk & _) H1. apply Hk. lia. Qed.

(** [update_labels] succeeds on a mapping that satisfies the invariant and
    labelled rows above, given fuel for the labels in use. *)
Lemma update_labels_ok fuel runs_current runs_above m mt k n :
  label_inv m k → 1 ≤ k → label_cost k ≤ n →
  (Z.to_nat (n + Z.of_nat (length runs_current) + 2) ≤ fuel)%nat →
  concat runs_above ≠ [] → labelled m (concat runs_above) →
  ∃ runs' m' k',
    update_labels fuel runs_current runs_above m mt = Ok (runs', m') ∧
    label_inv m' k' ∧ 1 ≤ k' ∧
    label_cost k' ≤ n + Z.of_nat (length runs_current) ∧
    dom m ⊆ dom m' ∧ Forall2 (relabelled m') runs_current runs'.
Proof.
  intros Hinv Hk1 Hn Hfuel Hne Hlab.
  destruct (label_inv_nonempty m k Hinv Hk1) as [v1 Hv1].
  destruct (py_max_values_is_Ok m) as [mx Hmx].
  { intros ->. by rewrite lookup_empty in Hv1. }
  destruct (py_max_values m mx Hmx) as [j Hj].
  pose proof Hinv as (H0 & Hk & Hpb).
  destruct (Hpb _ _ Hj) as [Hmx1 _].
  assert (is_Some (m !! j)) as [Hjk _]%Hk by eauto.
  destruct (update_loop_ok fuel (concat runs_above) mt runs_current [] m (mx + 1) k n)
    as (done' & m' & c' & k' & Hloop & Hinv' & Hc' & Hcost' & Hd' & Hall);
    [done|lia|done..|].
  exists done', m', k'. unfold update_labels. rewrite Hmx. simpl.
  destruct runs_above as [|r ra]; [done|]. rewrite Hloop. simpl.
  split_and!; try done.
  assert (is_Some (m' !! 1)) as Hs.
  { apply elem_of_dom, Hd', elem_of_dom. eauto. }
  by apply (label_inv_key_le m' k' 1 Hinv') in Hs as [_ ?].
Qed.

Lemma relabelled_concat m (runs runs' : list (list Point)) :
  Forall2 (relabelled m) runs runs' →
  labelled m (concat runs') ∧
  length (concat runs') = length (concat runs) ∧
  length runs' = length runs.
Proof.
  induction 1 as [|run run' runs runs' (l & -> & Hl) _ (IH1 & IH2 & IH3)]; simpl.
  - split; [|done]. intros p Hp. by apply elem_of_nil in Hp.
  - split_and!.
    + intros p [Hp|Hp]%elem_of_app; [|by apply IH1].
      apply list_elem_of_fmap in Hp as (q & -> & _). done.
    + rewrite !length_app. unfold set_labels. rewrite length_map. lia.
    + lia.
Qed.

(** ** The first scanline and the loop over the others *)

Lemma label_first_scanline_spec runs :
  Forall2 (relabelled (label_first_scanline runs).1.2) runs
          (label_first_scanline runs).1.1 ∧
  label_cost (label_first_scanline runs).2 ≤ Z.of_nat (length runs) ∧
  (runs ≠ [] → 1 ≤ (label_first_scanline runs).2).
Proof.
  induction runs as [|run runs (IH1 & IH2 & IH3)] using rev_ind.
  - simpl. split_and!; [constructor|done|done].
  - pose proof (label_first_scanline_inv runs) as (H0 & _).
    rewrite label_first_scanline_snoc.
    destruct (label_first_scanline runs) as [[done m] lc].
    rewrite first_scanline_step_eq. simpl in *.
    pose proof (next_label_bounds lc) as [Hb _]. split_and!.
    + apply Forall2_app.
      * eapply Forall2_impl; [done|]. intros r r'. apply relabelled_mono.
        rewrite dom_insert_L. apply union_subseteq_r.
      * constructor; [|constructor]. eexists. split; [done|].
        rewrite lookup_insert_eq. eauto.
    + rewrite length_app. simpl. pose proof (label_cost_next lc H0). lia.
    + intros _. lia.
Qed.

Lemma runs_length_le (runs : list (list Point)) :
  Forall (λ r, r ≠ []) runs → (length runs ≤ length (concat runs))%nat.
Proof.
  induction 1 as [|r runs Hr _ IH]; simpl; [done|].
  rewrite length_app. destruct r; [done|]. simpl. lia.
Qed.

Lemma concat_take_S (gs : list (list Point)) i g :
  gs !! i = Some g →
  length (concat (take (S i) gs)) = (length (concat (take i gs)) + length g)%nat.
Proof.
  intros Hg. rewrite (take_S_r _ _ _ Hg), concat_app, length_app. simpl.
  by rewrite app_nil_r.
Qed.

Lemma concat_take_le (gs : list (list Point)) i :
  (length (concat (take i gs)) ≤ length (concat gs))%nat.
Proof.
  rewrite <- (take_drop i gs) at 2. rewrite concat_app, length_app. lia.
Qed.

Lemma propagate_step_ok fuel dt mt gs i st :
  (i < length gs)%nat → Forall (λ g, g ≠ []) gs →
  (length (concat gs) + 2 ≤ fuel)%nat →
  propagate_inv gs i st →
  ∃ st', propagate_step fuel dt mt st i = Ok st' ∧ propagate_inv gs (S i) st'.
Proof.
  intros Hi Hgs Hfuel
    (pre & k & Hsc & Hpre & Hlabpre & Hlenpre & Hne & Hlab & Hinv & Hk1 & Hcost & Hreach).
  destruct st as [[scanlines runs_above] m]. simpl in *. subst scanlines.
  destruct (lookup_lt_is_Some_2 gs i Hi) as [g Hg].
  assert (g ≠ []) as Hgne by (eapply Forall_forall in Hgs; [done|by eapply list_elem_of_lookup_2]).
  destruct (find_runs_perm g dt Hgne) as (rc & Hrc & Hrcne & Hrcall & Hperm).
  pose proof (runs_length_le rc Hrcall) as Hrl.
  pose proof (Permutation_length Hperm) as Hpl.
  pose proof (concat_take_S gs i g Hg) as HtS.
  pose proof (concat_take_le gs (S i)) as Htle.
  destruct (update_labels_ok fuel rc runs_above m mt k
              (Z.of_nat (length (concat (take i gs)))))
    as (rc' & m' & k' & Hup & Hinv' & Hk1' & Hcost' & Hd' & Hrel);
    [done|done|done|lia|done|done|].
  destruct (relabelled_concat m' rc rc' Hrel) as (Hlab' & Hlen' & _).
  destruct (update_labels_reach _ _ _ _ _ _ _ Hreach Hup) as [Hreach' _].
  exists (<[i := concat rc']> (pre ++ drop i gs), rc', m').
  split.
  - unfold propagate_step, index.
    rewrite lookup_app_r, Hpre, Nat.sub_diag, lookup_drop, Nat.add_0_r, Hg by lia.
    cbn [mbind Result_bind of_option]. rewrite Hrc.
    cbn [mbind Result_bind]. rewrite Hup. done.
  - exists (pre ++ [concat rc']), k'. simpl. split_and!; try done.
    + rewrite insert_app_r_alt, Hpre, Nat.sub_diag by lia.
      rewrite (drop_S _ _ _ Hg). simpl. by rewrite <- (assoc_L (++)).
    + rewrite length_app. simpl. lia.
    + rewrite concat_app. simpl. rewrite app_nil_r.
      intros p [Hp|Hp]%elem_of_app; [|by apply Hlab'].
      by apply (labelled_mono m m' (concat pre) Hd' Hlabpre).
    + rewrite concat_app, length_app. simpl. rewrite app_nil_r. lia.
    + intros Hnil. rewrite Hnil in Hlen'. simpl in Hlen'.
      destruct g; [done|]. simpl in Hpl. lia.
    + lia.
Qed.

Lemma propagate_loop_ok fuel dt mt gs len : ∀ i st,
  (i + len ≤ length gs)%nat → Forall (λ g, g ≠ []) gs →
  (length (concat gs) + 2 ≤ fuel)%nat →
  propagate_inv gs i st →
  ∃ st', foldM (propagate_step fuel dt mt) st (seq i len) = Ok st' ∧
         propagate_inv gs (i + len) st'.
Proof.
  induction len as [|len IH]; intros i st Hi Hgs Hfuel Hinv.
  - exists st. split; [done|]. by rewrite Nat.add_0_r.
  - destruct (propagate_step_ok fuel dt mt gs i st) as (st1 & Hst1 & Hinv1);
      [lia|done..|].
    destruct (IH (S i) st1) as (st' & Hst' & Hinv'); [lia|done..|].
    exists st'. cbn [seq foldM]. rewrite Hst1. cbn [mbind Result_bind].
    split; [done|]. by replace (i + S len)%nat with (S i + len)%nat by lia.
Qed.

Lemma propagate_labels_ok fuel ngp dt mt :
  ngp ≠ [] → (length ngp + 2 ≤ fuel)%nat →
  ∃ scanlines m,
    propagate_labels fuel ngp dt mt = Ok (scanlines, m) ∧
    scanlines ≠ [] ∧ labelled m (concat scanlines) ∧
    length (concat scanlines) = length ngp ∧ reachable m.
Proof.
  intros Hne Hfuel. unfold propagate_labels.
  destruct (group_by_scanline_spec ngp) as (Hgs & Hlen & Hgne).
  specialize (Hgne Hne).
  destruct (group_by_scanline ngp) as [|g0 rest] eqn:Egs; [done|].
  cbn [index lookup list_lookup of_option mbind Result_bind].
  assert (g0 ≠ []) as Hg0 by (by apply Forall_cons in Hgs as [? _]).
  destruct (find_runs_perm g0 dt Hg0) as (runs & -> & Hrne & Hrall & Hperm).
  cbn [mbind Result_bind].
  pose proof (label_first_scanline_spec runs) as (Hrel & Hcost & Hk1).
  pose proof (label_first_scanline_inv runs) as Hinv.
  pose proof (reach_first runs) as Hreach.
  destruct (label_first_scanline runs) as [[ra m] lc]. simpl in Hrel, Hcost, Hk1, Hinv, Hreach.
  destruct (relabelled_concat m runs ra Hrel) as (Hlab & Hlenra & _).
  pose proof (runs_length_le runs Hrall) as Hrl.
  pose proof (Permutation_length Hperm) as Hpl.
  destruct (propagate_loop_ok fuel dt mt (g0 :: rest) (length rest) 1
              (concat ra :: rest, ra, m)) as (st' & Hst' & Hinv').
  - simpl. lia.
  - done.
  - lia.
  - exists [concat ra], lc. simpl. rewrite !app_nil_r.
    split_and!; try done; try lia.
    + intros Hnil. rewrite Hnil in Hlenra. destruct g0; [done|]. simpl in *. lia.
    + by apply Hk1.
    + by exists None.
  - change (<[0%nat := concat ra]> (g0 :: rest)) with (concat ra :: rest).
    replace (length (concat ra :: rest) - 1)%nat with (length rest)
      by (simpl; lia).
    rewrite Hst'. cbn [mbind Result_bind].
    destruct Hinv' as (pre & k & Hsc & Hpre & Hlabpre & Hlenpre & _ & _ & _ & _ & _ & Hr).
    destruct st' as [[scanlines ra'] m']. simpl in *.
    rewrite drop_all in Hsc. rewrite app_nil_r in Hsc. subst scanlines.
    rewrite firstn_all in Hlenpre.
    exists pre, m'. split_and!; try done.
    + intros ->. simpl in Hpre. lia.
    + simpl in Hlenpre. lia.
Qed.

Lemma propagate_loop_reach fuel dt mt idxs : ∀ st st',
  foldM (propagate_step fuel dt mt) st idxs = Ok st' →
  reachable st.2 → reachable st'.2.
Proof.
  induction idxs as [|i idxs IH]; intros st st'; simpl.
  - by intros [= <-].
  - intros (st1 & Hstep & Hrest)%bind_Ok_inv Hreach.
    apply (IH st1 st' Hrest). clear Hrest IH.
    destruct st as [[scanlines runs_above] m]. unfold propagate_step in Hstep.
    apply bind_Ok_inv in Hstep as (s & _ & Hstep).
    apply bind_Ok_inv in Hstep as (rc & _ & Hstep).
    apply bind_Ok_inv in Hstep as ([rc' m'] & Hup & [= <-]).
    simpl in *. by destruct (update_labels_reach _ _ _ _ _ _ _ Hreach Hup).
Qed.

(** The mapping handed to [extract_clusters] is one of the reachable ones. *)
Lemma propagate_labels_reach fuel ngp dt mt scanlines m :
  propagate_labels fuel ngp dt mt = Ok (scanlines, m) → reachable m.
Proof.
  unfold propagate_labels.
  intros (s0 & _ & H)%bind_Ok_inv.
  apply bind_Ok_inv in H as (runs & _ & H).
  pose proof (reach_first runs) as Hreach.
  destruct (label_first_scanline runs) as [[ra m0] lc].
  apply bind_Ok_inv in H as (st & Hloop & [= <- <-]).
  apply (propagate_loop_reach _ _ _ _ _ _ Hloop). by exists None.
Qed.

(** ** ClusterFinalizer and the write-back *)

Lemma extract_clusters_ok scanlines m :
  scanlines ≠ [] → labelled m (concat scanlines) →
  ∃ cp, extract_clusters scanlines m = Ok cp ∧
        length cp = length (concat scanlines).
Proof.
  intros Hne Hlab. unfold extract_clusters.
  destruct scanlines as [|s ss]; [done|].
  revert Hlab. generalize (concat (s :: ss)). clear.
  intros pts. induction pts as [|p pts IH]; intros Hlab; simpl.
  - exists []. done.
  - destruct (Hlab p) as [l Hl]; [left|]. rewrite Hl. simpl.
    destruct IH as (cp & Hcp & Hlen).
    { intros q Hq. apply Hlab. by right. }
    rewrite Hcp. simpl. exists (set_label l p :: cp). simpl. by rewrite Hlen.
Qed.

Lemma nonzero_from_length mask : ∀ i, length (nonzero_from i mask) = mask_sum mask.
Proof.
  unfold mask_sum. induction mask as [|b mask IH]; intros i; simpl; [done|].
  rewrite filter_cons. destruct b; simpl; by rewrite IH.
Qed.

Lemma mask_select_length (f : Point → bool) (cloud : list Point) :
  length (mask_select (map f cloud) cloud) = mask_sum (map f cloud).
Proof.
  unfold mask_sum. induction cloud as [|p cloud IH]; simpl; [done|].
  rewrite filter_cons. destruct (f p); simpl; by rewrite IH.
Qed.

Lemma mask_sum_zero (cloud : list Point) :
  mask_sum (map (λ p, predicted_label p =? 0) cloud) = 0%nat ↔
  Forall (λ p, predicted_label p ≠ 0) cloud.
Proof.
  unfold mask_sum. induction cloud as [|p cloud IH]; simpl.
  - split; [constructor|done].
  - rewrite filter_cons. destruct (Z.eqb_spec (predicted_label p) 0) as [He|Hne].
    + simpl. split; [done|].
      intros [? _]%Forall_cons. done.
    + simpl. rewrite IH. rewrite Forall_cons. tauto.
Qed.

Lemma mask_sum_le (mask : list bool) : (mask_sum mask ≤ length mask)%nat.
Proof. unfold mask_sum. apply length_filter. Qed.

(** C2. [scan_line_run_clustering] raises exactly when no row of the cloud
    has [predicted_label == 0]; when it raises the cloud is as it was; and in
    the other case it returns (with fuel of the number of rows plus two the
    loops all finish). *)
Theorem slr_raises_iff_no_unlabelled (fuel : nat) (cloud : Cloud) (dt mt : Q) :
  (length cloud + 2 ≤ fuel)%nat →
  (is_Raise (scan_line_run_clustering fuel cloud dt mt).2 ↔
     Forall (λ p, predicted_label p ≠ 0) cloud) ∧
  (is_Raise (scan_line_run_clustering fuel cloud dt mt).2 →
     (scan_line_run_clustering fuel cloud dt mt).1 = cloud) ∧
  (¬ Forall (λ p, predicted_label p ≠ 0) cloud →
     (scan_line_run_clustering fuel cloud dt mt).2 = Ok ()).
Proof.
  intros Hfuel. unfold scan_line_run_clustering.
  set (mask := map (λ p, predicted_label p =? 0) cloud).
  pose proof (mask_sum_zero cloud) as Hzero. fold mask in Hzero.
  destruct (Nat.eqb_spec (mask_sum mask) 0) as [Hz|Hnz].
  - simpl. split_and!; [|done|].
    + split; [intros _; by apply Hzero|]. intros _. by eexists.
    + intros Hn. exfalso. by apply Hn, Hzero.
  - pose proof (mask_select_length (λ p, predicted_label p =? 0) cloud) as Hsel.
    fold mask in Hsel.
    pose proof (mask_sum_le mask) as Hle. unfold mask in Hle at 2.
    rewrite length_map in Hle.
    destruct (Nat.eqb_spec (length (mask_select mask cloud) * 6) 0) as [H6|_]; [lia|].
    destruct (propagate_labels_ok fuel (mask_select mask cloud) dt mt)
      as (scanlines & m & -> & Hsne & Hlab & Hlen & _).
    { intros Hnil. rewrite Hnil in Hsel. simpl in Hsel. lia. }
    { lia. }
    cbn [mbind Result_bind].
    destruct (extract_clusters_ok scanlines m Hsne Hlab) as (cp & -> & Hcp).
    cbn [mbind Result_bind]. unfold assign_column.
    rewrite decide_True.
    2:{ unfold nonzero. rewrite length_map, nonzero_from_length. lia. }
    simpl. split_and!; [|by intros [e ?]|done].
    split; [by intros [e ?]|]. intros Hall. exfalso. by apply Hnz, Hzero.
Qed.

Lemma slr_raises_iff_no_unlabelled_witness :
  (is_Raise (scan_line_run_clustering 12 example_cloud 3 6).2 ↔
     Forall (λ p, predicted_label p ≠ 0) example_cloud) ∧
  (is_Raise (scan_line_run_clustering 12 example_cloud 3 6).2 →
     (scan_line_run_clustering 12 example_cloud 3 6).1 = example_cloud) ∧
  (¬ Forall (λ p, predicted_label p ≠ 0) example_cloud →
     (scan_line_run_clustering 12 example_cloud 3 6).2 = Ok ()).
Proof. apply (slr_raises_iff_no_unlabelled 12 example_cloud 3 6). simpl. lia. Defined.

(** C1. On the three-scanline example the third row gets the provisional
    label 3; the unions leave the mapping 3 -> 2 -> 1, so the root of 3 is 1;
    [extract_clusters] looks the label up once and writes 2, and the final
    label 2 is not a root of the mapping. *)
Theorem extract_clusters_keeps_unresolved_label :
  ∃ scanlines m,
    propagate_labels 12 example_cloud 3 6 = Ok (scanlines, m) ∧
    map predicted_label (concat scanlines) = [1; 2; 3; 1; 2; 2; 1; 1; 1; 1] ∧
    m !! 3 = Some 2 ∧ m !! 2 = Some 1 ∧ m !! 1 = Some 1 ∧
    resolve_label 12 m 3 = Ok 1 ∧
    (scan_line_run_clustering 12 example_cloud 3 6).2 = Ok () ∧
    map predicted_label (scan_line_run_clustering 12 example_cloud 3 6).1
      = [1; 1; 2; 1; 1; 1; 1; 1; 1; 1].
Proof.
  eexists _, _. split; [vm_compute; reflexivity|].
  split_and!; vm_compute; reflexivity.
Qed.

(** The write-back pairs the labels, which are in scanline order, with the
    rows in cloud order: here the row at x = 100 of scanline 0 ends with the
    label of the row of scanline 1, and the row below that one with another. *)
Example write_back_in_scanline_order :
  ∃ scanlines m,
    propagate_labels 5 unordered_cloud 3 6 = Ok (scanlines, m) ∧
    map (λ p, (px p, scanline_id p, predicted_label p)) (concat scanlines)
      = [(0%Q, 0, 1); (100%Q, 0, 2); (0%Q, 1, 1)] ∧
    map (λ p, (px p, scanline_id p, predicted_label p))
        (scan_line_run_clustering 5 unordered_cloud 3 6).1
      = [(0%Q, 1, 1); (0%Q, 0, 2); (100%Q, 0, 1)].
Proof.
  eexists _, _. split; [vm_compute; reflexivity|].
  split; vm_compute; reflexivity.
Qed.

(** ** What the calls write *)

Lemma same_frame_refl p : same_frame p p.
Proof. by repeat split. Qed.

Lemma same_frame_set_label l p : same_frame p (set_label l p).
Proof. by repeat split. Qed.

Lemma same_frame_trans p q r : same_frame p q → same_frame q r → same_frame p r.
Proof.
  intros (? & ? & ? & ? & ?) (? & ? & ? & ? & ?). repeat split; congruence.
Qed.

Lemma frames_refl (c : Cloud) : Forall2 same_frame c c.
Proof. induction c; constructor; [apply same_frame_refl|done]. Qed.

Lemma frames_trans (c1 c2 c3 : Cloud) :
  Forall2 same_frame c1 c2 → Forall2 same_frame c2 c3 → Forall2 same_frame c1 c3.
Proof.
  intros H. revert c3. induction H as [|p q c1 c2 Hpq _ IH]; intros c3 H23.
  - by inversion H23.
  - inversion H23 as [|q' r c2' c3' Hqr H23']; subst.
    constructor; [by eapply same_frame_trans|by apply IH].
Qed.

Lemma alter_frames l (c : Cloud) : ∀ i, Forall2 same_frame c (alter (set_label l) i c).
Proof.
  induction c as [|p c IH]; intros i; [constructor|].
  destruct i as [|i]; simpl.
  - constructor; [apply same_frame_set_label|apply frames_refl].
  - constructor; [apply same_frame_refl|apply IH].
Qed.

Lemma assign_rows_frames idxs : ∀ labels (c : Cloud),
  Forall2 same_frame c (assign_rows c idxs labels).
Proof.
  induction idxs as [|i idxs IH]; intros labels c; simpl; [apply frames_refl|].
  destruct labels as [|l labels]; [apply frames_refl|].
  eapply frames_trans; [apply (alter_frames l c i)|apply IH].
Qed.

Lemma assign_rows_untouched idxs j : ∀ labels (c : Cloud),
  j ∉ idxs → assign_rows c idxs labels !! j = c !! j.
Proof.
  induction idxs as [|i idxs IH]; intros labels c Hj; simpl; [done|].
  destruct labels as [|l labels]; [done|].
  apply not_elem_of_cons in Hj as [Hne Hj].
  rewrite IH by done. by apply list_lookup_alter_ne.
Qed.

Lemma assign_scalar_frames idxs v : ∀ c : Cloud,
  Forall2 same_frame c (assign_scalar c idxs v).
Proof.
  unfold assign_scalar.
  induction idxs as [|i idxs IH]; intros c; simpl; [apply frames_refl|].
  eapply frames_trans; [apply (alter_frames v c i)|apply IH].
Qed.

Lemma nonzero_from_elem mask : ∀ i j,
  j ∈ nonzero_from i mask → ∃ n, j = (i + n)%nat ∧ mask !! n = Some true.
Proof.
  induction mask as [|b mask IH]; intros i j; simpl.
  - intros H. by apply elem_of_nil in H.
  - intros H. assert (j ∈ nonzero_from (S i) mask ∨ (b = true ∧ j = i)) as [Hin|[-> ->]].
    { destruct b; [|by left]. apply elem_of_cons in H as [->|?]; [by right|by left]. }
    + destruct (IH _ _ Hin) as (n & -> & Hn). exists (S n). split; [lia|done].
    + exists 0%nat. split; [lia|done].
Qed.

Lemma assign_rows_nil (c : Cloud) idxs : assign_rows c idxs [] = c.
Proof. by destruct idxs. Qed.

(** The array after [scan_line_run_clustering] is the input with labels
    written at the rows of [non_ground_indices], or the input itself. *)
Lemma scan_line_run_clustering_writes fuel cloud dt mt :
  ∃ labels,
    (scan_line_run_clustering fuel cloud dt mt).1 =
      assign_rows cloud (nonzero (map (λ p, predicted_label p =? 0) cloud)) labels.
Proof.
  unfold scan_line_run_clustering.
  set (mask := map (λ p, predicted_label p =? 0) cloud).
  assert (Hsame : ∃ labels, cloud = assign_rows cloud (nonzero mask) labels).
  { exists []. by rewrite assign_rows_nil. }
  destruct (mask_sum mask =? 0)%nat; [done|].
  destruct (length (mask_select mask cloud) * 6 =? 0)%nat; [done|].
  destruct (propagate_labels fuel (mask_select mask cloud) dt mt)
    as [[scanlines m]| |]; [|done..].
  cbn [mbind Result_bind].
  destruct (extract_clusters scanlines m) as [cp| |]; [|done..].
  cbn [mbind Result_bind]. unfold assign_column.
  case_decide; [by eexists|].
  destruct (map predicted_label cp) as [|l [|l' ls]]; [done|by eexists|done].
Qed.

(** C3. Over [refine_ground_plane] followed by [scan_line_run_clustering],
    however the calls end, the cloud keeps its length and every row keeps
    x, y, z, true_label and scanline_id; and [scan_line_run_clustering]
    leaves every row that enters it with a non-zero [predicted_label]
    (the ground rows, labelled 9, among them) as it is. *)
Theorem pipeline_writes_only_predicted_label
    (svd_last_row : Mat3 → Vec3) (fuel : nat) (cloud : Cloud)
    (num_points : Z) (height_threshold ground_threshold : Q) (num_iterations : Z)
    (distance_threshold merge_threshold : Q) :
  let ground :=
    (refine_ground_plane svd_last_row cloud num_points height_threshold
       ground_threshold num_iterations).1 in
  let clustered :=
    (scan_line_run_clustering fuel ground distance_threshold merge_threshold).1 in
  Forall2 same_frame cloud ground ∧
  Forall2 same_frame ground clustered ∧
  (∀ i p, ground !! i = Some p → predicted_label p ≠ 0 →
          clustered !! i = Some p).
Proof.
  intros ground clustered. split_and!.
  - subst ground. unfold refine_ground_plane.
    destruct (_ ≫= _) as [[seeds plane]| |]; simpl;
      [apply assign_scalar_frames|apply frames_refl..].
  - subst clustered.
    destruct (scan_line_run_clustering_writes fuel ground distance_threshold
                merge_threshold) as [labels ->].
    apply assign_rows_frames.
  - intros i p Hp Hne. subst clustered.
    destruct (scan_line_run_clustering_writes fuel ground distance_threshold
                merge_threshold) as [labels ->].
    clearbody ground.
    rewrite assign_rows_untouched; [done|].
    intros (n & Hn & Hmask)%nonzero_from_elem. simpl in Hn. subst n.
    change (((λ p : Point, predicted_label p =? 0) <$> ground) !! i = Some true)
      in Hmask.
    rewrite list_lookup_fmap, Hp in Hmask. simpl in Hmask.
    injection Hmask as Hz. apply Z.eqb_eq in Hz. done.
Qed.

(** ** SeedSelector *)

Lemma Qltb_lt a b : Qltb a b = true ↔ (a < b)%Q.
Proof.
  unfold Qltb. rewrite negb_true_iff. split.
  - intros H. apply Qnot_le_lt. intros Hle%Qle_bool_iff. congruence.
  - intros H. destruct (Qle_bool b a) eqn:E; [|done].
    apply Qle_bool_iff in E. by apply Qlt_not_le in H.
Qed.

Lemma insert_by_height_perm x l : insert_by_height x l ≡ₚ x :: l.
Proof.
  induction l as [|y l IH]; simpl; [done|].
  destruct (Qle_bool x.1 y.1); [done|]. rewrite IH. apply Permutation_swap.
Qed.

Lemma rows_by_height_perm pc :
  rows_by_height pc ≡ₚ imap (λ i z, (z, i)) (map height pc).
Proof.
  unfold rows_by_height. induction (imap _ _) as [|x l IH]; simpl; [done|].
  by rewrite insert_by_height_perm, IH.
Qed.

Lemma insert_by_height_sorted x l :
  StronglySorted height_le l → StronglySorted height_le (insert_by_height x l).
Proof.
  induction 1 as [|y l Hs IH Hall]; simpl; [repeat constructor|].
  destruct (Qle_bool x.1 y.1) eqn:E.
  - apply Qle_bool_iff in E. constructor; [by constructor|].
    constructor; [done|]. eapply Forall_impl; [done|].
    intros z Hz. unfold height_le in *. by eapply Qle_trans.
  - constructor; [done|].
    rewrite insert_by_height_perm. constructor; [|done].
    unfold height_le. apply Qlt_le_weak, Qltb_lt. unfold Qltb. by rewrite E.
Qed.

Lemma rows_by_height_sorted pc : StronglySorted height_le (rows_by_height pc).
Proof.
  unfold rows_by_height. induction (imap _ _) as [|x l IH]; simpl; [constructor|].
  by apply insert_by_height_sorted.
Qed.

Lemma sorted_split (l1 l2 : list (Q * nat)) a b :
  StronglySorted height_le (l1 ++ l2) → a ∈ l1 → b ∈ l2 → height_le a b.
Proof.
  induction l1 as [|x l1 IH]; simpl; intros Hs Ha Hb.
  - by apply elem_of_nil in Ha.
  - apply StronglySorted_inv in Hs as [Hs Hall].
    apply elem_of_cons in Ha as [->|Ha]; [|by apply IH].
    eapply Forall_forall in Hall; [done|]. apply elem_of_app. by right.
Qed.

Lemma rows_by_height_elem pc z i :
  (z, i) ∈ rows_by_height pc ↔ ∃ v, pc !! i = Some v ∧ height v = z.
Proof.
  rewrite rows_by_height_perm, elem_of_lookup_imap. split.
  - intros (j & y & [= -> ->] & Hy).
    change ((height <$> pc) !! j = Some y) in Hy.
    rewrite list_lookup_fmap in Hy.
    destruct (pc !! j) as [v|]; [|done]. injection Hy as <-. eauto.
  - intros (v & Hv & <-). exists i, (height v). split; [done|].
    change ((height <$> pc) !! i = Some (height v)).
    by rewrite list_lookup_fmap, Hv.
Qed.

Lemma rows_by_height_indices pc : NoDup (map snd (rows_by_height pc)).
Proof.
  change (NoDup (snd <$> rows_by_height pc)).
  rewrite rows_by_height_perm, fmap_imap.
  rewrite (imap_ext _ (λ j _, j)) by done.
  rewrite (imap_seq_0 _ (λ j, j)), list_fmap_id. apply NoDup_seq.
Qed.

Lemma rows_by_height_heights pc : map fst (rows_by_height pc) ≡ₚ map height pc.
Proof.
  change (fst <$> rows_by_height pc ≡ₚ map height pc).
  rewrite rows_by_height_perm, fmap_imap.
  rewrite (imap_ext _ (const id)) by done.
  by rewrite imap_const, list_fmap_id.
Qed.

(** Fancy indexing by the sorted rows gives the points in sorted order. *)
Lemma gather_rows (pc : list Vec3) (l : list (Q * nat)) :
  (∀ zi, zi ∈ l → ∃ v, pc !! zi.2 = Some v ∧ height v = zi.1) →
  ∃ sp, gather pc (map snd l) = Ok sp ∧ map height sp = map fst l ∧
        length sp = length l.
Proof.
  induction l as [|zi l IH]; intros Hall; simpl.
  - exists []. done.
  - destruct (Hall zi) as (v & Hv & Hz); [left|].
    destruct IH as (sp & Hsp & Hh & Hlen).
    { intros zi' Hzi'. apply Hall. by right. }
    unfold index. rewrite Hv. simpl. rewrite Hsp. simpl.
    exists (v :: sp). simpl. by rewrite Hz, Hh, Hlen.
Qed.

Lemma mask_select_rows (test : Q → bool) (l : list (Q * nat)) i :
  i ∈ mask_select (map test (map fst l)) (map snd l) ↔
  ∃ z, (z, i) ∈ l ∧ test z = true.
Proof.
  induction l as [|[z j] l IH]; simpl.
  - split; [by intros ?%elem_of_nil|]. by intros (z & ?%elem_of_nil & _).
  - destruct (test z) eqn:E.
    + rewrite elem_of_cons, IH. split.
      * intros [->|(z' & Hin & Ht)]; [exists z; split; [left|done]|].
        exists z'. split; [by right|done].
      * intros (z' & [[= -> ->]|Hin]%elem_of_cons & Ht); [by left|right; eauto].
    + rewrite IH. split.
      * intros (z' & Hin & Ht). exists z'. split; [by right|done].
      * intros (z' & [[= -> ->]|Hin]%elem_of_cons & Ht); [congruence|eauto].
Qed.

Lemma mask_select_NoDup (mask : list bool) : ∀ idxs : list nat,
  NoDup idxs → NoDup (mask_select mask idxs).
Proof.
  induction mask as [|b mask IH]; intros idxs Hnd; simpl; [constructor|].
  destruct idxs as [|i idxs]; [constructor|].
  apply NoDup_cons in Hnd as [Hi Hnd]. destruct b; [|by apply IH].
  constructor; [|by apply IH]. intros Hin. apply Hi. clear -Hin.
  revert idxs Hin. induction mask as [|b mask IHm]; intros idxs; simpl.
  - by intros ?%elem_of_nil.
  - destruct idxs as [|j idxs]; [by intros ?%elem_of_nil|].
    destruct b.
    + intros [->|Hin]%elem_of_cons; [left|right; by apply IHm].
    + intros Hin. right. by apply IHm.
Qed.

(** What [extract_initial_seed_indices] computes, in terms of the rows
    sorted by height. *)
Lemma extract_initial_seed_indices_eq pc :
  ∃ sp, gather pc (argsort (map height pc)) = Ok sp ∧
    map height sp = map fst (rows_by_height pc) ∧
    length sp = length pc ∧
    ∀ n h, extract_initial_seed_indices pc n h =
      Ok (mask_select
            (map (λ z, match np_mean (map height (py_prefix n sp)) with
                       | Some lpr => Qltb z (lpr + h)
                       | None => false
                       end) (map fst (rows_by_height pc)))
            (map snd (rows_by_height pc))).
Proof.
  destruct (gather_rows pc (rows_by_height pc)) as (sp & Hsp & Hh & Hlen).
  { intros [z i] Hzi. by apply rows_by_height_elem. }
  exists sp. split_and!; [done|done| |].
  - rewrite Hlen, (Permutation_length (rows_by_height_perm pc)).
    by rewrite length_imap, length_map.
  - intros n h. unfold extract_initial_seed_indices, argsort.
    fold (rows_by_height pc). rewrite Hsp. simpl.
    by rewrite <- Hh, map_map.
Qed.

Lemma take_min {A} (n : nat) (l : list A) : take n l = take (n `min` length l) l.
Proof.
  destruct (decide (n ≤ length l)%nat).
  - by rewrite Nat.min_l.
  - rewrite Nat.min_r by lia. by rewrite !take_ge by lia.
Qed.

(** C9. For [num_points >= 1], [extract_initial_seed_indices] returns, each
    once, exactly the rows whose height is below LPR + [height_threshold],
    LPR being the mean of the [min(num_points, N)] lowest heights; a
    [num_points] above the number of rows gives what the number of rows
    gives.  The function writes nothing: its result is the index list. *)
Theorem seed_indices_below_lpr (pc : list Vec3) (n : Z) (h : Q) :
  1 ≤ n →
  ∃ idxs lows rest,
    extract_initial_seed_indices pc n h = Ok idxs ∧ NoDup idxs ∧
    map height pc ≡ₚ lows ++ rest ∧
    length lows = (Z.to_nat n `min` length pc)%nat ∧
    (∀ a b, a ∈ lows → b ∈ rest → (a <= b)%Q) ∧
    (∀ i, i ∈ idxs ↔
          ∃ v lpr, pc !! i = Some v ∧ np_mean lows = Some lpr ∧
                   (height v < lpr + h)%Q) ∧
    (Z.of_nat (length pc) ≤ n →
     extract_initial_seed_indices pc n h =
       extract_initial_seed_indices pc (Z.of_nat (length pc)) h).
Proof.
  intros Hn.
  destruct (extract_initial_seed_indices_eq pc) as (sp & _ & Hh & Hlen & Heq).
  set (k := (Z.to_nat n `min` length pc)%nat).
  set (sorted := rows_by_height pc) in *.
  assert (Hlows : map height (py_prefix n sp) = take k (map fst sorted)).
  { unfold py_prefix. destruct (Z.leb_spec 0 n); [|lia].
    rewrite <- firstn_map, Hh, take_min. unfold k. do 2 f_equal.
    by rewrite <- Hh, length_map, Hlen. }
  exists (mask_select
            (map (λ z, match np_mean (take k (map fst sorted)) with
                       | Some lpr => Qltb z (lpr + h)
                       | None => false
                       end) (map fst sorted)) (map snd sorted)),
    (take k (map fst sorted)), (drop k (map fst sorted)).
  split_and!.
  - by rewrite Heq, Hlows.
  - apply mask_select_NoDup, rows_by_height_indices.
  - rewrite take_drop. symmetry. apply rows_by_height_heights.
  - rewrite length_take, <- Hh, length_map, Hlen. unfold k. lia.
  - intros a b Ha Hb.
    rewrite firstn_map in Ha. rewrite skipn_map in Hb.
    apply list_elem_of_fmap in Ha as (x & -> & Hx).
    apply list_elem_of_fmap in Hb as (y & -> & Hy).
    apply (sorted_split (take k sorted) (drop k sorted)); [|done..].
    rewrite take_drop. apply rows_by_height_sorted.
  - intros i. rewrite mask_select_rows. split.
    + intros (z & [v [Hv <-]]%rows_by_height_elem & Ht).
      destruct (np_mean _) as [lpr|]; [|done].
      exists v, lpr. by apply Qltb_lt in Ht.
    + intros (v & lpr & Hv & -> & Hlt). exists (height v). split.
      * apply rows_by_height_elem. eauto.
      * by apply Qltb_lt.
  - intros Hge. rewrite !Heq. do 4 f_equal.
    unfold py_prefix. destruct (Z.leb_spec 0 n); [|lia].
    destruct (Z.leb_spec 0 (Z.of_nat (length pc))); [|lia].
    rewrite !take_ge by lia. done.
Qed.

Lemma seed_indices_below_lpr_witness :
  ∃ idxs lows rest,
    extract_initial_seed_indices example_points 2 (1 # 2) = Ok idxs ∧ NoDup idxs ∧
    map height example_points ≡ₚ lows ++ rest ∧
    length lows = (Z.to_nat 2 `min` length example_points)%nat ∧
    (∀ a b, a ∈ lows → b ∈ rest → (a <= b)%Q) ∧
    (∀ i, i ∈ idxs ↔
          ∃ v lpr, example_points !! i = Some v ∧ np_mean lows = Some lpr ∧
                   (height v < lpr + (1 # 2))%Q) ∧
    (Z.of_nat (length example_points) ≤ 2 →
     extract_initial_seed_indices example_points 2 (1 # 2) =
       extract_initial_seed_indices example_points
         (Z.of_nat (length example_points)) (1 # 2)).
Proof. apply (seed_indices_below_lpr example_points 2 (1 # 2)). lia. Defined.

(** With heights 3, 1, 2 the two lowest have mean 3/2, and only the row at
    height 1 is below 3/2 + 1/2. *)
Example seed_indices_example :
  extract_initial_seed_indices example_points 2 (1 # 2) = Ok [1%nat].
Proof. reflexivity. Qed.

(** ** GroundRefiner *)

Lemma gather_in_range {A} (a : list A) (idxs : list nat) :
  Forall (λ i, (i < length a)%nat) idxs → ∃ g, gather a idxs = Ok g.
Proof.
  induction 1 as [|i idxs Hi _ [g Hg]]; simpl; [eauto|].
  destruct (lookup_lt_is_Some_2 a i Hi) as [x Hx].
  unfold index. rewrite Hx. simpl. rewrite Hg. simpl. eauto.
Qed.

Lemma nonzero_in_range (mask : list bool) :
  Forall (λ i, (i < length mask)%nat) (nonzero mask).
Proof.
  apply Forall_forall. intros i (n & -> & Hn)%nonzero_from_elem.
  apply lookup_lt_Some in Hn. simpl. lia.
Qed.

Lemma extract_initial_seed_indices_in_range pc n h :
  ∃ seeds, extract_initial_seed_indices pc n h = Ok seeds ∧
           Forall (λ i, (i < length pc)%nat) seeds.
Proof.
  destruct (extract_initial_seed_indices_eq pc) as (sp & _ & _ & _ & Heq).
  eexists. split; [apply Heq|].
  apply Forall_forall. intros i (z & Hz & _)%mask_select_rows.
  apply rows_by_height_elem in Hz as (v & Hv & _).
  by apply lookup_lt_Some in Hv.
Qed.

Lemma assign_scalar_mask v (g : Point → bool) (cloud : Cloud) : ∀ pre : Cloud,
  assign_scalar (pre ++ cloud) (nonzero_from (length pre) (map g cloud)) v =
    pre ++ map (λ p, if g p then set_label v p else p) cloud.
Proof.
  unfold assign_scalar. induction cloud as [|p cloud IH]; intros pre; [done|].
  specialize (IH (pre ++ [if g p then set_label v p else p])).
  rewrite length_app, Nat.add_1_r, <- !(assoc_L (++)) in IH. simpl in IH.
  cbn [map nonzero_from]. destruct (g p).
  - cbn [foldl]. rewrite <- (Nat.add_0_r (length pre)) at 1.
    rewrite alter_app_r. simpl. apply IH.
  - apply IH.
Qed.

Section GroundPlaneFittingProperties.

Variable svd_last_row : Mat3 → Vec3.

Lemma gather_length {A} (a : list A) (idxs : list nat) (g : list A) :
  gather a idxs = Ok g → length g = length idxs.
Proof.
  revert g. induction idxs as [|i idxs IH]; intros g; simpl.
  - intros [= <-]. done.
  - intros (x & _ & H)%bind_Ok_inv.
    apply bind_Ok_inv in H as (xs & Hxs & [= <-]). simpl. f_equal. eauto.
Qed.

Lemma cov_entry_Some (a b : list Q) :
  (2 ≤ length a)%nat → length b = length a → ∃ v, cov_entry a b = Some v.
Proof.
  intros Ha Hb. unfold cov_entry.
  destruct a as [|x a]; [simpl in Ha; lia|].
  destruct b as [|y b]; [simpl in Hb; lia|].
  cbn [np_mean mbind option_bind]. rewrite decide_False by lia. eauto.
Qed.

Lemma cov_entry_None (a b : list Q) :
  (length a ≤ 1)%nat → cov_entry a b = None.
Proof.
  intros Ha. unfold cov_entry. destruct a as [|x a]; [done|].
  destruct b as [|y b]; [done|].
  cbn [np_mean mbind option_bind]. by rewrite decide_True.
Qed.

(** A plane is fitted exactly to two points or more; fewer make the SVD
    raise. *)
Lemma estimate_ground_plane_Ok (pts : list Vec3) :
  (2 ≤ length pts)%nat → ∃ plane, estimate_ground_plane svd_last_row pts = Ok plane.
Proof.
  intros Hlen. unfold estimate_ground_plane.
  assert (∃ c, centroid_of pts = Some c) as [c ->].
  { unfold centroid_of. destruct pts as [|p pts]; [simpl in Hlen; lia|].
    cbn [map np_mean mbind option_bind]. eauto. }
  assert (∃ cm, np_cov (map (λ p, vsub p c) pts) = Some cm) as [cm ->].
  { unfold np_cov.
    repeat match goal with
    | |- context [cov_entry ?a ?b] =>
        destruct (cov_entry_Some a b) as [? ->];
          [rewrite !length_map; lia|by rewrite !length_map|];
          cbn [mbind option_bind]
    end. eauto. }
  eauto.
Qed.

Lemma estimate_ground_plane_raises (pts : list Vec3) :
  (length pts ≤ 1)%nat →
  estimate_ground_plane svd_last_row pts = Raise LinAlgError.
Proof.
  intros Hlen. unfold estimate_ground_plane.
  assert (np_cov match centroid_of pts with
                 | Some c => map (λ p, vsub p c) pts
                 | None => []
                 end = None) as ->; [|by destruct (centroid_of pts)].
  set (l := match centroid_of pts with Some c => _ | None => _ end).
  assert (length l ≤ 1)%nat as Hl.
  { subst l. destruct (centroid_of pts); rewrite ?length_map; simpl; lia. }
  unfold np_cov. rewrite !cov_entry_None by (by rewrite length_map). done.
Qed.


Lemma reseed_eq xyzs t seeds pts plane :
  gather xyzs seeds = Ok pts →
  estimate_ground_plane svd_last_row pts = Ok plane →
  reseed svd_last_row xyzs t seeds =
    nonzero (map (λ p, plane_dist_lt plane p t) xyzs).
Proof. intros H1 H2. unfold reseed. rewrite H1. simpl. by rewrite H2. Qed.

Lemma reseed_in_range xyzs t seeds :
  Forall (λ i, (i < length xyzs)%nat) seeds →
  Forall (λ i, (i < length xyzs)%nat) (reseed svd_last_row xyzs t seeds).
Proof.
  intros Hs. unfold reseed. destruct (_ ≫= _) as [plane| |]; [|done..].
  pose proof (nonzero_in_range (map (λ p, plane_dist_lt plane p t) xyzs)) as H.
  by rewrite length_map in H.
Qed.

Lemma seeds_after_in_range xyzs t seeds j :
  Forall (λ i, (i < length xyzs)%nat) seeds →
  Forall (λ i, (i < length xyzs)%nat) (seeds_after svd_last_row xyzs t seeds j).
Proof.
  intros H. unfold seeds_after.
  induction j as [|j IH]; [done|]. simpl. by apply reseed_in_range.
Qed.

(** The loop of [refine_ground_plane] over [len] iterations: it stops with
    [LinAlgError] at the first seed set of fewer than two rows, and
    otherwise runs its body [len] times, whatever the seeds are. *)
Lemma refine_loop_cases xyzs t seeds len : ∀ a,
  Forall (λ i, (i < length xyzs)%nat) seeds →
  (foldM (refine_step svd_last_row xyzs t) (seeds, None) (seq a len)
     = Raise LinAlgError ∧
   ∃ j, (j < len)%nat ∧
        (length (seeds_after svd_last_row xyzs t seeds j) < 2)%nat) ∨
  (∃ plane_opt,
     foldM (refine_step svd_last_row xyzs t) (seeds, None) (seq a len)
       = Ok (seeds_after svd_last_row xyzs t seeds len, plane_opt) ∧
     (∀ j, (j < len)%nat →
           (2 ≤ length (seeds_after svd_last_row xyzs t seeds j))%nat) ∧
     match len with
     | O => plane_opt = None
     | S l =>
         ∃ pts plane,
           gather xyzs (seeds_after svd_last_row xyzs t seeds l) = Ok pts ∧
           estimate_ground_plane svd_last_row pts = Ok plane ∧
           plane_opt = Some plane
     end).
Proof.
  intros a Hs. induction len as [|len IH].
  - right. exists None. split_and!; [done| |done]. intros j Hj. lia.
  - rewrite seq_S, foldM_app.
    destruct IH as [[Hraise (j & Hj & Hlen)]|(po & Hok & Hall & _)].
    + left. rewrite Hraise. split; [done|]. exists j. split; [lia|done].
    + rewrite Hok. cbn [mbind Result_bind foldM].
      destruct (gather_in_range xyzs (seeds_after svd_last_row xyzs t seeds len))
        as [pts Hpts]; [by apply seeds_after_in_range|].
      assert (refine_step svd_last_row xyzs t
                (seeds_after svd_last_row xyzs t seeds len, po) (a + len)
              = plane ← estimate_ground_plane svd_last_row pts;
                Ok (nonzero (map (λ p, plane_dist_lt plane p t) xyzs),
                    Some plane)) as ->.
      { unfold refine_step. cbn [fst]. by rewrite Hpts. }
      pose proof (gather_length _ _ _ Hpts) as Hlen.
      destruct (decide (2 ≤ length pts)%nat) as [Hge|Hlt].
      * destruct (estimate_ground_plane_Ok pts Hge) as [plane Hplane].
        right. exists (Some plane). rewrite Hplane. cbn [mbind Result_bind].
        split_and!.
        -- unfold seeds_after. rewrite Nat.iter_succ.
           fold (seeds_after svd_last_row xyzs t seeds len).
           by rewrite (reseed_eq _ _ _ _ _ Hpts Hplane).
        -- intros j Hj. destruct (decide (j = len)) as [->|]; [lia|].
           apply Hall. lia.
        -- eauto.
      * left. rewrite estimate_ground_plane_raises by lia.
        split; [done|]. exists len. split; lia.
Qed.

(** The two ways a call with at least one iteration can end. *)
Lemma refine_ground_plane_cases (cloud : Cloud)
    (num_points : Z) (height_threshold distance_threshold : Q)
    (num_iterations : Z) (seeds : list nat) :
  1 ≤ num_iterations →
  extract_initial_seed_indices (map xyz cloud) num_points height_threshold
    = Ok seeds →
  (refine_ground_plane svd_last_row cloud num_points height_threshold
       distance_threshold num_iterations = (cloud, Raise LinAlgError) ∧
   ∃ j, (j < Z.to_nat num_iterations)%nat ∧
        (length (seeds_after svd_last_row (map xyz cloud) distance_threshold
                   seeds j) < 2)%nat) ∨
  (∃ pts plane,
     (∀ j, (j < Z.to_nat num_iterations)%nat →
           (2 ≤ length (seeds_after svd_last_row (map xyz cloud)
                          distance_threshold seeds j))%nat) ∧
     gather (map xyz cloud)
       (seeds_after svd_last_row (map xyz cloud) distance_threshold seeds
          (Z.to_nat num_iterations - 1)) = Ok pts ∧
     estimate_ground_plane svd_last_row pts = Ok plane ∧
     refine_ground_plane svd_last_row cloud num_points height_threshold
         distance_threshold num_iterations
       = (mark_ground plane distance_threshold cloud, Ok plane)).
Proof.
  intros Hn Hseeds.
  assert (Hrange : Forall (λ i, (i < length (map xyz cloud))%nat) seeds).
  { destruct (extract_initial_seed_indices_in_range (map xyz cloud) num_points
                height_threshold) as (seeds' & Hseeds' & Hrange).
    congruence. }
  destruct (Z.to_nat num_iterations) as [|len] eqn:En; [lia|].
  unfold refine_ground_plane. rewrite Hseeds. cbn [mbind Result_bind].
  rewrite En.
  destruct (refine_loop_cases (map xyz cloud) distance_threshold seeds (S len)
              0%nat Hrange)
    as [[-> Hshort]|(po & -> & Hall & pts & plane & Hpts & Hplane & ->)].
  - left. done.
  - right. exists pts, plane. replace (S len - 1)%nat with len by lia.
    split_and!; [done..|]. cbn [of_option]. f_equal.
    unfold seeds_after. rewrite Nat.iter_succ.
    fold (seeds_after svd_last_row (map xyz cloud) distance_threshold seeds len).
    rewrite (reseed_eq _ _ _ _ _ Hpts Hplane), map_map.
    apply (assign_scalar_mask 9
             (λ p, plane_dist_lt plane (xyz p) distance_threshold) cloud []).
Qed.

Lemma mark_ground_zero_labels plane t (cloud : Cloud) :
  Forall (λ p, predicted_label p = 0) cloud →
  Forall2 (λ p p', same_frame p p' ∧
            (predicted_label p' = 9 ↔ plane_dist_lt plane (xyz p) t = true) ∧
            (predicted_label p' ≠ 9 → predicted_label p' = 0))
          cloud (mark_ground plane t cloud).
Proof.
  intros Hzero. unfold mark_ground.
  induction Hzero as [|p cloud' Hp _ IH]; cbn [map]; [constructor|].
  constructor; [|done].
  destruct (plane_dist_lt plane (xyz p) t) eqn:E.
  - split_and!; [apply same_frame_set_label|done|done].
  - split_and!; [apply same_frame_refl| |done].
    rewrite Hp. split; [lia|done].
Qed.

(** C7. [refine_ground_plane] with [num_iterations >= 1] runs the loop body
    once per iteration, with no convergence check.  It returns exactly when
    each of the [num_iterations] seed sets it fits a plane to has two rows
    or more; with a smaller one the SVD raises [LinAlgError] and the cloud
    is as it was.  On return the plane is the one fitted in the last
    iteration, to the seed set that [num_iterations - 1] re-seedings give,
    and the cloud is the input with the rows within [distance_threshold] of
    that plane labelled 9: on a cloud whose labels are all 0 the rows
    labelled 9 are exactly the rows within the threshold, and the others
    keep the label 0. *)
Theorem refine_ground_plane_marks_final_plane (cloud : Cloud)
    (num_points : Z) (height_threshold distance_threshold : Q)
    (num_iterations : Z) (seeds : list nat) :
  1 ≤ num_iterations →
  extract_initial_seed_indices (map xyz cloud) num_points height_threshold
    = Ok seeds →
  ((∀ j, (j < Z.to_nat num_iterations)%nat →
         (2 ≤ length (seeds_after svd_last_row (map xyz cloud)
                        distance_threshold seeds j))%nat) ↔
   ∃ cloud' plane,
     refine_ground_plane svd_last_row cloud num_points height_threshold
         distance_threshold num_iterations = (cloud', Ok plane)) ∧
  (∀ cloud' plane,
     refine_ground_plane svd_last_row cloud num_points height_threshold
         distance_threshold num_iterations = (cloud', Ok plane) →
     (∃ pts,
        gather (map xyz cloud)
          (seeds_after svd_last_row (map xyz cloud) distance_threshold seeds
             (Z.to_nat num_iterations - 1)) = Ok pts ∧
        estimate_ground_plane svd_last_row pts = Ok plane) ∧
     cloud' = mark_ground plane distance_threshold cloud ∧
     (Forall (λ p, predicted_label p = 0) cloud →
      Forall2 (λ p p', same_frame p p' ∧
                (predicted_label p' = 9 ↔
                   plane_dist_lt plane (xyz p) distance_threshold = true) ∧
                (predicted_label p' ≠ 9 → predicted_label p' = 0))
              cloud cloud')) ∧
  (∀ j, (j < Z.to_nat num_iterations)%nat →
        (length (seeds_after svd_last_row (map xyz cloud)
                   distance_threshold seeds j) < 2)%nat →
        refine_ground_plane svd_last_row cloud num_points height_threshold
            distance_threshold num_iterations = (cloud, Raise LinAlgError)).
Proof.
  intros Hn Hseeds.
  pose proof (refine_ground_plane_cases cloud num_points height_threshold
                distance_threshold num_iterations seeds Hn Hseeds) as Hcases.
  split_and!.
  - split.
    + intros Hall.
      destruct Hcases as [[_ (j & Hj & Hlen)]|(pts & plane & _ & _ & _ & Hres)].
      { specialize (Hall j Hj). lia. }
      eauto.
    + intros (cloud' & plane & Hret).
      destruct Hcases as [[Hraise _]|(pts & plane' & Hall & _)]; [|done].
      rewrite Hraise in Hret. done.
  - intros cloud' plane Hret.
    destruct Hcases as [[Hraise _]|(pts & plane' & _ & Hpts & Hplane & Hres)].
    { rewrite Hraise in Hret. done. }
    rewrite Hres in Hret. injection Hret as <- <-.
    split_and!; [eauto|done|]. apply mark_ground_zero_labels.
  - intros j Hj Hlen.
    destruct Hcases as [[Hraise _]|(pts & plane & Hall & _)]; [done|].
    specialize (Hall j Hj). lia.
Qed.

End GroundPlaneFittingProperties.

Lemma refine_ground_plane_marks_final_plane_witness :
  ∃ seeds,
    extract_initial_seed_indices (map xyz example_scene) 2 (1 # 2) = Ok seeds ∧
    ((∀ j, (j < Z.to_nat 2)%nat →
           (2 ≤ length (seeds_after vertical_normal (map xyz example_scene)
                          (1 # 5) seeds j))%nat) ↔
     ∃ cloud' plane,
       refine_ground_plane vertical_normal example_scene 2 (1 # 2) (1 # 5) 2
         = (cloud', Ok plane)) ∧
    (∀ cloud' plane,
       refine_ground_plane vertical_normal example_scene 2 (1 # 2) (1 # 5) 2
         = (cloud', Ok plane) →
       (∃ pts,
          gather (map xyz example_scene)
            (seeds_after vertical_normal (map xyz example_scene) (1 # 5) seeds
               (Z.to_nat 2 - 1)) = Ok pts ∧
          estimate_ground_plane vertical_normal pts = Ok plane) ∧
       cloud' = mark_ground plane (1 # 5) example_scene ∧
       (Forall (λ p, predicted_label p = 0) example_scene →
        Forall2 (λ p p', same_frame p p' ∧
                  (predicted_label p' = 9 ↔
                     plane_dist_lt plane (xyz p) (1 # 5) = true) ∧
                  (predicted_label p' ≠ 9 → predicted_label p' = 0))
                example_scene cloud')) ∧
    (∀ j, (j < Z.to_nat 2)%nat →
          (length (seeds_after vertical_normal (map xyz example_scene)
                     (1 # 5) seeds j) < 2)%nat →
          refine_ground_plane vertical_normal example_scene 2 (1 # 2) (1 # 5) 2
            = (example_scene, Raise LinAlgError)).
Proof.
  exists [0; 1; 2; 3]%nat. split; [vm_compute; reflexivity|].
  apply (refine_ground_plane_marks_final_plane vertical_normal example_scene
           2 (1 # 2) (1 # 5) 2 [0; 1; 2; 3]%nat).
  - lia.
  - vm_compute. reflexivity.
Defined.

(** The ground rows of the scene are found, and a single row makes the fit
    fail with the cloud as it was. *)
Example refine_ground_plane_scene :
  map predicted_label
    (refine_ground_plane vertical_normal example_scene 2 (1 # 2) (1 # 5) 2).1
    = [9; 9; 9; 9; 0; 0] ∧
  refine_ground_plane vertical_normal (take 1 example_scene) 2 (1 # 2) (1 # 5) 2
    = (take 1 example_scene, Raise LinAlgError).
Proof. split; vm_compute; reflexivity. Qed.

(** With no iteration the initial seeds are marked and the [return] fails on
    the unbound plane variables. *)
Example refine_ground_plane_zero_iterations :
  let out := refine_ground_plane vertical_normal example_cloud 2 (1 # 2) (1 # 5) 0 in
  map predicted_label out.1 = replicate 10 9 ∧ out.2 = Raise UnboundLocalError.
Proof. split; vm_compute; reflexivity. Qed.

(** * Further properties of the code *)

(** ** [group_by_scanline] *)

Lemma filter_split_perm (pc : list Point) (s : Z) (ids : list Z) :
  s ∉ ids →
  filter (λ p, scanline_id p ∈ s :: ids) pc ≡ₚ
    filter (λ p, scanline_id p = s) pc ++ filter (λ p, scanline_id p ∈ ids) pc.
Proof.
  intros Hs. induction pc as [|p pc IH]; [done|].
  rewrite !filter_cons.
  destruct (decide (scanline_id p = s)) as [He|Hne].
  - rewrite decide_True by (rewrite He; left).
    rewrite (decide_False (P := scanline_id p ∈ ids)) by (by rewrite He).
    simpl. by rewrite IH.
  - destruct (decide (scanline_id p ∈ ids)) as [Hin|Hnin].
    + rewrite decide_True by (by right). rewrite IH.
      apply Permutation_middle.
    + rewrite decide_False; [done|]. intros [?|?]%elem_of_cons; done.
Qed.

Lemma groups_perm (pc : list Point) (ids : list Z) :
  NoDup ids →
  concat (map (λ s_id, filter (λ p, scanline_id p = s_id) pc) ids) ≡ₚ
    filter (λ p, scanline_id p ∈ ids) pc.
Proof.
  induction 1 as [|s ids Hs _ IH]; simpl.
  - induction pc as [|p pc IHpc]; [done|]. rewrite filter_cons.
    rewrite decide_False; [done|]. apply not_elem_of_nil.
  - by rewrite IH, filter_split_perm.
Qed.

Lemma group_by_scanline_perm (pc : list Point) :
  concat (group_by_scanline pc) ≡ₚ pc.
Proof.
  unfold group_by_scanline.
  rewrite groups_perm by apply sorted_lt_NoDup, np_unique_sorted.
  rewrite filter_all_length; [done|]. intros p Hp.
  apply np_unique_elem, list_elem_of_fmap. eauto.
Qed.

(** X1. [group_by_scanline] cuts the cloud by scanline id: the ids of the
    groups are the ids that occur, in strictly ascending order; each group
    is non-empty and holds the rows of its id in cloud order; together the
    groups are a rearrangement of the cloud, so the empty cloud gives no
    group. *)
Theorem group_by_scanline_partition (pc : list Point) :
  ∃ ids,
    StronglySorted Z.lt ids ∧
    (∀ s, s ∈ ids ↔ ∃ p, p ∈ pc ∧ scanline_id p = s) ∧
    Forall2 (λ s g, g ≠ [] ∧ g = filter (λ p, scanline_id p = s) pc)
            ids (group_by_scanline pc) ∧
    concat (group_by_scanline pc) ≡ₚ pc ∧
    (group_by_scanline pc = [] ↔ pc = []).
Proof.
  exists (np_unique (map scanline_id pc)).
  assert (Hids : ∀ s, s ∈ np_unique (map scanline_id pc) ↔
                      ∃ p, p ∈ pc ∧ scanline_id p = s).
  { intros s. rewrite np_unique_elem. split.
    - intros (p & -> & Hp)%list_elem_of_fmap. eauto.
    - intros (p & Hp & <-). apply list_elem_of_fmap. eauto. }
  destruct (group_by_scanline_spec pc) as (Hne & _ & Hgne).
  split_and!.
  - apply np_unique_sorted.
  - done.
  - unfold group_by_scanline in Hne |- *. clear Hids Hgne.
    induction (np_unique (map scanline_id pc)) as [|s ids IH]; simpl; [constructor|].
    apply Forall_cons in Hne as [Hs Hne].
    constructor; [done|by apply IH].
  - apply group_by_scanline_perm.
  - split; [|by intros ->].
    intros Hnil. destruct pc as [|p pc]; [done|]. by destruct Hgne.
Qed.

(** ** [find_runs] *)

(** X2. [find_runs] raises (an [IndexError], from fancy indexing with row 0)
    exactly on the empty scanline. *)
Theorem find_runs_raises_iff_empty (pts : list Point) (t : Q) :
  (pts = [] → find_runs pts t = Raise IndexError) ∧
  (pts ≠ [] → ∃ runs, find_runs pts t = Ok runs) ∧
  (is_Raise (find_runs pts t) ↔ pts = []).
Proof.
  assert (H1 : pts = [] → find_runs pts t = Raise IndexError) by (by intros ->).
  assert (H2 : pts ≠ [] → ∃ runs, find_runs pts t = Ok runs).
  { intros Hne. destruct (find_runs_perm pts t Hne) as (runs & Hr & _). eauto. }
  split_and!; [done..|]. split.
  - intros [e He]. destruct pts as [|p pts]; [done|].
    destruct H2 as [runs Hr]; [done|]. congruence.
  - intros Hnil. exists IndexError. by apply H1.
Qed.

Lemma linked_singleton t p : linked t [p].
Proof. intros [|i] a b Ha Hb; simpl in *; done. Qed.

Lemma linked_app t (l f : list Point) a b :
  linked t l → linked t f → last l = Some a → head f = Some b →
  norm_lt b a t = true → linked t (l ++ f).
Proof.
  intros Hl Hf Ha Hb Hab i p q Hp Hq.
  destruct (decide (S i < length l)%nat) as [Hlt|Hge].
  - rewrite lookup_app_l in Hp, Hq by lia. by eapply Hl.
  - destruct (decide (i < length l)%nat) as [Hi|Hi].
    + rewrite lookup_app_l in Hp by lia. rewrite lookup_app_r in Hq by lia.
      rewrite last_lookup in Ha. rewrite head_lookup in Hb.
      replace (pred (length l)) with i in Ha by lia.
      replace (S i - length l)%nat with 0%nat in Hq by lia. congruence.
    + rewrite lookup_app_r in Hp, Hq by lia.
      replace (S i - length l)%nat with (S (i - length l)) in Hq by lia.
      by eapply Hf.
Qed.

Lemma separated_grow t (runs : list (list Point)) (g x : list Point) :
  g ≠ [] → separated t (runs ++ [g]) → separated t (runs ++ [g ++ x]).
Proof.
  intros Hg Hsep i r1 r2 a b H1 H2 Ha Hb.
  assert (S i < length (runs ++ [g ++ x]))%nat as Hlen by (by apply lookup_lt_Some in H2).
  rewrite length_app in Hlen. simpl in Hlen.
  rewrite lookup_app_l in H1 by lia.
  destruct (decide (S i < length runs)%nat) as [Hlt|Hge].
  - rewrite lookup_app_l in H2 by lia.
    apply (Hsep i r1 r2 a b); [by rewrite lookup_app_l by lia| |done..].
    by rewrite lookup_app_l by lia.
  - rewrite lookup_app_r in H2 by lia.
    replace (S i - length runs)%nat with 0%nat in H2 by lia.
    injection H2 as <-.
    apply (Hsep i r1 g a b); [by rewrite lookup_app_l by lia| |done|].
    + rewrite lookup_app_r by lia.
      by replace (S i - length runs)%nat with 0%nat by lia.
    + destruct g; [done|]. done.
Qed.

Lemma separated_snoc t (runs : list (list Point)) (g : list Point) p q :
  separated t (runs ++ [g]) → last g = Some q → norm_lt p q t = false →
  separated t ((runs ++ [g]) ++ [[p]]).
Proof.
  intros Hsep Hq Hpq i r1 r2 a b H1 H2 Ha Hb.
  assert (S i < length ((runs ++ [g]) ++ [[p]]))%nat as Hlen
    by (by apply lookup_lt_Some in H2).
  rewrite !length_app in Hlen. simpl in Hlen.
  rewrite lookup_app_l in H1 by (rewrite length_app; simpl; lia).
  destruct (decide (S i < length runs + 1)%nat) as [Hlt|Hge].
  - rewrite lookup_app_l in H2 by (rewrite length_app; simpl; lia).
    by apply (Hsep i r1 r2 a b).
  - rewrite lookup_app_r in H2 by (rewrite length_app; simpl; lia).
    rewrite length_app in H2. simpl in H2.
    replace (S i - (length runs + 1))%nat with 0%nat in H2 by lia.
    injection H2 as <-. injection Hb as <-.
    rewrite lookup_app_r in H1 by lia.
    replace (i - length runs)%nat with 0%nat in H1 by lia.
    injection H1 as <-. congruence.
Qed.

Lemma find_runs_step_linked pts t j st st' :
  (1 ≤ j < length pts)%nat → forward_inv_linked pts t j st →
  find_runs_step pts t st j = Ok st' → forward_inv_linked pts t (S j) st'.
Proof.
  intros [Hj1 Hj2] (g & Hg & Hne & Hlast & Hlinked & Hsep).
  destruct st as [runs cur]. simpl in *.
  destruct (lookup_lt_is_Some_2 pts j Hj2) as [p Hp].
  destruct (lookup_lt_is_Some_2 pts (j - 1)) as [q Hq]; [lia|].
  unfold find_runs_step, index. rewrite Hp, Hq. simpl.
  rewrite Hq in Hlast.
  apply Forall_app in Hlinked as [Hruns Hgl].
  rewrite Forall_singleton in Hgl.
  destruct (norm_lt p q t) eqn:Hpq.
  - intros [= <-]. exists (g ++ [p]). simpl. rewrite Nat.sub_0_r. split_and!.
    + apply gather_app; [done|]. by apply gather_singleton.
    + by destruct g.
    + by rewrite last_snoc.
    + apply Forall_app. split; [done|]. apply Forall_singleton.
      by apply (linked_app t g [p] q p); [|apply linked_singleton|..].
    + by apply separated_grow.
  - rewrite Hg. simpl. intros [= <-]. exists [p]. simpl. rewrite Nat.sub_0_r.
    split_and!.
    + unfold index. by rewrite Hp.
    + done.
    + done.
    + apply Forall_app. split; [|apply Forall_singleton, linked_singleton].
      apply Forall_app. split; [done|]. by apply Forall_singleton.
    + by apply (separated_snoc t runs g p q).
Qed.

Lemma find_runs_loop_linked pts t len : ∀ j st st',
  (1 ≤ j)%nat → (j + len ≤ length pts)%nat → forward_inv_linked pts t j st →
  foldM (find_runs_step pts t) st (seq j len) = Ok st' →
  forward_inv_linked pts t (j + len) st'.
Proof.
  induction len as [|len IH]; intros j st st' Hj Hlen Hinv; simpl.
  - intros [= <-]. by rewrite Nat.add_0_r.
  - intros (st1 & Hst1 & Hrest)%bind_Ok_inv.
    replace (j + S len)%nat with (S j + len)%nat by lia.
    apply (IH (S j) st1 st'); [lia|lia| |done].
    apply (find_runs_step_linked pts t j st); [lia|done|done].
Qed.

(** The runs of the forward pass are linked and separated. *)
Lemma forward_runs_linked pts t fwd :
  forward_runs pts t = Ok fwd → Forall (linked t) fwd ∧ separated t fwd.
Proof.
  unfold forward_runs. intros (st & Hloop & H)%bind_Ok_inv.
  apply bind_Ok_inv in H as (r & Hr & [= <-]).
  destruct pts as [|p0 pts].
  { simpl in Hloop. injection Hloop as <-. simpl in Hr. done. }
  assert (forward_inv_linked (p0 :: pts) t (1 + (length (p0 :: pts) - 1)) st)
    as (g & Hg & _ & _ & Hlinked & Hsep).
  { apply (find_runs_loop_linked _ t _ 1 ([], [0%nat])); [lia|simpl; lia| |done].
    exists [p0]. simpl. split_and!; try done.
    all: try (apply Forall_singleton, linked_singleton).
    all: intros [|i] r1 r2 a b H1 H2; simpl in *; done. }
  assert (r = g) as -> by congruence. done.
Qed.

Lemma concat_head_last (f l : list Point) (mid : list (list Point)) pts :
  f ≠ [] → l ≠ [] → concat (f :: mid ++ [l]) = pts →
  head f = head pts ∧ last l = last pts.
Proof.
  intros Hf Hl <-. simpl. rewrite concat_app. simpl. rewrite app_nil_r. split.
  - by destruct f.
  - rewrite !last_app. destruct (last l) eqn:E; [done|].
    by apply last_None in E.
Qed.

(** X3. On a non-empty scanline every run that [find_runs] returns is
    contiguous, each row within [distance_threshold] of the row before it in
    the run (across the joint of a circular merge too), and the runs are
    maximal: the first row of a run is never within the threshold of the
    last row of the run before it. *)
Theorem find_runs_contiguous_maximal (pts : list Point) (t : Q) :
  pts ≠ [] →
  ∃ runs, find_runs pts t = Ok runs ∧ Forall (linked t) runs ∧ separated t runs.
Proof.
  intros Hne.
  destruct (forward_runs_spec pts t Hne) as (fwd & Hfwd & Hcat & Hfne & Hall).
  destruct (forward_runs_linked pts t fwd Hfwd) as [Hlinked Hsep].
  destruct (nonempty_head_last pts Hne) as (p0 & pl & Hhd & Hlast).
  rewrite (find_runs_unfold pts t fwd p0 pl Hfwd Hhd Hlast).
  destruct (norm_lt p0 pl t) eqn:Hclose; simpl; [|by exists fwd].
  case_bool_decide as Hlen; [|by exists fwd].
  destruct (runs_first_last fwd Hlen) as (f & mid & l & ->).
  rewrite merge_last_into_first_snoc. eexists. split; [done|].
  apply Forall_cons in Hall as [Hf Hall].
  apply Forall_app in Hall as [_ Hl]. rewrite Forall_singleton in Hl.
  destruct (concat_head_last f l mid pts Hf Hl Hcat) as [Hhf Hll].
  apply Forall_cons in Hlinked as [Hlf Hlinked].
  apply Forall_app in Hlinked as [Hlmid Hll']. rewrite Forall_singleton in Hll'.
  split.
  - constructor; [|done].
    apply (linked_app t l f pl p0); [done|done|congruence|congruence|done].
  - intros i r1 r2 a b H1 H2 Ha Hb. simpl in H2.
    assert ((f :: mid ++ [l]) !! S i = Some r2) as H2'.
    { simpl. by apply lookup_app_l_Some. }
    destruct i as [|i]; simpl in H1.
    + injection H1 as <-.
      apply (Hsep 0%nat f r2 a b); [done|done| |done].
      rewrite last_app in Ha. destruct (last f) eqn:E; [done|].
      by apply last_None in E.
    + apply (Hsep (S i) r1 r2 a b); [|done..].
      simpl. by apply lookup_app_l_Some.
Qed.

Lemma find_runs_contiguous_maximal_witness :
  ∃ runs, find_runs example_scanline (1 # 2) = Ok runs ∧
          Forall (linked (1 # 2)) runs ∧ separated (1 # 2) runs.
Proof.
  apply (find_runs_contiguous_maximal example_scanline (1 # 2)). discriminate.
Defined.

Lemma norm_lt_nonpositive p q t : (t <= 0)%Q → norm_lt p q t = false.
Proof.
  intros Ht. unfold norm_lt, sqrt_lt.
  destruct (Qltb 0 t) eqn:E; [|done].
  apply Qltb_lt in E. by apply Qlt_not_le in E.
Qed.

Lemma singletons_concat (runs : list (list Point)) :
  Forall (λ r, ∃ p, r = [p]) runs → runs = map (λ p, [p]) (concat runs).
Proof.
  induction 1 as [|r runs [p ->] _ IH]; simpl; [done|]. by rewrite <- IH.
Qed.

(** X4. With a threshold that is not positive no two rows are ever within
    it: on a non-empty scanline [find_runs] returns one run per row, in
    scanline order, and never merges circularly. *)
Theorem find_runs_nonpositive_threshold (pts : list Point) (t : Q) :
  (t <= 0)%Q → pts ≠ [] → find_runs pts t = Ok (map (λ p, [p]) pts).
Proof.
  intros Ht Hne.
  destruct (forward_runs_spec pts t Hne) as (fwd & Hfwd & Hcat & _ & Hall).
  destruct (forward_runs_linked pts t fwd Hfwd) as [Hlinked _].
  destruct (nonempty_head_last pts Hne) as (p0 & pl & Hhd & Hlast).
  rewrite (find_runs_unfold pts t fwd p0 pl Hfwd Hhd Hlast).
  rewrite norm_lt_nonpositive by done. simpl. f_equal.
  rewrite <- Hcat. apply singletons_concat.
  apply Forall_forall. intros r Hr.
  eapply Forall_forall in Hall; [|done]. eapply Forall_forall in Hlinked; [|done].
  destruct r as [|p [|q r]]; [done|by exists p|].
  specialize (Hlinked 0%nat p q eq_refl eq_refl).
  by rewrite norm_lt_nonpositive in Hlinked.
Qed.

Lemma find_runs_nonpositive_threshold_witness :
  find_runs example_scanline 0 = Ok (map (λ p, [p]) example_scanline).
Proof.
  apply (find_runs_nonpositive_threshold example_scanline 0); [|discriminate].
  apply Qle_refl.
Defined.

(** ** The label-equivalence helpers, on any mapping *)

Lemma skip_used_post fuel m : ∀ c l,
  skip_used fuel m c = Ok l →
  c ≤ l ∧ l ≠ 9 ∧ m !! l = None ∧ ∀ j, c ≤ j < l → j = 9 ∨ is_Some (m !! j).
Proof.
  induction fuel as [|fuel IH]; intros c l; simpl; [done|].
  destruct (Z.eqb_spec c 9) as [->|Hc9]; simpl.
  - intros (H1 & H2 & H3 & H4)%IH. split_and!; [lia|done..|].
    intros j Hj. destruct (decide (j = 9)); [by left|]. apply H4. lia.
  - case_bool_decide as Hkey.
    + intros (H1 & H2 & H3 & H4)%IH. split_and!; [lia|done..|].
      intros j Hj. destruct (decide (j = c)) as [->|]; [by right|]. apply H4. lia.
    + intros [= <-]. split_and!; [lia|done| |intros j; lia].
      by apply eq_None_not_Some.
Qed.

(** X5. Whatever the mapping and the counter, when [assign_new_label]
    returns it has taken the first label from the counter on that is neither
    9 nor a key: it labels the run with it, maps it to itself, changes no
    other key and returns the label plus one. *)
Theorem assign_new_label_takes_first_free (fuel : nat) (run : list Point)
    (m : gmap Z Z) (c : Z) (run' : list Point) (m' : gmap Z Z) (c' : Z) :
  assign_new_label fuel run m c = Ok (run', m', c') →
  ∃ l, c' = l + 1 ∧ c ≤ l ∧ l ≠ 9 ∧ m !! l = None ∧
       (∀ j, c ≤ j < l → j = 9 ∨ is_Some (m !! j)) ∧
       run' = set_labels l run ∧ m' !! l = Some l ∧
       (∀ k, k ≠ l → m' !! k = m !! k).
Proof.
  unfold assign_new_label. intros (l & Hl & [= <- <- <-])%bind_Ok_inv.
  destruct (skip_used_post fuel m c l Hl) as (H1 & H2 & H3 & H4).
  exists l. split_and!; try done.
  - apply lookup_insert_eq.
  - intros k Hk. by apply lookup_insert_ne.
Qed.

Lemma assign_new_label_takes_first_free_witness :
  ∃ l, 4 = l + 1 ∧ 1 ≤ l ∧ l ≠ 9 ∧ example_mapping !! l = None ∧
       (∀ j, 1 ≤ j < l → j = 9 ∨ is_Some (example_mapping !! j)) ∧
       set_labels 3 example_scanline = set_labels l example_scanline ∧
       (<[3 := 3]> example_mapping) !! l = Some l ∧
       (∀ k, k ≠ l → (<[3 := 3]> example_mapping) !! k = example_mapping !! k).
Proof.
  apply (assign_new_label_takes_first_free 5 example_scanline example_mapping 1).
  vm_compute. reflexivity.
Defined.

Lemma resolve_label_more_fuel fuel m : ∀ a r fuel',
  resolve_label fuel m a = Ok r → (fuel ≤ fuel')%nat →
  resolve_label fuel' m a = Ok r.
Proof.
  induction fuel as [|fuel IH]; intros a r fuel'; simpl; [done|].
  intros H Hle. destruct fuel' as [|fuel']; [lia|]. simpl.
  destruct (m !! a) as [b|]; [|done].
  destruct (a =? b); [done|]. apply IH; [done|lia].
Qed.

Lemma resolve_label_raises fuel m : ∀ a e,
  resolve_label fuel m a = Raise e → e = KeyError.
Proof.
  induction fuel as [|fuel IH]; intros a e; simpl; [done|].
  destruct (m !! a) as [b|]; [|congruence].
  destruct (a =? b); [done|]. apply IH.
Qed.

(** X6. On any mapping, [resolve_label] can only return a root, reached by
    following the mapping from the label, and more loop iterations allowed
    do not change what it returns; the only exception it raises is
    [KeyError], which it raises at once for a label that is not a key. *)
Theorem resolve_label_returns_root (fuel : nat) (m : gmap Z Z) (a : Z) :
  (∀ r, resolve_label fuel m a = Ok r →
        m !! r = Some r ∧ chain m a r ∧
        ∀ fuel', (fuel ≤ fuel')%nat → resolve_label fuel' m a = Ok r) ∧
  (∀ e, resolve_label fuel m a = Raise e → e = KeyError) ∧
  (m !! a = None → resolve_label (S fuel) m a = Raise KeyError).
Proof.
  split_and!.
  - intros r Hr. pose proof (resolve_label_chain _ _ _ _ Hr) as Hch.
    split_and!; [by eapply chain_is_root|done|].
    intros fuel' Hle. by eapply resolve_label_more_fuel.
  - apply resolve_label_raises.
  - intros Ha. simpl. by rewrite Ha.
Qed.

(** ** [update_labels], from any state *)

Lemma dom_point_all_to_keys mn (labels : list Z) (m : gmap Z Z) :
  (∀ s, s ∈ labels → is_Some (m !! s)) →
  dom (point_all_to mn labels m) = dom m.
Proof.
  intros Hkeys. apply set_eq. intros j. rewrite !elem_of_dom.
  rewrite point_all_to_lookup. case_decide as Hj; [|done].
  split; [intros _; by apply Hkeys|eauto].
Qed.

(** An iteration adds at most one key, and the label it writes is a key. *)
Lemma process_run_step fuel points_above mt done m c run done' m' c' :
  process_run fuel points_above mt (done, m, c) run = Ok (done', m', c') →
  ∃ l, done' = done ++ [set_labels l run] ∧ is_Some (m' !! l) ∧
       dom m ⊆ dom m' ∧ (size m' ≤ size m + 1)%nat.
Proof.
  intros Hrun. pose proof (process_run_dom _ _ _ _ _ _ _ _ _ _ Hrun) as Hdom.
  apply process_run_inv in Hrun
    as [(l & Hl & -> & -> & ->)|(labels & mn & Hroots & Hin & Hmin & -> & -> & ->)].
  - destruct (skip_used_post fuel m c l Hl) as (_ & _ & Hnone & _).
    exists l. split_and!; [done| |done|].
    + rewrite lookup_insert_eq. eauto.
    + rewrite map_size_insert_None by done. lia.
  - exists mn. split_and!; [done| |done|].
    + rewrite point_all_to_lookup, decide_True; [eauto|].
      by apply elem_of_elements.
    + rewrite <- !size_dom, dom_point_all_to_keys; [lia|].
      intros s Hs%elem_of_elements. rewrite (Hroots s Hs). eauto.
Qed.

Lemma update_loop_relabels fuel points_above mt runs : ∀ done m c done' m' c',
  foldM (process_run fuel points_above mt) (done, m, c) runs = Ok (done', m', c') →
  ∃ new, done' = done ++ new ∧ Forall2 (relabelled m') runs new ∧
         dom m ⊆ dom m' ∧ (size m' ≤ size m + length runs)%nat.
Proof.
  induction runs as [|run runs IH]; intros done m c done' m' c'; simpl.
  - intros [= <- <- <-]. exists []. rewrite app_nil_r.
    split_and!; [done|constructor|done|lia].
  - intros ([[done1 m1] c1] & Hstep & Hrest)%bind_Ok_inv.
    apply process_run_step in Hstep as (l & -> & Hl & Hd1 & Hs1).
    apply IH in Hrest as (new & -> & Hall & Hd & Hs).
    exists (set_labels l run :: new). split_and!.
    + by rewrite <- (assoc_L (++)).
    + constructor; [|done]. exists l. split; [done|].
      by apply elem_of_dom, Hd, elem_of_dom.
    + by etrans.
    + lia.
Qed.

(** X7. Whenever [update_labels] returns, each current run has come back
    with one label written on all its rows and nothing else changed, that
    label is a key of the new mapping, no key of the mapping was lost, and
    the mapping has grown by at most one key per run. *)
Theorem update_labels_relabels_runs (fuel : nat)
    (runs_current runs_above : list (list Point)) (m : gmap Z Z) (mt : Q)
    (runs' : list (list Point)) (m' : gmap Z Z) :
  update_labels fuel runs_current runs_above m mt = Ok (runs', m') →
  Forall2 (relabelled m') runs_current runs' ∧
  dom m ⊆ dom m' ∧
  (size m' ≤ size m + length runs_current)%nat.
Proof.
  intros (mx & c' & _ & _ & Hloop)%update_labels_inv.
  apply update_loop_relabels in Hloop as (new & Hnew & Hall & Hd & Hs).
  simpl in Hnew. by subst new.
Qed.

Lemma update_labels_relabels_runs_witness :
  Forall2 (relabelled (<[3 := 3]> example_mapping))
          [example_scanline] [set_labels 3 example_scanline] ∧
  dom example_mapping ⊆ dom (<[3 := 3]> example_mapping) ∧
  (size (<[3%Z := 3%Z]> example_mapping)
     ≤ size example_mapping + length [example_scanline])%nat.
Proof.
  apply (update_labels_relabels_runs 5 [example_scanline]
           [[mkPoint 100 100 100 0 1 0]] example_mapping 1).
  vm_compute. reflexivity.
Defined.

Lemma py_max_raises (l : list Z) e : py_max l = Raise e → e = ValueError.
Proof. destruct l; simpl; congruence. Qed.

(** X8. [update_labels] raises [ValueError] on an empty mapping (the
    [max] of no values) and on an empty list of runs above (nothing to
    stack), whatever the other arguments. *)
Theorem update_labels_raises_on_empty (fuel : nat)
    (runs_current runs_above : list (list Point)) (m : gmap Z Z) (mt : Q) :
  update_labels fuel runs_current runs_above ∅ mt = Raise ValueError ∧
  update_labels fuel runs_current [] m mt = Raise ValueError.
Proof.
  split.
  - unfold update_labels. by rewrite map_to_list_empty.
  - unfold update_labels.
    destruct (py_max (map snd (map_to_list m))) as [mx|e|] eqn:E; simpl.
    + done.
    + by rewrite (py_max_raises _ _ E).
    + by destruct (map_to_list m).
Qed.

Lemma sqrt_lt_nonpositive s t : (t <= 0)%Q → sqrt_lt s t = false.
Proof.
  intros Ht. unfold sqrt_lt. destruct (Qltb 0 t) eqn:E; [|done].
  apply Qltb_lt in E. by apply Qlt_not_le in E.
Qed.

Lemma filter_close_nonpositive (mt : Q) (nn : list (Q * nat)) :
  (mt <= 0)%Q → filter (λ dn : Q * nat, sqrt_lt dn.1 mt = true) nn = [].
Proof.
  intros Hmt. induction nn as [|dn nn IH]; [done|].
  rewrite filter_cons, IH, sqrt_lt_nonpositive by done.
  by rewrite decide_False.
Qed.

Lemma process_run_nonpositive fuel points_above mt done m c run done' m' c' :
  (mt <= 0)%Q →
  process_run fuel points_above mt (done, m, c) run = Ok (done', m', c') →
  ∃ l, skip_used fuel m c = Ok l ∧ done' = done ++ [set_labels l run] ∧
       m' = <[l := l]> m ∧ c' = l + 1.
Proof.
  intros Hmt. unfold process_run.
  intros (nn & _ & H)%bind_Ok_inv.
  rewrite filter_close_nonpositive in H by done. simpl in H.
  rewrite decide_True in H by done.
  apply bind_Ok_inv in H as ([[run' m1] c1] & Hnew & [= <- <- <-]).
  unfold assign_new_label in Hnew.
  apply bind_Ok_inv in Hnew as (l & Hl & [= <- <- <-]). eauto.
Qed.

Lemma update_loop_nonpositive fuel points_above mt runs : ∀ done m c done' m' c',
  (mt <= 0)%Q →
  foldM (process_run fuel points_above mt) (done, m, c) runs = Ok (done', m', c') →
  (∀ k v, m !! k = Some v → m' !! k = Some v) ∧
  (∀ k, m !! k = None → is_Some (m' !! k) → m' !! k = Some k) ∧
  size m' = (size m + length runs)%nat.
Proof.
  induction runs as [|run runs IH]; intros done m c done' m' c' Hmt; simpl.
  - intros [= <- <- <-]. split_and!; [done| |lia].
    intros k Hk [v Hv]. congruence.
  - intros ([[done1 m1] c1] & Hstep & Hrest)%bind_Ok_inv.
    apply process_run_nonpositive in Hstep as (l & Hl & -> & -> & ->); [|done].
    destruct (skip_used_post fuel m c l Hl) as (_ & _ & Hnone & _).
    apply IH in Hrest as (H1 & H2 & H3); [|done]. split_and!.
    + intros k v Hkv. apply H1. rewrite lookup_insert_ne; [done|congruence].
    + intros k Hk Hs. destruct (decide (l = k)) as [->|Hne].
      * apply H1, lookup_insert_eq.
      * apply H2; [|done]. by rewrite lookup_insert_ne.
    + rewrite H3, map_size_insert_None by done. lia.
Qed.

(** X9. With a merge threshold that is not positive [update_labels] never
    merges: when it returns, every key has kept its value, every new key is
    mapped to itself, and there is exactly one new key per current run. *)
Theorem update_labels_nonpositive_threshold (fuel : nat)
    (runs_current runs_above : list (list Point)) (m : gmap Z Z) (mt : Q)
    (runs' : list (list Point)) (m' : gmap Z Z) :
  (mt <= 0)%Q →
  update_labels fuel runs_current runs_above m mt = Ok (runs', m') →
  (∀ k v, m !! k = Some v → m' !! k = Some v) ∧
  (∀ k, m !! k = None → is_Some (m' !! k) → m' !! k = Some k) ∧
  size m' = (size m + length runs_current)%nat.
Proof.
  intros Hmt (mx & c' & _ & _ & Hloop)%update_labels_inv.
  by apply update_loop_nonpositive in Hloop.
Qed.

Lemma update_labels_nonpositive_threshold_witness :
  (∀ k v, example_mapping !! k = Some v →
          (<[3 := 3]> example_mapping) !! k = Some v) ∧
  (∀ k, example_mapping !! k = None →
        is_Some ((<[3 := 3]> example_mapping) !! k) →
        (<[3 := 3]> example_mapping) !! k = Some k) ∧
  size (<[3 := 3]> example_mapping)
    = (size example_mapping + length [example_scanline])%nat.
Proof.
  apply (update_labels_nonpositive_threshold 5 [example_scanline]
           [[mkPoint 0 0 0 0 1 0]] example_mapping 0
           [set_labels 3 example_scanline]).
  - apply Qle_refl.
  - vm_compute. reflexivity.
Defined.

(** ** [extract_clusters] *)

Lemma relabel_rows_ok m (pts : list Point) :
  labelled m pts →
  ∃ cp, mapM (λ p, l ← of_option KeyError (m !! predicted_label p);
                   Ok (set_label l p)) pts = Ok cp ∧
        Forall2 (λ p p', same_frame p p' ∧
                   m !! predicted_label p = Some (predicted_label p')) pts cp.
Proof.
  induction pts as [|p pts IH]; intros Hlab; simpl.
  - exists []. split; [done|constructor].
  - destruct (Hlab p) as [l Hl]; [left|]. rewrite Hl. simpl.
    destruct IH as (cp & -> & Hall).
    { intros q Hq. apply Hlab. by right. }
    simpl. exists (set_label l p :: cp). split; [done|].
    constructor; [|done]. split; [apply same_frame_set_label|done].
Qed.

Lemma relabel_rows_missing m (pts : list Point) :
  ¬ labelled m pts →
  mapM (λ p, l ← of_option KeyError (m !! predicted_label p);
             Ok (set_label l p)) pts = Raise KeyError.
Proof.
  induction pts as [|p pts IH]; intros Hlab; simpl.
  - exfalso. apply Hlab. intros q Hq. by apply elem_of_nil in Hq.
  - destruct (m !! predicted_label p) as [l|] eqn:Hl; [|done]. simpl.
    rewrite IH; [done|]. intros Hrest. apply Hlab.
    intros q [->|Hq]%elem_of_cons; [eauto|by apply Hrest].
Qed.

Lemma extract_clusters_Ok scanlines m cp :
  extract_clusters scanlines m = Ok cp →
  Forall2 (λ p p', same_frame p p' ∧
             m !! predicted_label p = Some (predicted_label p'))
          (concat scanlines) cp.
Proof.
  unfold extract_clusters. destruct scanlines as [|s ss]; [done|].
  generalize (concat (s :: ss)). clear. intros pts. revert cp.
  induction pts as [|p pts IH]; intros cp; simpl.
  - intros [= <-]. constructor.
  - intros (p' & Hp' & H)%bind_Ok_inv.
    apply bind_Ok_inv in H as (cp' & Hcp' & [= <-]).
    apply bind_Ok_inv in Hp' as (l & Hl & [= <-]).
    constructor; [|by apply IH].
    split; [apply same_frame_set_label|].
    simpl. by destruct (m !! predicted_label p) as [l'|]; simplify_eq/=.
Qed.

(** X10. [extract_clusters] raises [ValueError] on an empty list of
    scanlines and [KeyError] when the label of some row is not a key of the
    mapping; otherwise it returns the rows in order, each with its label
    replaced by the value the mapping holds for it and nothing else
    changed. *)
Theorem extract_clusters_behaviour (scanlines : list (list Point)) (m : gmap Z Z) :
  (scanlines = [] → extract_clusters scanlines m = Raise ValueError) ∧
  (scanlines ≠ [] → ¬ labelled m (concat scanlines) →
   extract_clusters scanlines m = Raise KeyError) ∧
  (scanlines ≠ [] → labelled m (concat scanlines) →
   ∃ cp, extract_clusters scanlines m = Ok cp ∧
         Forall2 (λ p p', same_frame p p' ∧
                    m !! predicted_label p = Some (predicted_label p'))
                 (concat scanlines) cp).
Proof.
  split_and!.
  - by intros ->.
  - intros Hne Hlab. unfold extract_clusters.
    destruct scanlines as [|s ss]; [done|]. by apply relabel_rows_missing.
  - intros Hne Hlab. unfold extract_clusters.
    destruct scanlines as [|s ss]; [done|]. by apply relabel_rows_ok.
Qed.

Lemma parent_same_class m l v :
  parents_below m → m !! l = Some v → same_class m l v.
Proof.
  intros Hpb Hl. destruct (Hpb _ _ Hl) as [_ Hv].
  destruct (parents_below_chain m v Hpb Hv) as [r Hr]. exists r. split; [|done].
  destruct (decide (l = v)) as [->|Hne]; [done|]. by eapply chain_step.
Qed.

(** X11. On a mapping reached during clustering, the label that
    [extract_clusters] writes on a row is in the class of the label the row
    had: two rows that end with the same label had labels of one class. *)
Theorem extract_clusters_stays_in_class (scanlines : list (list Point))
    (m : gmap Z Z) (cp : list Point) :
  reachable m → extract_clusters scanlines m = Ok cp →
  Forall2 (λ p p', same_class m (predicted_label p) (predicted_label p'))
          (concat scanlines) cp ∧
  (∀ i j p q p' q',
     concat scanlines !! i = Some p → concat scanlines !! j = Some q →
     cp !! i = Some p' → cp !! j = Some q' →
     predicted_label p' = predicted_label q' →
     same_class m (predicted_label p) (predicted_label q)).
Proof.
  intros (k & _ & _ & Hpb)%reachable_inv Hcp%extract_clusters_Ok.
  assert (Hall : Forall2 (λ p p', same_class m (predicted_label p) (predicted_label p'))
                   (concat scanlines) cp).
  { eapply Forall2_impl; [done|]. intros p p' [_ Hl]. by apply parent_same_class. }
  split; [done|].
  intros i j p q p' q' Hp Hq Hp' Hq' Heq.
  destruct (Forall2_lookup_lr _ _ _ _ _ _ Hall Hp Hp') as (r1 & Hr1 & Hr1').
  destruct (Forall2_lookup_lr _ _ _ _ _ _ Hall Hq Hq') as (r2 & Hr2 & Hr2').
  rewrite Heq in Hr1'. assert (r1 = r2) as -> by (by eapply chain_functional).
  by exists r2.
Qed.

Lemma extract_clusters_stays_in_class_witness :
  Forall2 (λ p p', same_class example_mapping (predicted_label p) (predicted_label p'))
          (concat [[mkPoint 0 0 0 0 2 0]]) [mkPoint 0 0 0 0 2 0] ∧
  (∀ i j p q p' q',
     concat [[mkPoint 0 0 0 0 2 0]] !! i = Some p →
     concat [[mkPoint 0 0 0 0 2 0]] !! j = Some q →
     [mkPoint 0 0 0 0 2 0] !! i = Some p' → [mkPoint 0 0 0 0 2 0] !! j = Some q' →
     predicted_label p' = predicted_label q' →
     same_class example_mapping (predicted_label p) (predicted_label q)).
Proof.
  apply (extract_clusters_stays_in_class [[mkPoint 0 0 0 0 2 0]] example_mapping).
  - exists (Some 3). apply example_mapping_reach.
  - vm_compute. reflexivity.
Defined.

(** X12. On a mapping in which every value is a root (no chain longer than
    one step) [extract_clusters] writes on every row the root of its label:
    the single lookup is then as good as following the chain. *)
Theorem extract_clusters_flat_mapping (scanlines : list (list Point))
    (m : gmap Z Z) (cp : list Point) :
  (∀ k v, m !! k = Some v → m !! v = Some v) →
  extract_clusters scanlines m = Ok cp →
  Forall2 (λ p p', chain m (predicted_label p) (predicted_label p') ∧
                   ∀ fuel, resolve_label (S (S fuel)) m (predicted_label p)
                           = Ok (predicted_label p'))
          (concat scanlines) cp.
Proof.
  intros Hflat Hcp%extract_clusters_Ok.
  eapply Forall2_impl; [done|]. intros p p' [_ Hl]. simpl in Hl.
  pose proof (Hflat _ _ Hl) as Hroot. split.
  - destruct (decide (predicted_label p = predicted_label p')) as [He|Hne].
    + rewrite He. by apply chain_root.
    + apply (chain_step m _ (predicted_label p')); [done|done|by apply chain_root].
  - intros fuel. cbn [resolve_label]. rewrite Hl.
    destruct (Z.eqb_spec (predicted_label p) (predicted_label p')) as [He|Hne];
      [by rewrite He|].
    by rewrite Hroot, Z.eqb_refl.
Qed.

Lemma extract_clusters_flat_mapping_witness :
  Forall2 (λ p p', chain example_mapping (predicted_label p) (predicted_label p') ∧
                   ∀ fuel, resolve_label (S (S fuel)) example_mapping (predicted_label p)
                           = Ok (predicted_label p'))
          (concat [[mkPoint 0 0 0 0 2 0]]) [mkPoint 0 0 0 0 2 0].
Proof.
  apply (extract_clusters_flat_mapping [[mkPoint 0 0 0 0 2 0]] example_mapping).
  - intros k v Hkv.
    destruct (decide (k = 1)) as [->|H1]; [by injection Hkv as <-|].
    destruct (decide (k = 2)) as [->|H2]; [by injection Hkv as <-|].
    exfalso. revert Hkv. unfold example_mapping. simpl.
    rewrite !lookup_insert_ne by done. by rewrite lookup_empty.
  - vm_compute. reflexivity.
Defined.

(** ** [scan_line_run_clustering], after it returns *)

Lemma assign_rows_masked (g : Point → bool) (cloud : list Point) :
  ∀ (pre : list Point) labels,
    assign_rows (pre ++ cloud) (nonzero_from (length pre) (map g cloud)) labels =
      pre ++ write_masked g cloud labels.
Proof.
  induction cloud as [|p cloud IH]; intros pre labels.
  - done.
  - cbn [map nonzero_from write_masked]. destruct (g p).
    + destruct labels as [|l labels]; [done|]. cbn [assign_rows].
      rewrite <- (Nat.add_0_r (length pre)) at 1. rewrite alter_app_r. simpl.
      specialize (IH (pre ++ [set_label l p]) labels).
      rewrite length_app, Nat.add_1_r, <- !(assoc_L (++)) in IH. apply IH.
    + specialize (IH (pre ++ [p]) labels).
      rewrite length_app, Nat.add_1_r, <- !(assoc_L (++)) in IH. apply IH.
Qed.

Lemma mask_sum_cons (b : bool) (mask : list bool) :
  mask_sum (b :: mask) = ((if b then 1 else 0) + mask_sum mask)%nat.
Proof. unfold mask_sum. rewrite filter_cons. by destruct b. Qed.

Lemma write_masked_spec (P : Z → Prop) (g : Point → bool) (cloud : list Point) :
  ∀ labels,
    length labels = mask_sum (map g cloud) → Forall P labels →
    Forall2 (λ p p', same_frame p p' ∧
               if g p then P (predicted_label p') else p' = p)
            cloud (write_masked g cloud labels).
Proof.
  induction cloud as [|p cloud IH]; intros labels Hlen HP; [constructor|].
  cbn [map] in Hlen. rewrite mask_sum_cons in Hlen.
  cbn [write_masked]. destruct (g p) eqn:Hg.
  - destruct labels as [|l labels]; [simpl in Hlen; lia|].
    apply Forall_cons in HP as [Hl HP]. simpl in Hlen.
    constructor; [|apply IH; [lia|done]].
    rewrite Hg. split; [apply same_frame_set_label|done].
  - constructor; [|by apply IH].
    rewrite Hg. split; [apply same_frame_refl|done].
Qed.

Lemma reachable_values m k v :
  reachable m → m !! k = Some v → 1 ≤ v ∧ v ≠ 9.
Proof.
  intros (kk & _ & Hk & Hpb)%reachable_inv Hkv.
  destruct (Hpb _ _ Hkv) as [[H1 _] Hv]. split; [done|].
  by apply Hk in Hv as [_ ?].
Qed.

Lemma scan_line_run_clustering_no_zero fuel cloud dt mt :
  Forall (λ p, predicted_label p ≠ 0) cloud →
  scan_line_run_clustering fuel cloud dt mt = (cloud, Raise ValueError).
Proof.
  intros Hall%mask_sum_zero. unfold scan_line_run_clustering.
  by rewrite Hall.
Qed.

(** What a call that finds a row to cluster leaves behind. *)
Lemma scan_line_run_clustering_post (fuel : nat) (cloud : Cloud)
    (dt mt : Q) :
  (length cloud + 2 ≤ fuel)%nat →
  ¬ Forall (λ p, predicted_label p ≠ 0) cloud →
  ∃ cloud',
    scan_line_run_clustering fuel cloud dt mt = (cloud', Ok ()) ∧
    Forall2 (λ p p', same_frame p p' ∧
               if predicted_label p =? 0
               then 1 ≤ predicted_label p' ∧ predicted_label p' ≠ 9
               else p' = p) cloud cloud' ∧
    Forall (λ p', predicted_label p' ≠ 0) cloud'.
Proof.
  intros Hfuel Hsome. unfold scan_line_run_clustering.
  set (g := λ p : Point, predicted_label p =? 0).
  set (mask := map g cloud).
  pose proof (mask_sum_zero cloud) as Hzero. fold g mask in Hzero.
  destruct (Nat.eqb_spec (mask_sum mask) 0) as [Hz|Hnz].
  { exfalso. by apply Hsome, Hzero. }
  pose proof (mask_select_length g cloud) as Hsel. fold mask in Hsel.
  pose proof (mask_sum_le mask) as Hle. unfold mask in Hle at 2.
  rewrite length_map in Hle.
  destruct (Nat.eqb_spec (length (mask_select mask cloud) * 6) 0) as [H6|_]; [lia|].
  destruct (propagate_labels_ok fuel (mask_select mask cloud) dt mt)
    as (scanlines & m & -> & Hsne & Hlab & Hlen & Hreach).
  { intros Hnil. rewrite Hnil in Hsel. simpl in Hsel. lia. }
  { lia. }
  cbn [mbind Result_bind].
  destruct (extract_clusters_ok scanlines m Hsne Hlab) as (cp & Hcp & Hcplen).
  rewrite Hcp. cbn [mbind Result_bind]. unfold assign_column.
  rewrite decide_True.
  2:{ unfold nonzero. rewrite length_map, nonzero_from_length. lia. }
  pose proof (assign_rows_masked g cloud [] (map predicted_label cp)) as Hrows.
  simpl in Hrows. fold mask in Hrows. unfold nonzero. rewrite Hrows.
  assert (Hspec : Forall2 (λ p p', same_frame p p' ∧
                    if g p then 1 ≤ predicted_label p' ∧ predicted_label p' ≠ 9
                    else p' = p)
            cloud (write_masked g cloud (map predicted_label cp))).
  { apply (write_masked_spec (λ l, 1 ≤ l ∧ l ≠ 9)).
    - rewrite length_map. fold mask. lia.
    - apply Forall_fmap. apply extract_clusters_Ok in Hcp.
      apply Forall_forall. intros p' Hp'.
      apply list_elem_of_lookup in Hp' as [i Hi].
      destruct (Forall2_lookup_r _ _ _ _ _ Hcp Hi) as (p & _ & _ & Hl).
      by eapply reachable_values. }
  assert (Hnz' : Forall (λ p', predicted_label p' ≠ 0)
                   (write_masked g cloud (map predicted_label cp))).
  { apply Forall_forall. intros p' Hp'.
    apply list_elem_of_lookup in Hp' as [i Hi].
    destruct (Forall2_lookup_r _ _ _ _ _ Hspec Hi) as (p & _ & _ & Hl).
    unfold g in Hl. destruct (Z.eqb_spec (predicted_label p) 0); [lia|].
    by subst p'. }
  eexists. split_and!; done.
Qed.

(** X13. When some row has [predicted_label == 0] (and the loops are given
    fuel of the number of rows plus two), [scan_line_run_clustering] returns
    a cloud in which every such row carries a label that is at least 1 and
    not 9, every other row is as it was, and no row is left with label 0;
    so a second call on the result raises [ValueError] and changes
    nothing. *)
Theorem scan_line_run_clustering_labels_all (fuel : nat) (cloud : Cloud)
    (dt mt : Q) :
  (length cloud + 2 ≤ fuel)%nat →
  ¬ Forall (λ p, predicted_label p ≠ 0) cloud →
  ∃ cloud',
    scan_line_run_clustering fuel cloud dt mt = (cloud', Ok ()) ∧
    Forall2 (λ p p', same_frame p p' ∧
               if predicted_label p =? 0
               then 1 ≤ predicted_label p' ∧ predicted_label p' ≠ 9
               else p' = p) cloud cloud' ∧
    Forall (λ p', predicted_label p' ≠ 0) cloud' ∧
    (∀ fuel' dt' mt',
       scan_line_run_clustering fuel' cloud' dt' mt' = (cloud', Raise ValueError)).
Proof.
  intros Hfuel Hsome.
  destruct (scan_line_run_clustering_post fuel cloud dt mt Hfuel Hsome)
    as (cloud' & Hres & Hrows & Hnz).
  exists cloud'. split_and!; [done..|].
  intros fuel' dt' mt'. by apply scan_line_run_clustering_no_zero.
Qed.

Lemma scan_line_run_clustering_labels_all_witness :
  ∃ cloud',
    scan_line_run_clustering 12 example_cloud 3 6 = (cloud', Ok ()) ∧
    Forall2 (λ p p', same_frame p p' ∧
               if predicted_label p =? 0
               then 1 ≤ predicted_label p' ∧ predicted_label p' ≠ 9
               else p' = p) example_cloud cloud' ∧
    Forall (λ p', predicted_label p' ≠ 0) cloud' ∧
    (∀ fuel' dt' mt',
       scan_line_run_clustering fuel' cloud' dt' mt' = (cloud', Raise ValueError)).
Proof.
  apply (scan_line_run_clustering_labels_all 12 example_cloud 3 6).
  - simpl. lia.
  - intros [H _]%Forall_cons. by apply H.
Defined.

(** ** [refine_ground_plane] without iterations *)

Lemma set_label_idemp v p : set_label v (set_label v p) = set_label v p.
Proof. done. Qed.

Lemma assign_scalar_lookup idxs v i : ∀ cloud : Cloud,
  assign_scalar cloud idxs v !! i =
    if decide (i ∈ idxs) then set_label v <$> cloud !! i else cloud !! i.
Proof.
  unfold assign_scalar.
  induction idxs as [|j idxs IH]; intros cloud; cbn [foldl].
  - rewrite decide_False; [done|]. apply not_elem_of_nil.
  - rewrite IH. destruct (decide (i = j)) as [->|Hne].
    + rewrite list_lookup_alter, (decide_True (P := j ∈ j :: idxs)) by left.
      rewrite (decide_True (P := j = j)) by done.
      case_decide; [|done].
      destruct (cloud !! j); simpl; [|done]. by rewrite set_label_idemp.
    + rewrite list_lookup_alter_ne by done.
      destruct (decide (i ∈ idxs)) as [Hin|Hnin].
      * rewrite decide_True; [done|]. by right.
      * rewrite decide_False; [done|]. intros [?|?]%elem_of_cons; done.
Qed.

(** X14. With [num_iterations <= 0] the loop of [refine_ground_plane] does
    not run: the call ends in [UnboundLocalError] at its [return], after it
    has written label 9 on the initial seed rows (and on no other row). *)
Theorem refine_ground_plane_without_iterations (svd_last_row : Mat3 → Vec3)
    (cloud : Cloud) (num_points : Z) (height_threshold distance_threshold : Q)
    (num_iterations : Z) :
  num_iterations ≤ 0 →
  ∃ seeds,
    extract_initial_seed_indices (map xyz cloud) num_points height_threshold
      = Ok seeds ∧
    (refine_ground_plane svd_last_row cloud num_points height_threshold
       distance_threshold num_iterations).2 = Raise UnboundLocalError ∧
    ∀ i, (refine_ground_plane svd_last_row cloud num_points height_threshold
            distance_threshold num_iterations).1 !! i =
         if decide (i ∈ seeds) then set_label 9 <$> cloud !! i else cloud !! i.
Proof.
  intros Hn.
  destruct (extract_initial_seed_indices_in_range (map xyz cloud) num_points
              height_threshold) as (seeds & Hseeds & _).
  exists seeds. unfold refine_ground_plane. rewrite Hseeds.
  replace (Z.to_nat num_iterations) with 0%nat by lia.
  cbn [mbind Result_bind seq foldM of_option fst snd].
  split_and!; [done..|]. intros i. apply assign_scalar_lookup.
Qed.

Lemma refine_ground_plane_without_iterations_witness :
  ∃ seeds,
    extract_initial_seed_indices (map xyz example_cloud) 2 (1 # 2) = Ok seeds ∧
    (refine_ground_plane vertical_normal example_cloud 2 (1 # 2) (1 # 5) 0).2
      = Raise UnboundLocalError ∧
    ∀ i, (refine_ground_plane vertical_normal example_cloud 2 (1 # 2) (1 # 5) 0).1
           !! i =
         if decide (i ∈ seeds) then set_label 9 <$> example_cloud !! i
         else example_cloud !! i.
Proof.
  apply (refine_ground_plane_without_iterations vertical_normal example_cloud
           2 (1 # 2) (1 # 5) 0).
  lia.
Defined.

(** ** [extract_initial_seed_indices], further *)

Lemma mask_select_filter (test : Q → bool) (l : list (Q * nat)) :
  mask_select (map test (map fst l)) (map snd l) =
    map snd (filter (λ zi, test zi.1 = true) l).
Proof.
  induction l as [|[z i] l IH]; [done|]. cbn [map mask_select fst snd].
  rewrite filter_cons. simpl. destruct (test z); simpl; by rewrite IH.
Qed.

Lemma sorted_filter (P : Q * nat → Prop) `{∀ x, Decision (P x)} l :
  StronglySorted height_le l → StronglySorted height_le (filter P l).
Proof.
  induction 1 as [|x l Hs IH Hall]; [constructor|].
  rewrite filter_cons. case_decide; [|done].
  constructor; [done|]. apply Forall_forall.
  intros y [_ Hy]%list_elem_of_filter. by eapply Forall_forall in Hall.
Qed.

Lemma sorted_lookup (l : list (Q * nat)) : ∀ i j x y,
  StronglySorted height_le l → (i < j)%nat →
  l !! i = Some x → l !! j = Some y → height_le x y.
Proof.
  induction l as [|a l IH]; intros i j x y Hs Hij Hx Hy; [done|].
  apply StronglySorted_inv in Hs as [Hs Hall].
  destruct j as [|j]; [lia|]. simpl in Hy. destruct i as [|i]; simpl in Hx.
  - injection Hx as <-. eapply Forall_forall in Hall; [done|].
    by eapply list_elem_of_lookup_2.
  - apply (IH i j); [done|lia|done..].
Qed.

(** X15. [extract_initial_seed_indices] always returns, and returns the
    seed rows by ascending height: a row listed earlier is never higher
    than a row listed later. *)
Theorem seed_indices_ascending (pc : list Vec3) (n : Z) (h : Q) :
  ∃ idxs,
    extract_initial_seed_indices pc n h = Ok idxs ∧
    ∀ i j a b va vb,
      (i < j)%nat → idxs !! i = Some a → idxs !! j = Some b →
      pc !! a = Some va → pc !! b = Some vb →
      (height va <= height vb)%Q.
Proof.
  destruct (extract_initial_seed_indices_eq pc) as (sp & _ & _ & _ & Heq).
  eexists. split; [apply Heq|].
  rewrite mask_select_filter.
  set (fl := filter _ (rows_by_height pc)).
  assert (Hsorted : StronglySorted height_le fl)
    by apply sorted_filter, rows_by_height_sorted.
  intros i j a b va vb Hij Ha Hb Hva Hvb.
  change ((snd <$> fl) !! i = Some a) in Ha.
  change ((snd <$> fl) !! j = Some b) in Hb.
  rewrite list_lookup_fmap in Ha, Hb.
  destruct (fl !! i) as [[za a']|] eqn:Hi; [|done].
  destruct (fl !! j) as [[zb b']|] eqn:Hj; [|done].
  simpl in Ha, Hb. injection Ha as ->. injection Hb as ->.
  pose proof (sorted_lookup fl i j _ _ Hsorted Hij Hi Hj) as Hle.
  apply list_elem_of_lookup_2, list_elem_of_filter in Hi as [_ Hi].
  apply list_elem_of_lookup_2, list_elem_of_filter in Hj as [_ Hj].
  apply rows_by_height_elem in Hi as (va' & Hva' & <-).
  apply rows_by_height_elem in Hj as (vb' & Hvb' & <-).
  assert (va' = va) as -> by congruence.
  assert (vb' = vb) as -> by congruence.
  done.
Qed.

Lemma mask_select_all_false {A B} (l : list A) (idxs : list B) :
  mask_select (map (λ _, false) l) idxs = [].
Proof.
  revert idxs. induction l as [|x l IH]; intros idxs; [done|].
  destruct idxs; [done|]. simpl. apply IH.
Qed.

(** X17. With [num_points = 0], and on an empty cloud, the mean of no
    heights is NaN and compares below nothing:
    [extract_initial_seed_indices] returns no seed. *)
Theorem no_seed_without_sample (pc : list Vec3) (n : Z) (h : Q) :
  n = 0 ∨ pc = [] → extract_initial_seed_indices pc n h = Ok [].
Proof.
  intros Hcase.
  destruct (extract_initial_seed_indices_eq pc) as (sp & _ & _ & Hlen & Heq).
  rewrite Heq.
  assert (py_prefix n sp = []) as ->.
  { destruct Hcase as [->| ->]; [done|].
    destruct sp; [|simpl in Hlen; lia]. unfold py_prefix.
    destruct (0 <=? n); apply take_nil. }
  simpl. by rewrite mask_select_all_false.
Qed.

Lemma no_seed_without_sample_witness :
  extract_initial_seed_indices example_points 0 (1 # 2) = Ok [].
Proof. apply (no_seed_without_sample example_points 0 (1 # 2)). by left. Defined.

(** ** The first scanline *)

Lemma next_label_nth (n : nat) :
  next_label (match n with O => 0 | S n' => nth_label n' end) = nth_label n.
Proof.
  unfold next_label, nth_label. destruct n as [|n]; [done|].
  destruct (Nat.ltb_spec n 8), (Nat.ltb_spec (S n) 8);
    match goal with |- context [?a =? 9] => destruct (Z.eqb_spec a 9) end; lia.
Qed.

Lemma label_first_scanline_labels runs :
  (label_first_scanline runs).1.1 = imap (λ i r, set_labels (nth_label i) r) runs ∧
  (∀ k v, (label_first_scanline runs).1.2 !! k = Some v ↔
          v = k ∧ ∃ i, (i < length runs)%nat ∧ k = nth_label i) ∧
  (label_first_scanline runs).2 =
    match length runs with O => 0 | S n' => nth_label n' end.
Proof.
  induction runs as [|run runs (IH1 & IH2 & IH3)] using rev_ind.
  - simpl. split_and!; [done| |done]. intros k v. rewrite lookup_empty.
    split; [done|]. intros (_ & i & Hi & _). lia.
  - rewrite label_first_scanline_snoc.
    destruct (label_first_scanline runs) as [[done m] lc].
    rewrite first_scanline_step_eq. simpl in *. subst done lc.
    rewrite next_label_nth. rewrite length_app, Nat.add_1_r. split_and!.
    + rewrite imap_app. simpl. by rewrite Nat.add_0_r.
    + intros k v. rewrite lookup_insert_Some, IH2. split.
      * intros [[<- <-]|(Hne & -> & i & Hi & ->)].
        -- split; [done|]. exists (length runs). split; [lia|done].
        -- split; [done|]. exists i. split; [lia|done].
      * intros (-> & i & Hi & ->).
        destruct (decide (i = length runs)) as [->|Hne]; [by left|].
        right. split_and!; [|done|].
        -- unfold nth_label.
           destruct (Nat.ltb_spec (length runs) 8), (Nat.ltb_spec i 8); lia.
        -- exists i. split; [lia|done].
    + done.
Qed.

(** X18. The first-scanline loop gives the run at position [i] the label
    [i + 1], or [i + 2] from the ninth run on (9 is left out), so the runs
    get distinct labels; and the mapping it builds sends exactly these
    labels to themselves. *)
Theorem first_scanline_labels (runs : list (list Point)) :
  (label_first_scanline runs).1.1 = imap (λ i r, set_labels (nth_label i) r) runs ∧
  (∀ i j, nth_label i = nth_label j → i = j) ∧
  (∀ k v, (label_first_scanline runs).1.2 !! k = Some v ↔
          v = k ∧ ∃ i, (i < length runs)%nat ∧ k = nth_label i).
Proof.
  destruct (label_first_scanline_labels runs) as (H1 & H2 & _).
  split_and!; [done| |done].
  intros i j. unfold nth_label.
  destruct (Nat.ltb_spec i 8), (Nat.ltb_spec j 8); lia.
Qed.

(** ** [estimate_ground_plane] *)


(** ** The two calls in sequence *)

Lemma refine_ground_plane_Ok_inv (svd_last_row : Mat3 → Vec3) (cloud : Cloud)
    (num_points : Z) (height_threshold distance_threshold : Q)
    (num_iterations : Z) (cloud' : Cloud) (plane : Plane) :
  refine_ground_plane svd_last_row cloud num_points height_threshold
      distance_threshold num_iterations = (cloud', Ok plane) →
  1 ≤ num_iterations ∧ cloud' = mark_ground plane distance_threshold cloud.
Proof.
  intros Hret.
  destruct (extract_initial_seed_indices_in_range (map xyz cloud) num_points
              height_threshold) as (seeds & Hseeds & Hrange).
  destruct (decide (1 ≤ num_iterations)) as [Hn|Hn].
  - split; [done|].
    destruct (refine_ground_plane_cases svd_last_row cloud num_points
                height_threshold distance_threshold num_iterations seeds
                Hn Hseeds)
      as [[Hraise _]|(pts & plane' & _ & _ & _ & Hres)].
    + rewrite Hraise in Hret. done.
    + rewrite Hres in Hret. by injection Hret as <- <-.
  - exfalso. revert Hret. unfold refine_ground_plane. rewrite Hseeds.
    replace (Z.to_nat num_iterations) with 0%nat by lia.
    cbn [mbind Result_bind seq foldM of_option fst snd]. done.
Qed.

Lemma Forall2_impl_elem {A B} (P Q : A → B → Prop) (l : list A) (k : list B) :
  Forall2 P l k → (∀ x y, x ∈ l → P x y → Q x y) → Forall2 Q l k.
Proof.
  induction 1 as [|x y l k Hxy _ IH]; intros Himp; constructor.
  - apply Himp; [left|done].
  - apply IH. intros x' y' Hx'. apply Himp. by right.
Qed.

(** X20. On a cloud whose labels are all 0, when [refine_ground_plane]
    returns a cloud and a plane and [scan_line_run_clustering] is then
    called on that cloud (with fuel of the number of rows plus two): the
    cloud is the input with the rows within the ground threshold of the
    plane labelled 9; if every row is within the threshold the second call
    raises [ValueError] and leaves the ground labels; otherwise it returns,
    every row keeps its other columns and has a label of at least 1, and the
    rows labelled 9 are exactly the rows within the ground threshold of the
    plane. *)
Theorem pipeline_ground_rows_keep_label_9 (svd_last_row : Mat3 → Vec3)
    (fuel : nat) (cloud : Cloud) (num_points : Z)
    (height_threshold ground_threshold : Q) (num_iterations : Z)
    (distance_threshold merge_threshold : Q) (ground : Cloud) (plane : Plane) :
  Forall (λ p, predicted_label p = 0) cloud →
  (length cloud + 2 ≤ fuel)%nat →
  refine_ground_plane svd_last_row cloud num_points height_threshold
      ground_threshold num_iterations = (ground, Ok plane) →
  ground = mark_ground plane ground_threshold cloud ∧
  (Forall (λ p, plane_dist_lt plane (xyz p) ground_threshold = true) cloud →
   scan_line_run_clustering fuel ground distance_threshold merge_threshold
     = (ground, Raise ValueError)) ∧
  (¬ Forall (λ p, plane_dist_lt plane (xyz p) ground_threshold = true) cloud →
   ∃ final,
     scan_line_run_clustering fuel ground distance_threshold merge_threshold
       = (final, Ok ()) ∧
     Forall2 (λ p p', same_frame p p' ∧ 1 ≤ predicted_label p' ∧
                (predicted_label p' = 9 ↔
                   plane_dist_lt plane (xyz p) ground_threshold = true))
             cloud final).
Proof.
  intros Hzero Hfuel Hret.
  apply refine_ground_plane_Ok_inv in Hret as [_ ->].
  split; [done|].
  set (within := λ p : Point, plane_dist_lt plane (xyz p) ground_threshold).
  split.
  - intros Hall. apply scan_line_run_clustering_no_zero.
    unfold mark_ground. apply Forall_fmap, Forall_forall. intros p Hp.
    eapply Forall_forall in Hall; [|done]. simpl. by rewrite Hall.
  - intros Hsome.
    destruct (scan_line_run_clustering_post fuel
                (mark_ground plane ground_threshold cloud)
                distance_threshold merge_threshold)
      as (final & Hfinal & Hrows & _).
    + unfold mark_ground. by rewrite length_map.
    + intros Hnz. apply Hsome. apply Forall_forall. intros p Hp.
      unfold mark_ground in Hnz.
      eapply Forall_forall in Hnz; [|apply list_elem_of_fmap; eauto].
      simpl in Hnz.
      eapply Forall_forall in Hzero; [|done]. simpl in Hzero.
      destruct (plane_dist_lt plane (xyz p) ground_threshold); [done|].
      by rewrite Hzero in Hnz.
    + exists final. split; [done|].
      unfold mark_ground in Hrows. apply Forall2_fmap_l in Hrows.
      eapply Forall2_impl_elem; [exact Hrows|]. clear Hrows.
      intros p p' Hp [Hframe Hlabel].
      eapply Forall_forall in Hzero; [|done]. simpl in Hzero, Hframe, Hlabel.
      destruct (plane_dist_lt plane (xyz p) ground_threshold) eqn:E.
      * simpl in Hlabel. subst p'. simpl. split_and!; [apply same_frame_set_label|lia|done].
      * rewrite Hzero in Hlabel. simpl in Hlabel. destruct Hlabel as [H1 H9].
        split_and!; [done|done|]. split; [done|discriminate].
Qed.

Lemma pipeline_ground_rows_keep_label_9_witness :
  ∃ ground plane,
    refine_ground_plane vertical_normal example_scene 2 (1 # 2) (1 # 5) 2
      = (ground, Ok plane) ∧
    ground = mark_ground plane (1 # 5) example_scene ∧
    (Forall (λ p, plane_dist_lt plane (xyz p) (1 # 5) = true) example_scene →
     scan_line_run_clustering 8 ground 3 6 = (ground, Raise ValueError)) ∧
    (¬ Forall (λ p, plane_dist_lt plane (xyz p) (1 # 5) = true) example_scene →
     ∃ final,
       scan_line_run_clustering 8 ground 3 6 = (final, Ok ()) ∧
       Forall2 (λ p p', same_frame p p' ∧ 1 ≤ predicted_label p' ∧
                  (predicted_label p' = 9 ↔
                     plane_dist_lt plane (xyz p) (1 # 5) = true))
               example_scene final).
Proof.
  eexists _, _. split; [vm_compute; reflexivity|].
  apply (pipeline_ground_rows_keep_label_9 vertical_normal 8 example_scene
           2 (1 # 2) (1 # 5) 2 3 6).
  - repeat constructor.
  - simpl. lia.
  - vm_compute. reflexivity.
Defined.

(** The scene through both calls: the ground keeps 9 and the object is one
    cluster. *)
Example pipeline_scene :
  let ground :=
    (refine_ground_plane vertical_normal example_scene 2 (1 # 2) (1 # 5) 2).1 in
  let out := scan_line_run_clustering 8 ground 3 6 in
  map predicted_label out.1 = [9; 9; 9; 9; 1; 1] ∧ out.2 = Ok ().
Proof. split; vm_compute; reflexivity. Qed.

(** ** The loop of [assign_new_label] always ends *)

Lemma keys_bounded (m : gmap Z Z) : ∃ b, ∀ k, is_Some (m !! k) → k < b.
Proof.
  induction m as [|i x m Hi IH] using map_ind.
  - exists 0. intros k. rewrite lookup_empty. by intros [? ?].
  - destruct IH as [b Hb]. exists (Z.max b (i + 1)).
    intros k [->|[_ Hk]]%lookup_insert_is_Some; [lia|].
    specialize (Hb k Hk). lia.
Qed.

Lemma skip_used_terminates (m : gmap Z Z) (b : Z) :
  (∀ k, is_Some (m !! k) → k < b) → 9 < b →
  ∀ n c, (Z.to_nat (b - c) ≤ n)%nat → ∃ l, skip_used (S n) m c = Ok l.
Proof.
  intros Hb H9. induction n as [|n IH]; intros c Hc.
  - simpl. assert (b ≤ c) by lia.
    destruct (Z.eqb_spec c 9); [lia|]. simpl.
    rewrite bool_decide_eq_false_2; [eauto|]. intros Hk%Hb. lia.
  - cbn [skip_used].
    destruct ((c =? 9) || bool_decide (is_Some (m !! c))); [|eauto].
    apply IH. lia.
Qed.

(** X21. On every mapping and from every counter the skipping loop of
    [assign_new_label] ends: with enough iterations allowed the call
    returns. *)
Theorem assign_new_label_terminates (run : list Point) (m : gmap Z Z) (c : Z) :
  ∃ fuel res, ∀ fuel', (fuel ≤ fuel')%nat →
    assign_new_label fuel' run m c = Ok res.
Proof.
  destruct (keys_bounded m) as [b Hb].
  destruct (skip_used_terminates m (Z.max b 10)) with (n := Z.to_nat (Z.max b 10 - c)) (c := c)
    as [l Hl]; [intros k Hk%Hb; lia|lia|lia|].
  exists (S (Z.to_nat (Z.max b 10 - c))), (set_labels l run, <[l := l]> m, l + 1).
  intros fuel' Hle. unfold assign_new_label.
  assert (skip_used fuel' m c = Ok l) as ->; [|done].
  clear -Hl Hle. revert Hl Hle.
  generalize (S (Z.to_nat (Z.max b 10 - c))). intros fuel. revert c fuel'.
  induction fuel as [|fuel IH]; intros c fuel'; simpl; [done|].
  intros H Hle. destruct fuel' as [|fuel']; [lia|]. simpl.
  destruct ((c =? 9) || bool_decide (is_Some (m !! c))); [|done].
  apply IH; [done|lia].
Qed.

(** ** What the propagation does to the rows *)

Lemma set_labels_frames l (run : list Point) :
  map frame_of (set_labels l run) = map frame_of run.
Proof. unfold set_labels. rewrite map_map. done. Qed.

Lemma relabelled_frames m (runs runs' : list (list Point)) :
  Forall2 (relabelled m) runs runs' →
  map frame_of (concat runs') = map frame_of (concat runs).
Proof.
  induction 1 as [|run run' runs runs' (l & -> & _) _ IH]; [done|].
  simpl. by rewrite !map_app, set_labels_frames, IH.
Qed.

Lemma find_runs_Ok_perm s dt rc : find_runs s dt = Ok rc → concat rc ≡ₚ s.
Proof.
  intros Hrc. destruct s as [|p s]; [done|].
  destruct (find_runs_perm (p :: s) dt) as (rc' & Hrc' & _ & _ & Hperm); [done|].
  congruence.
Qed.

Lemma index_lookup {A} (a : list A) (i : nat) (x : A) :
  index a i = Ok x → a !! i = Some x.
Proof. unfold index. destruct (a !! i); simpl; congruence. Qed.

Lemma propagate_step_rows fuel dt mt st i st' :
  propagate_step fuel dt mt st i = Ok st' →
  ∃ s s', st.1.1 !! i = Some s ∧ same_rows s s' ∧
          st'.1.1 = <[i := s']> st.1.1.
Proof.
  destruct st as [[scanlines runs_above] m]. unfold propagate_step.
  intros (s & Hs%index_lookup & H)%bind_Ok_inv.
  apply bind_Ok_inv in H as (rc & Hrc & H).
  apply bind_Ok_inv in H as ([rc' m'] & Hup & [= <-]).
  exists s, (concat rc'). split_and!; [done| |done].
  apply update_labels_inv in Hup as (mx & c' & _ & _ & Hloop).
  apply update_loop_relabels in Hloop as (new & Hnew & Hall & _).
  simpl in Hnew. subst new. unfold same_rows.
  rewrite (relabelled_frames _ _ _ Hall). f_equiv. by eapply find_runs_Ok_perm.
Qed.

Lemma propagate_loop_rows fuel dt mt gs idxs : ∀ st st',
  foldM (propagate_step fuel dt mt) st idxs = Ok st' →
  Forall2 same_rows gs st.1.1 → Forall2 same_rows gs st'.1.1.
Proof.
  induction idxs as [|i idxs IH]; intros st st'; simpl.
  - by intros [= <-].
  - intros (st1 & Hstep & Hrest)%bind_Ok_inv Hall.
    apply (IH st1 st' Hrest). clear IH Hrest.
    apply propagate_step_rows in Hstep as (s & s' & Hs & Hss' & ->).
    destruct (Forall2_lookup_r _ _ _ _ _ Hall Hs) as (g & Hg & Hgs).
    rewrite <- (list_insert_id gs i g Hg).
    apply Forall2_insert; [done|]. unfold same_rows in *. by rewrite Hss'.
Qed.

Lemma same_rows_concat (gs ss : list (list Point)) :
  Forall2 same_rows gs ss → same_rows (concat gs) (concat ss).
Proof.
  unfold same_rows. induction 1 as [|g s gs ss Hgs _ IH]; [done|].
  simpl. by rewrite !map_app, Hgs, IH.
Qed.

(** X22. Whenever the propagation over the scanlines succeeds, it hands on
    one scanline per group of [group_by_scanline], in the same order, and
    each holds the rows of its group up to order and label; so all together
    the rows are the non-ground rows up to order and label. *)
Theorem propagate_labels_keeps_rows (fuel : nat) (ngp : list Point) (dt mt : Q)
    (scanlines : list (list Point)) (m : gmap Z Z) :
  propagate_labels fuel ngp dt mt = Ok (scanlines, m) →
  Forall2 same_rows (group_by_scanline ngp) scanlines ∧
  same_rows ngp (concat scanlines).
Proof.
  intros Hprop.
  assert (Hall : Forall2 same_rows (group_by_scanline ngp) scanlines).
  { revert Hprop. unfold propagate_labels.
    intros (s0 & Hs0%index_lookup & H)%bind_Ok_inv.
    apply bind_Ok_inv in H as (runs & Hruns & H).
    pose proof (label_first_scanline_spec runs) as (Hrel & _).
    destruct (label_first_scanline runs) as [[ra m0] lc]. simpl in Hrel.
    apply bind_Ok_inv in H as (st & Hloop & [= <- <-]).
    apply (propagate_loop_rows _ _ _ (group_by_scanline ngp)) in Hloop; [done|].
    simpl. rewrite <- (list_insert_id (group_by_scanline ngp) 0 s0 Hs0) at 1.
    apply Forall2_insert.
    - generalize (group_by_scanline ngp). clear.
      intros l. induction l; constructor; [by unfold same_rows|done].
    - unfold same_rows. rewrite (relabelled_frames _ _ _ Hrel). f_equiv.
      by eapply find_runs_Ok_perm. }
  split; [done|]. apply same_rows_concat in Hall. unfold same_rows in *.
  rewrite Hall. f_equiv. apply group_by_scanline_perm.
Qed.

Lemma propagate_labels_keeps_rows_witness :
  ∃ scanlines m,
    propagate_labels 12 example_cloud 3 6 = Ok (scanlines, m) ∧
    Forall2 same_rows (group_by_scanline example_cloud) scanlines ∧
    same_rows example_cloud (concat scanlines).
Proof.
  eexists _, _. split; [vm_compute; reflexivity|].
  eapply (propagate_labels_keeps_rows 12 example_cloud 3 6).
  vm_compute. reflexivity.
Defined.
